(** * JSON viewer: pointer model, expand state, search, share link, proxy

    A shallow embedding of the JSON viewer's navigation logic
    ([safeJsonParse], [formatJson], [minifyJson], [findMatches],
    [pointerFromSegments], [collectExpandablePointers], the [FormViewer]
    expand-state transitions, the share-link hash loader and the
    remote-fetch proxy), with the properties its specification states
    about them.  The built-ins the program calls are modelled after their
    standards ([encodeURIComponent], [JSON.parse], [JSON.stringify]) or
    kept as interfaces (numbers, [toLowerCase], lz-string, [new URL]). *)

From Stdlib Require Import NArith ZArith List Lia Ascii String DecimalN.
From stdpp Require Import gmap strings list.

Local Open Scope N_scope.
Set Warnings "-register-all,-clear-no-such-hyp".
Unset Lia Cache.

(** ** JavaScript strings

    A JavaScript string is a sequence of UTF-16 code units.  A code unit is a
    number below [2^16]; [code_units] says so of every element. *)

Abbreviation jsstring := (list N).

Definition code_unit (c : N) : Prop := c < 65536.
Definition code_units (s : jsstring) : Prop := Forall code_unit s.

(** An ASCII literal as a JavaScript string. *)
Definition js (s : string) : jsstring :=
  map N_of_ascii (list_ascii_of_string s).

(** ** [encodeURIComponent] (ECMA-262, Encode with the unreserved set) *)

Module Uri.

(** uriUnescaped: letters, decimal digits and the marks [- _ . ! ~ * ' ( )]. *)
Definition uriUnescaped (c : N) : bool :=
  ((65 <=? c) && (c <=? 90)) || ((97 <=? c) && (c <=? 122))
  || ((48 <=? c) && (c <=? 57))
  || (c =? 45) || (c =? 95) || (c =? 46) || (c =? 33) || (c =? 126)
  || (c =? 42) || (c =? 39) || (c =? 40) || (c =? 41).

Definition isLeadingSurrogate (c : N) : bool := (0xD800 <=? c) && (c <=? 0xDBFF).
Definition isTrailingSurrogate (c : N) : bool := (0xDC00 <=? c) && (c <=? 0xDFFF).

(** UTF16SurrogatePairToCodePoint. *)
Definition surrogatePair (lead trail : N) : N :=
  (lead - 0xD800) * 0x400 + (trail - 0xDC00) + 0x10000.

(** The octets of the UTF-8 transformation of a code point. *)
Definition utf8 (cp : N) : list N :=
  if cp <? 0x80 then [cp]
  else if cp <? 0x800 then [0xC0 + cp / 64; 0x80 + cp mod 64]
  else if cp <? 0x10000 then
    [0xE0 + cp / 4096; 0x80 + (cp / 64) mod 64; 0x80 + cp mod 64]
  else
    [0xF0 + cp / 262144; 0x80 + (cp / 4096) mod 64;
     0x80 + (cp / 64) mod 64; 0x80 + cp mod 64].

(** An uppercase hexadecimal digit. *)
Definition hexDigit (d : N) : N := if d <? 10 then 48 + d else 55 + d.

(** One octet as ["%XX"]. *)
Definition percentOctet (b : N) : jsstring := [37; hexDigit (b / 16); hexDigit (b mod 16)].

Definition percent (octets : list N) : jsstring := flat_map percentOctet octets.

(** [None] is the URIError thrown at an unpaired surrogate. *)
Fixpoint encodeURIComponent (s : jsstring) : option jsstring :=
  match s with
  | [] => Some []
  | c :: rest =>
    if uriUnescaped c then
      match encodeURIComponent rest with
      | Some r => Some (c :: r)
      | None => None
      end
    else if isLeadingSurrogate c then
      match rest with
      | d :: rest' =>
        if isTrailingSurrogate d then
          match encodeURIComponent rest' with
          | Some r => Some (percent (utf8 (surrogatePair c d)) ++ r)
          | None => None
          end
        else None
      | [] => None
      end
    else if isTrailingSurrogate c then None
    else
      match encodeURIComponent rest with
      | Some r => Some (percent (utf8 c) ++ r)
      | None => None
      end
  end.

(** [String.prototype.isWellFormed]: no unpaired surrogate. *)
Fixpoint isWellFormed (s : jsstring) : bool :=
  match s with
  | [] => true
  | c :: rest =>
    if isLeadingSurrogate c then
      match rest with
      | d :: rest' => isTrailingSurrogate d && isWellFormed rest'
      | [] => false
      end
    else if isTrailingSurrogate c then false
    else isWellFormed rest
  end.

(** UTF16EncodeCodePoint: the code units of a code point. *)
Definition unitsOf (cp : N) : jsstring :=
  if cp <? 0x10000 then [cp]
  else [0xD800 + (cp - 0x10000) / 0x400; 0xDC00 + (cp - 0x10000) mod 0x400].

(** One step of Encode: from the string, the characters appended to the
    result and the rest of the string. *)
Inductive step : jsstring -> jsstring -> jsstring -> Prop :=
| step_plain c rest : uriUnescaped c = true -> step (c :: rest) [c] rest
| step_pair c d rest :
    uriUnescaped c = false -> isLeadingSurrogate c = true -> isTrailingSurrogate d = true ->
    step (c :: d :: rest) (percent (utf8 (surrogatePair c d))) rest
| step_bmp c rest :
    uriUnescaped c = false -> isLeadingSurrogate c = false -> isTrailingSurrogate c = false ->
    step (c :: rest) (percent (utf8 c)) rest.

End Uri.

(** ** Paths and pointers (the form view) *)

Module Pointer.

(** [type Seg = string | number]; an index is a non-negative integer. *)
Inductive Seg : Type :=
| Key (k : jsstring)
| Idx (i : N).

Fixpoint digitsOf (u : Decimal.uint) : jsstring :=
  match u with
  | Decimal.Nil => []
  | Decimal.D0 r => 48 :: digitsOf r
  | Decimal.D1 r => 49 :: digitsOf r
  | Decimal.D2 r => 50 :: digitsOf r
  | Decimal.D3 r => 51 :: digitsOf r
  | Decimal.D4 r => 52 :: digitsOf r
  | Decimal.D5 r => 53 :: digitsOf r
  | Decimal.D6 r => 54 :: digitsOf r
  | Decimal.D7 r => 55 :: digitsOf r
  | Decimal.D8 r => 56 :: digitsOf r
  | Decimal.D9 r => 57 :: digitsOf r
  end.

(** The decimal number of a text of digits. *)
Fixpoint uintOf (s : jsstring) : Decimal.uint :=
  match s with
  | [] => Decimal.Nil
  | c :: rest =>
    if c =? 48 then Decimal.D0 (uintOf rest)
    else if c =? 49 then Decimal.D1 (uintOf rest)
    else if c =? 50 then Decimal.D2 (uintOf rest)
    else if c =? 51 then Decimal.D3 (uintOf rest)
    else if c =? 52 then Decimal.D4 (uintOf rest)
    else if c =? 53 then Decimal.D5 (uintOf rest)
    else if c =? 54 then Decimal.D6 (uintOf rest)
    else if c =? 55 then Decimal.D7 (uintOf rest)
    else if c =? 56 then Decimal.D8 (uintOf rest)
    else if c =? 57 then Decimal.D9 (uintOf rest)
    else Decimal.Nil
  end.

(** [String(i)] for an index: its decimal digits. *)
Definition indexToString (i : N) : jsstring := digitsOf (N.to_uint i).

(** [String(seg)]. *)
Definition segToString (seg : Seg) : jsstring :=
  match seg with
  | Key k => k
  | Idx i => indexToString i
  end.

Definition segToPointer (seg : Seg) : option jsstring :=
  Uri.encodeURIComponent (segToString seg).

(** [parts.join(sep)]. *)
Fixpoint join (sep : jsstring) (parts : list jsstring) : jsstring :=
  match parts with
  | [] => []
  | [p] => p
  | p :: rest => p ++ sep ++ join sep rest
  end.

(** [segs.map(segToPointer)], stopping at the first URIError. *)
Fixpoint mapSegs (segs : list Seg) : option (list jsstring) :=
  match segs with
  | [] => Some []
  | seg :: rest =>
    match segToPointer seg with
    | Some p =>
      match mapSegs rest with
      | Some ps => Some (p :: ps)
      | None => None
      end
    | None => None
    end
  end.

Definition rootPointer : jsstring := js "/".

Definition pointerFromSegments (segs : list Seg) : option jsstring :=
  match segs with
  | [] => Some rootPointer
  | _ =>
    match mapSegs segs with
    | Some ps => Some (js "/" ++ join (js "/") ps)
    | None => None
    end
  end.


(** A text key without unpaired surrogates. *)
Definition wellFormedSeg (seg : Seg) : Prop :=
  match seg with
  | Key k => Uri.isWellFormed k = true
  | Idx _ => True
  end.



End Pointer.

Import Pointer.

(** ** JSON values

    The value [JSON.parse] returns.  The host's numbers (IEEE doubles) and the
    two built-ins whose tables are not part of the program are an interface:
    [NumberToString] is [String(n)] on a number, [toLowerCase] is
    [String.prototype.toLowerCase]. *)

Class Numbers := {
  number : Type;
  NumberToString : number -> jsstring;
}.

Class Unicode := {
  toLowerCase : jsstring -> jsstring;
}.

(** An object's fields are listed in the order of [Object.keys]. *)
Inductive JsonValue `{Numbers} : Type :=
| JNull
| JBool (b : bool)
| JNumber (n : number)
| JString (s : jsstring)
| JArray (items : list JsonValue)
| JObject (fields : list (jsstring * JsonValue)).

(** Induction on a value with the hypothesis for every element and field. *)
Section JsonValueInduction.
Context `{Numbers} (P : JsonValue -> Prop).
Hypothesis case_null : P JNull.
Hypothesis case_bool : forall b, P (JBool b).
Hypothesis case_number : forall n, P (JNumber n).
Hypothesis case_string : forall s, P (JString s).
Hypothesis case_array : forall items, Forall P items -> P (JArray items).
Hypothesis case_object : forall fields, Forall (fun kv => P (snd kv)) fields -> P (JObject fields).

Fixpoint JsonValue_nested_ind (v : JsonValue) : P v :=
  match v with
  | JNull => case_null
  | JBool b => case_bool b
  | JNumber n => case_number n
  | JString s => case_string s
  | JArray items =>
    case_array items
      ((fix all (items : list JsonValue) : Forall P items :=
          match items with
          | [] => @List.Forall_nil _ P
          | x :: rest => @List.Forall_cons _ P x rest (JsonValue_nested_ind x) (all rest)
          end) items)
  | JObject fields =>
    case_object fields
      ((fix all (fields : list (jsstring * JsonValue)) : Forall (fun kv => P (snd kv)) fields :=
          match fields with
          | [] => @List.Forall_nil _ _
          | kv :: rest => @List.Forall_cons _ _ kv rest (JsonValue_nested_ind (snd kv)) (all rest)
          end) fields)
  end.

End JsonValueInduction.

(** A thrown value as the handlers read it: [e?.message]. *)
Record JsError : Type := { message : option jsstring }.

(** [e?.message ?? fallback]. *)
Definition messageOr (fallback : jsstring) (e : JsError) : jsstring :=
  match message e with
  | Some m => m
  | None => fallback
  end.

(** ** String built-ins used by the program *)

Module Str.

(** WhiteSpace and LineTerminator code points, as [trim] strips them. *)
Definition isWhiteSpace (c : N) : bool :=
  ((9 <=? c) && (c <=? 13)) || (c =? 32) || (c =? 0xA0) || (c =? 0x1680)
  || ((0x2000 <=? c) && (c <=? 0x200A)) || (c =? 0x2028) || (c =? 0x2029)
  || (c =? 0x202F) || (c =? 0x205F) || (c =? 0x3000) || (c =? 0xFEFF).

Fixpoint trimStart (s : jsstring) : jsstring :=
  match s with
  | [] => []
  | c :: rest => if isWhiteSpace c then trimStart rest else s
  end.

Definition trimEnd (s : jsstring) : jsstring := rev (trimStart (rev s)).

Definition trim (s : jsstring) : jsstring := trimEnd (trimStart s).

Fixpoint startsWith (s q : jsstring) {struct q} : bool :=
  match q, s with
  | [], _ => true
  | _ :: _, [] => false
  | c :: q', d :: s' => (c =? d) && startsWith s' q'
  end.

Fixpoint includes (s q : jsstring) : bool :=
  startsWith s q ||
  match s with
  | [] => false
  | _ :: s' => includes s' q
  end.

(** [s.slice(n)] and [s.slice(0, n)] for [0 <= n]. *)
Definition sliceFrom (n : nat) (s : jsstring) : jsstring := skipn n s.
Definition sliceTo (n : nat) (s : jsstring) : jsstring := firstn n s.

(** A string is truthy when it is not empty. *)
Definition truthy (s : jsstring) : bool :=
  match s with
  | [] => false
  | _ => true
  end.

End Str.

(** ** The expand state of the form view *)

Module Expand.

Definition isExpandable `{Numbers} (v : JsonValue) : bool :=
  match v with
  | JArray _ | JObject _ => true
  | _ => false
  end.

Section Collect.
Context `{Numbers}.
Variable limit : N.

(** [walk] of [collectExpandablePointers]; [out] is the set being filled,
    [None] the URIError of [pointerFromSegments]. *)
Fixpoint walk (node : JsonValue) (segs : list Seg) (out : gset jsstring)
  {struct node} : option (gset jsstring) :=
  if decide (limit <= N.of_nat (size out)) then Some out
  else
    match node with
    | JArray items =>
      match pointerFromSegments segs with
      | None => None
      | Some p =>
        (fix each (items : list JsonValue) (i : N) (out : gset jsstring)
           {struct items} : option (gset jsstring) :=
           match items with
           | [] => Some out
           | x :: rest =>
             match walk x (segs ++ [Idx i]) out with
             | None => None
             | Some out' =>
               if decide (limit <= N.of_nat (size out')) then Some out'
               else each rest (N.succ i) out'
             end
           end) items 0 ({[p]} ∪ out)
      end
    | JObject fields =>
      match pointerFromSegments segs with
      | None => None
      | Some p =>
        (fix each (fields : list (jsstring * JsonValue)) (out : gset jsstring)
           {struct fields} : option (gset jsstring) :=
           match fields with
           | [] => Some out
           | (k, x) :: rest =>
             match walk x (segs ++ [Key k]) out with
             | None => None
             | Some out' =>
               if decide (limit <= N.of_nat (size out')) then Some out'
               else each rest out'
             end
           end) fields ({[p]} ∪ out)
      end
    | _ => Some out
    end.

Definition collectExpandablePointers (root : JsonValue) : option (gset jsstring) :=
  walk root [] ∅.

(** *** The traversal the specification describes

    The paths of the containers of [node], parents before children, array
    elements by index and object fields in key order. *)
Fixpoint containerPaths (node : JsonValue) (segs : list Seg) {struct node} : list (list Seg) :=
  match node with
  | JArray items =>
    segs ::
    (fix each (items : list JsonValue) (i : N) {struct items} : list (list Seg) :=
       match items with
       | [] => []
       | x :: rest => containerPaths x (segs ++ [Idx i]) ++ each rest (N.succ i)
       end) items 0
  | JObject fields =>
    segs ::
    (fix each (fields : list (jsstring * JsonValue)) {struct fields} : list (list Seg) :=
       match fields with
       | [] => []
       | (k, x) :: rest => containerPaths x (segs ++ [Key k]) ++ each rest
       end) fields
  | _ => []
  end.

(** Insert the pointers of [paths] in order until [limit] are in the set. *)
Fixpoint fill (paths : list (list Seg)) (out : gset jsstring) : option (gset jsstring) :=
  match paths with
  | [] => Some out
  | segs :: rest =>
    if decide (limit <= N.of_nat (size out)) then Some out
    else
      match pointerFromSegments segs with
      | None => None
      | Some p => fill rest ({[p]} ∪ out)
      end
  end.

End Collect.



(** The state updates of [FormViewer]: each takes the previous set and gives
    the next one, or [None] when the handler throws before [setExpanded]. *)

Definition initialExpanded : gset jsstring := {[rootPointer]}.

Definition toggle (segs : list Seg) (prev : gset jsstring) : option (gset jsstring) :=
  match pointerFromSegments segs with
  | None => None
  | Some p =>
    let next := if decide (p ∈ prev) then prev ∖ {[p]} else {[p]} ∪ prev in
    Some ({[rootPointer]} ∪ next)
  end.

(** [pointers] of [ensureOpen] after the loop has run [n] times. *)
Fixpoint ancestorPointers (segs : list Seg) (n : nat) : option (list jsstring) :=
  match n with
  | O => Some [rootPointer]
  | S i =>
    match ancestorPointers segs i with
    | None => None
    | Some ps =>
      match pointerFromSegments (firstn (i + 1) segs) with
      | None => None
      | Some p => Some (ps ++ [p])
      end
    end
  end.

Definition ensureOpen (segs : list Seg) (prev : gset jsstring) : option (gset jsstring) :=
  match ancestorPointers segs (length segs) with
  | None => None
  | Some pointers => Some (fold_left (fun next p => {[p]} ∪ next) pointers prev)
  end.

(** [expandAll]: the new set and whether the toast about the cap was shown. *)
Definition expandAll `{Numbers} (value : JsonValue) : option (gset jsstring * bool) :=
  match collectExpandablePointers 6000 value with
  | None => None
  | Some set => Some ({[rootPointer]} ∪ set, bool_decide (6000 <= N.of_nat (size set)))
  end.

Definition collapseAll : gset jsstring := {[rootPointer]}.

(** The user's actions on the expand state. *)
Inductive Action `{Numbers} : Type :=
| Toggle (segs : list Seg)
| EnsureOpen (segs : list Seg)
| ExpandAll (value : JsonValue)
| CollapseAll.

(** A handler that throws leaves the state as it was. *)
Definition act `{Numbers} (expanded : gset jsstring) (a : Action) : gset jsstring :=
  match a with
  | Toggle segs => default expanded (toggle segs expanded)
  | EnsureOpen segs => default expanded (ensureOpen segs expanded)
  | ExpandAll value => default expanded (fst <$> expandAll value)
  | CollapseAll => collapseAll
  end.

Definition run `{Numbers} (actions : list Action) : gset jsstring :=
  fold_left act actions initialExpanded.

End Expand.

(** ** Search: [pathJoin] and [findMatches] *)

Module Search.

Inductive Kind : Type := KeyMatch | ValueMatch.

Record Match : Type := { path : jsstring; kind : Kind; preview : jsstring }.

(** [[A-Za-z_$]] and [[A-Za-z0-9_$]]. *)
Definition identStart (c : N) : bool :=
  ((65 <=? c) && (c <=? 90)) || ((97 <=? c) && (c <=? 122)) || (c =? 95) || (c =? 36).

Definition identPart (c : N) : bool :=
  identStart c || ((48 <=? c) && (c <=? 57)).

(** The test of [/^[A-Za-z_$][A-Za-z0-9_$]*$/]. *)
Definition isIdentifier (key : jsstring) : bool :=
  match key with
  | [] => false
  | c :: rest => identStart c && forallb identPart rest
  end.

(** [key.replace(/"/g, '\\"')]: a backslash before every double quote. *)
Definition escapeQuotes (key : jsstring) : jsstring :=
  flat_map (fun c => if c =? 34 then [92; 34] else [c]) key.

Definition pathJoin (parent : jsstring) (key : Seg) : jsstring :=
  match key with
  | Idx i => parent ++ js "[" ++ indexToString i ++ js "]"
  | Key k =>
    if isIdentifier k then
      if Str.truthy parent then parent ++ js "." ++ k else k
    else parent ++ [91; 34] ++ escapeQuotes k ++ [34; 93]
  end.

Section FindMatches.
Context `{Numbers} `{Unicode}.

Definition lengthToString (n : nat) : jsstring := indexToString (N.of_nat n).

(** [String(v)] of a leaf. *)
Definition leafToString (v : JsonValue) : jsstring :=
  match v with
  | JNull => js "null"
  | JBool true => js "true"
  | JBool false => js "false"
  | JNumber n => NumberToString n
  | JString s => s
  | JArray _ | JObject _ => []
  end.

(** The ellipsis is U+2026. *)
Definition summarize (v : JsonValue) : jsstring :=
  match v with
  | JNull => js "null"
  | JString s =>
    if (160 <? length s)%nat then Str.sliceTo 160 s ++ [0x2026] else s
  | JNumber _ | JBool _ => leafToString v
  | JArray items => js "Array(" ++ lengthToString (length items) ++ js ")"
  | JObject fields => js "Object(" ++ lengthToString (length fields) ++ js ")"
  end.

Variable q : jsstring.
Variable maxMatches : N.

Definition push (out : list Match) (m : Match) : list Match :=
  if N.of_nat (length out) <? maxMatches then out ++ [m] else out.

(** [visit]; [out] is the array being filled. *)
Fixpoint visit (node : JsonValue) (path : jsstring) (out : list Match)
  {struct node} : list Match :=
  if maxMatches <=? N.of_nat (length out) then out
  else
    match node with
    | JNull => out
    | JArray items =>
      (fix each (items : list JsonValue) (i : N) (out : list Match)
         {struct items} : list Match :=
         match items with
         | [] => out
         | x :: rest => each rest (N.succ i) (visit x (pathJoin path (Idx i)) out)
         end) items 0 out
    | JObject fields =>
      (fix each (fields : list (jsstring * JsonValue)) (out : list Match)
         {struct fields} : list Match :=
         match fields with
         | [] => out
         | (k, x) :: rest =>
           let out1 :=
             if Str.includes (toLowerCase k) q
             then push out {| path := pathJoin path (Key k); kind := KeyMatch; preview := k |}
             else out in
           let out2 := visit x (pathJoin path (Key k)) out1 in
           if maxMatches <=? N.of_nat (length out2) then out2 else each rest out2
         end) fields out
    | JBool _ | JNumber _ | JString _ =>
      if Str.includes (toLowerCase (leafToString node)) q
      then push out {| path := path; kind := ValueMatch; preview := summarize node |}
      else out
    end.

End FindMatches.

Definition findMatches `{Numbers} `{Unicode}
  (root : JsonValue) (queryRaw : jsstring) (maxMatches : N) : list Match :=
  let q := toLowerCase (Str.trim queryRaw) in
  if Str.truthy q then visit q maxMatches root [] [] else [].

(** *** The matches the specification describes

    [nodeAt root p v]: [v] is the node of [root] displayed at path [p]. *)
Inductive nodeAt `{Numbers} (root : JsonValue) : jsstring -> JsonValue -> Prop :=
| at_root : nodeAt root [] root
| at_item p items i x :
    nodeAt root p (JArray items) -> items !! i = Some x ->
    nodeAt root (pathJoin p (Idx (N.of_nat i))) x
| at_field p fields i k x :
    nodeAt root p (JObject fields) -> fields !! i = Some (k, x) ->
    nodeAt root (pathJoin p (Key k)) x.

Definition isLeaf `{Numbers} (v : JsonValue) : bool :=
  match v with
  | JBool _ | JNumber _ | JString _ => true
  | _ => false
  end.

(** A key match at an object key of any depth whose lower-cased text
    contains [q], or a value match at a Boolean, number or string leaf whose
    lower-cased text contains [q]. *)
Inductive isMatch `{Numbers} `{Unicode} (root : JsonValue) (q : jsstring) : Match -> Prop :=
| match_key p fields i k x :
    nodeAt root p (JObject fields) -> fields !! i = Some (k, x) ->
    Str.includes (toLowerCase k) q = true ->
    isMatch root q {| path := pathJoin p (Key k); kind := KeyMatch; preview := k |}
| match_value p v :
    nodeAt root p v -> isLeaf v = true ->
    Str.includes (toLowerCase (leafToString v)) q = true ->
    isMatch root q {| path := p; kind := ValueMatch; preview := summarize v |}.

(** The matches of a whole traversal, in depth-first pre-order. *)
Fixpoint allMatches `{Numbers} `{Unicode} (q : jsstring) (node : JsonValue) (path : jsstring)
  {struct node} : list Match :=
  match node with
  | JNull => []
  | JArray items =>
    (fix each (items : list JsonValue) (i : N) {struct items} : list Match :=
       match items with
       | [] => []
       | x :: rest => allMatches q x (pathJoin path (Idx i)) ++ each rest (N.succ i)
       end) items 0
  | JObject fields =>
    (fix each (fields : list (jsstring * JsonValue)) {struct fields} : list Match :=
       match fields with
       | [] => []
       | (k, x) :: rest =>
         (if Str.includes (toLowerCase k) q
          then [{| path := pathJoin path (Key k); kind := KeyMatch; preview := k |}]
          else [])
         ++ allMatches q x (pathJoin path (Key k)) ++ each rest
       end) fields
  | JBool _ | JNumber _ | JString _ =>
    if Str.includes (toLowerCase (leafToString node)) q
    then [{| path := path; kind := ValueMatch; preview := summarize node |}]
    else []
  end.

(** The first [maxMatches] elements. *)
Definition capped (maxMatches : N) (l : list Match) : list Match :=
  firstn (N.to_nat maxMatches) l.

(** The two loops of [allMatches] by name. *)
Definition itemsMatches `{Numbers} `{Unicode} (q path : jsstring) :
  list JsonValue -> N -> list Match :=
  fix each (items : list JsonValue) (i : N) {struct items} : list Match :=
    match items with
    | [] => []
    | x :: rest => allMatches q x (pathJoin path (Idx i)) ++ each rest (N.succ i)
    end.

Definition keyMatch `{Unicode} (q path k : jsstring) : list Match :=
  if Str.includes (toLowerCase k) q
  then [{| path := pathJoin path (Key k); kind := KeyMatch; preview := k |}]
  else [].

Definition fieldsMatches `{Numbers} `{Unicode} (q path : jsstring) :
  list (jsstring * JsonValue) -> list Match :=
  fix each (fields : list (jsstring * JsonValue)) {struct fields} : list Match :=
    match fields with
    | [] => []
    | (k, x) :: rest =>
      keyMatch q path k ++ allMatches q x (pathJoin path (Key k)) ++ each rest
    end.

End Search.

(** ** Parsing and re-serialising text *)

Module Parse.

(** [JSON.parse] (a value, or the SyntaxError it throws) and
    [JSON.stringify(value, null, indent)]. *)
Class JsonBuiltins `{Numbers} := {
  JSON_parse : jsstring -> JsonValue + JsError;
  JSON_stringify : JsonValue -> option nat -> jsstring;
}.

(** [{ok: true, value}] or [{ok: false, error}]. *)
Inductive Result (A : Type) : Type :=
| Ok (value : A)
| Err (error : jsstring).
Arguments Ok {A} value.
Arguments Err {A} error.

Section Parsing.
Context `{JsonBuiltins}.

Definition safeJsonParse (text : jsstring) : Result JsonValue :=
  if negb (Str.truthy (Str.trim text)) then Ok JNull
  else
    match JSON_parse text with
    | inl v => Ok v
    | inr e => Err (messageOr (js "Invalid JSON") e)
    end.

Definition formatJson (text : jsstring) : Result jsstring :=
  match safeJsonParse text with
  | Err e => Err e
  | Ok v => Ok (JSON_stringify v (Some 2%nat))
  end.

Definition minifyJson (text : jsstring) : Result jsstring :=
  match safeJsonParse text with
  | Err e => Err e
  | Ok v => Ok (JSON_stringify v None)
  end.

End Parsing.

(** Text that [trim] empties. *)
Definition whitespaceOnly (text : jsstring) : Prop :=
  Forall (fun c => Str.isWhiteSpace c = true) text.

End Parse.

(** ** [JSON.parse] and [JSON.stringify] (ECMA-262, ECMA-404) *)

Module Json.

Import Uri.

(** What the JSON object needs of the host's numbers: [Number.isFinite], the
    number a JSON number literal denotes, and the SyntaxError thrown for a
    text that is not JSON. *)
Class JsonHost `{Numbers} := {
  isFinite : number -> bool;
  StringToNumber : jsstring -> number;
  syntaxError : jsstring -> JsError;
}.

(** *** Number literals *)

Definition isDigit (c : N) : bool := (48 <=? c) && (c <=? 57).

(** The characters number literals are made of: digits, [+ - . e E]. *)
Definition isNumberChar (c : N) : bool :=
  isDigit c || (c =? 43) || (c =? 45) || (c =? 46) || (c =? 101) || (c =? 69).

Fixpoint dropDigits (s : jsstring) : jsstring :=
  match s with
  | [] => []
  | c :: rest => if isDigit c then dropDigits rest else s
  end.

(** One or more digits, then the rest. *)
Definition digits1 (s : jsstring) : option jsstring :=
  match s with
  | c :: rest => if isDigit c then Some (dropDigits rest) else None
  | [] => None
  end.

Definition minusPart (s : jsstring) : jsstring :=
  match s with
  | c :: rest => if c =? 45 then rest else s
  | [] => s
  end.

(** [0], or a digit from 1 to 9 and then digits. *)
Definition intPart (s : jsstring) : option jsstring :=
  match s with
  | c :: rest => if c =? 48 then Some rest else digits1 s
  | [] => None
  end.

Definition fracPart (s : jsstring) : option jsstring :=
  match s with
  | c :: rest => if c =? 46 then digits1 rest else Some s
  | [] => Some s
  end.

Definition signPart (s : jsstring) : jsstring :=
  match s with
  | c :: rest => if (c =? 43) || (c =? 45) then rest else s
  | [] => s
  end.

Definition expPart (s : jsstring) : option jsstring :=
  match s with
  | c :: rest => if (c =? 101) || (c =? 69) then digits1 (signPart rest) else Some s
  | [] => Some s
  end.

(** The text left after a number literal at the start of [s]. *)
Definition afterNumber (s : jsstring) : option jsstring :=
  match intPart (minusPart s) with
  | Some s1 =>
    match fracPart s1 with
    | Some s2 => expPart s2
    | None => None
    end
  | None => None
  end.

(** The whole of [s] is a JSON number literal. *)
Definition isNumberLiteral (s : jsstring) : bool :=
  match afterNumber s with
  | Some [] => true
  | _ => false
  end.

(** The longest run of number characters at the start of [s], and the rest. *)
Fixpoint numberRun (s : jsstring) : jsstring * jsstring :=
  match s with
  | [] => ([], [])
  | c :: rest =>
    if isNumberChar c then let (run, rest') := numberRun rest in (c :: run, rest')
    else ([], s)
  end.

(** [s] is some number characters and then [r]. *)
Definition consumes (s r : jsstring) : Prop :=
  exists cs, s = cs ++ r /\ Forall (fun c => isNumberChar c = true) cs.

(** The text after a value does not go on as a number. *)
Definition endsNumber (rest : jsstring) : Prop :=
  match rest with
  | [] => True
  | c :: _ => isNumberChar c = false
  end.

(** *** Strings *)

Definition hexLower (d : N) : N := if d <? 10 then 48 + d else 87 + d.

(** UnicodeEscape: a backslash, [u] and four lowercase hexadecimal digits. *)
Definition unicodeEscape (u : N) : jsstring :=
  [92; 117; hexLower (u / 4096); hexLower ((u / 256) mod 16);
   hexLower ((u / 16) mod 16); hexLower (u mod 16)].

(** A code unit of QuoteJSONString that is not part of a surrogate pair. *)
Definition quoteUnit (c : N) : jsstring :=
  if c =? 8 then [92; 98]
  else if c =? 9 then [92; 116]
  else if c =? 10 then [92; 110]
  else if c =? 12 then [92; 102]
  else if c =? 13 then [92; 114]
  else if c =? 34 then [92; 34]
  else if c =? 92 then [92; 92]
  else if (c <? 32) || isLeadingSurrogate c || isTrailingSurrogate c then unicodeEscape c
  else [c].

Fixpoint quoteChars (s : jsstring) : jsstring :=
  match s with
  | [] => []
  | c :: rest =>
    if isLeadingSurrogate c then
      match rest with
      | d :: rest' =>
        if isTrailingSurrogate d then c :: d :: quoteChars rest'
        else quoteUnit c ++ quoteChars rest
      | [] => quoteUnit c
      end
    else quoteUnit c ++ quoteChars rest
  end.

(** QuoteJSONString. *)
Definition quote (s : jsstring) : jsstring := [34] ++ quoteChars s ++ [34].

Definition hexValue (c : N) : option N :=
  if isDigit c then Some (c - 48)
  else if (97 <=? c) && (c <=? 102) then Some (c - 87)
  else if (65 <=? c) && (c <=? 70) then Some (c - 55)
  else None.

Definition hex4Value (h1 h2 h3 h4 : N) : option N :=
  match hexValue h1, hexValue h2, hexValue h3, hexValue h4 with
  | Some a, Some b, Some c, Some d => Some (a * 4096 + b * 256 + c * 16 + d)
  | _, _, _, _ => None
  end.

(** The character of a single-character escape. *)
Definition simpleEscape (e : N) : option N :=
  if e =? 34 then Some 34
  else if e =? 92 then Some 92
  else if e =? 47 then Some 47
  else if e =? 98 then Some 8
  else if e =? 102 then Some 12
  else if e =? 110 then Some 10
  else if e =? 114 then Some 13
  else if e =? 116 then Some 9
  else None.

(** The characters of a string literal after its opening quote: the string
    and the text after the closing quote. *)
Fixpoint parseChars (s : jsstring) : option (jsstring * jsstring) :=
  match s with
  | [] => None
  | c :: r =>
    if c =? 34 then Some ([], r)
    else if c =? 92 then
      match r with
      | [] => None
      | e :: r1 =>
        if e =? 117 then
          match r1 with
          | h1 :: h2 :: h3 :: h4 :: r2 =>
            match hex4Value h1 h2 h3 h4 with
            | Some u =>
              match parseChars r2 with
              | Some (str, r3) => Some (u :: str, r3)
              | None => None
              end
            | None => None
            end
          | _ => None
          end
        else
          match simpleEscape e with
          | Some u =>
            match parseChars r1 with
            | Some (str, r3) => Some (u :: str, r3)
            | None => None
            end
          | None => None
          end
      end
    else if c <? 32 then None
    else
      match parseChars r with
      | Some (str, r3) => Some (c :: str, r3)
      | None => None
      end
  end.

(** *** Property order

    The array index a key is, if it is one: the canonical decimal text of an
    integer below [2^32 - 1]. *)
(** ToString(ToNumber(key)) is [key], and the number is below [2^32 - 1]. *)
Definition arrayIndex (key : jsstring) : option N :=
  let i := N.of_uint (Pointer.uintOf key) in
  if (i <? 4294967295) && bool_decide (Pointer.indexToString i = key) then Some i else None.

Section Fields.
Context {A : Type}.

(** The value of an existing key is replaced where the key stands. *)
Fixpoint setField (key : jsstring) (value : A) (fields : list (jsstring * A))
  : option (list (jsstring * A)) :=
  match fields with
  | [] => None
  | (k, x) :: rest =>
    if bool_decide (k = key) then Some ((key, value) :: rest)
    else
      match setField key value rest with
      | Some rest' => Some ((k, x) :: rest')
      | None => None
      end
  end.

(** A new array index goes after the smaller indices and before everything else. *)
Fixpoint insertIndex (i : N) (key : jsstring) (value : A) (fields : list (jsstring * A))
  : list (jsstring * A) :=
  match fields with
  | [] => [(key, value)]
  | (k, x) :: rest =>
    match arrayIndex k with
    | Some j => if j <? i then (k, x) :: insertIndex i key value rest
                else (key, value) :: fields
    | None => (key, value) :: fields
    end
  end.

(** CreateDataProperty, with the fields kept in the order of [Object.keys]. *)
Definition defineField (key : jsstring) (value : A) (fields : list (jsstring * A))
  : list (jsstring * A) :=
  match setField key value fields with
  | Some fields' => fields'
  | None =>
    match arrayIndex key with
    | Some i => insertIndex i key value fields
    | None => fields ++ [(key, value)]
    end
  end.

End Fields.

(** [k1] may stand before [k2]: array indices in ascending order, then the
    other keys. *)
Definition keyBefore (k1 k2 : jsstring) : Prop :=
  match arrayIndex k1, arrayIndex k2 with
  | Some i, Some j => i < j
  | None, Some _ => False
  | _, None => True
  end.

(** Keys without repetition in the order of [Object.keys]. *)
Inductive ordered : list jsstring -> Prop :=
| ordered_nil : ordered []
| ordered_cons k ks :
    Forall (keyBefore k) ks -> k ∉ ks -> ordered ks -> ordered (k :: ks).

(** The fields defined one after the other, as the parser does. *)
Definition defineAll {A : Type} (entries acc : list (jsstring * A)) : list (jsstring * A) :=
  fold_left (fun acc kv => defineField (fst kv) (snd kv) acc) entries acc.

(** *** Parsing *)

Definition isJsonSpace (c : N) : bool := (c =? 32) || (c =? 9) || (c =? 10) || (c =? 13).

Fixpoint skipSpace (s : jsstring) : jsstring :=
  match s with
  | [] => []
  | c :: rest => if isJsonSpace c then skipSpace rest else s
  end.

Definition spaces (w : jsstring) : Prop := Forall (fun c => isJsonSpace c = true) w.

(** The first character of the text of a value. *)
Definition valueStart (c : N) : Prop :=
  c = 34 \/ c = 91 \/ c = 123 \/ c = 110 \/ c = 116 \/ c = 102 \/ c = 45 \/ isDigit c = true.

Section Parser.
Context `{JsonHost}.

Definition parseNumber (s : jsstring) : option (JsonValue * jsstring) :=
  let (run, rest) := numberRun s in
  if isNumberLiteral run then Some (JNumber (StringToNumber run), rest) else None.

Definition literal (word : jsstring) (v : JsonValue) (s : jsstring)
  : option (JsonValue * jsstring) :=
  if Str.startsWith s word then Some (v, Str.sliceFrom (length word) s) else None.

(** A value, the elements of an array after its bracket and the members of
    an object after its brace; [fuel] bounds the calls. *)
Fixpoint parseValue (fuel : nat) (s : jsstring) {struct fuel}
  : option (JsonValue * jsstring) :=
  match fuel with
  | O => None
  | S fuel =>
    match skipSpace s with
    | [] => None
    | c :: r =>
      if c =? 34 then
        match parseChars r with
        | Some (str, r') => Some (JString str, r')
        | None => None
        end
      else if c =? 91 then
        match skipSpace r with
        | [] => None
        | c' :: r' =>
          if c' =? 93 then Some (JArray [], r')
          else
            match parseElements fuel r with
            | Some (items, r'') => Some (JArray items, r'')
            | None => None
            end
        end
      else if c =? 123 then
        match skipSpace r with
        | [] => None
        | c' :: r' =>
          if c' =? 125 then Some (JObject [], r')
          else
            match parseMembers fuel r [] with
            | Some (fields, r'') => Some (JObject fields, r'')
            | None => None
            end
        end
      else if c =? 110 then literal (js "null") JNull (c :: r)
      else if c =? 116 then literal (js "true") (JBool true) (c :: r)
      else if c =? 102 then literal (js "false") (JBool false) (c :: r)
      else parseNumber (c :: r)
    end
  end
with parseElements (fuel : nat) (s : jsstring) {struct fuel}
  : option (list JsonValue * jsstring) :=
  match fuel with
  | O => None
  | S fuel =>
    match parseValue fuel s with
    | None => None
    | Some (v, r) =>
      match skipSpace r with
      | [] => None
      | c :: r' =>
        if c =? 44 then
          match parseElements fuel r' with
          | Some (items, r'') => Some (v :: items, r'')
          | None => None
          end
        else if c =? 93 then Some ([v], r')
        else None
      end
    end
  end
with parseMembers (fuel : nat) (s : jsstring) (fields : list (jsstring * JsonValue))
  {struct fuel} : option (list (jsstring * JsonValue) * jsstring) :=
  match fuel with
  | O => None
  | S fuel =>
    match skipSpace s with
    | [] => None
    | q :: r =>
      if q =? 34 then
        match parseChars r with
        | None => None
        | Some (key, r1) =>
          match skipSpace r1 with
          | [] => None
          | colon :: r2 =>
            if colon =? 58 then
              match parseValue fuel r2 with
              | None => None
              | Some (v, r3) =>
                let fields' := defineField key v fields in
                match skipSpace r3 with
                | [] => None
                | c :: r4 =>
                  if c =? 44 then parseMembers fuel r4 fields'
                  else if c =? 125 then Some (fields', r4)
                  else None
                end
              end
            else None
          end
        end
      else None
    end
  end.

(** [JSON.parse(text)]. *)
Definition parse (text : jsstring) : JsonValue + JsError :=
  match parseValue (S (length text)) text with
  | Some (v, rest) =>
    match skipSpace rest with
    | [] => inl v
    | _ => inr (syntaxError text)
    end
  | None => inr (syntaxError text)
  end.

(** *** Serialising *)

(** The text of an array or object from the texts of its elements or members. *)
Definition wrap (opening closing : N) (gap stepback indent : jsstring)
  (partial : list jsstring) : jsstring :=
  match partial with
  | [] => [opening; closing]
  | _ =>
    if Str.truthy gap then
      [opening; 10] ++ indent ++ Pointer.join ([44; 10] ++ indent) partial
      ++ [10] ++ stepback ++ [closing]
    else [opening] ++ Pointer.join [44] partial ++ [closing]
  end.

(** SerializeJSONProperty for a value [JSON.parse] gave. *)
Fixpoint serialize (gap indent : jsstring) (v : JsonValue) {struct v} : jsstring :=
  match v with
  | JNull => js "null"
  | JBool true => js "true"
  | JBool false => js "false"
  | JNumber n => if isFinite n then NumberToString n else js "null"
  | JString s => quote s
  | JArray items =>
    wrap 91 93 gap indent (indent ++ gap) (map (serialize gap (indent ++ gap)) items)
  | JObject fields =>
    wrap 123 125 gap indent (indent ++ gap)
      (map (fun kv =>
              quote (fst kv) ++ [58] ++ (if Str.truthy gap then [32] else [])
              ++ serialize gap (indent ++ gap) (snd kv)) fields)
  end.

(** The gap of [JSON.stringify(value, null, space)]: at most ten spaces. *)
Definition gapOf (space : option nat) : jsstring :=
  match space with
  | Some n => repeat 32 (Nat.min n 10)
  | None => []
  end.

Definition stringify (v : JsonValue) (space : option nat) : jsstring :=
  serialize (gapOf space) [] v.

(** *** What a value is read back as

    A finite number prints as a number literal that denotes a finite number
    with the same text. *)
Definition numberLaws : Prop :=
  forall n, isFinite n = true ->
    isNumberLiteral (NumberToString n) = true /\
    isFinite (StringToNumber (NumberToString n)) = true /\
    NumberToString (StringToNumber (NumberToString n)) = NumberToString n.

(** The value read back from the text of [v]. *)
Fixpoint reparsed (v : JsonValue) : JsonValue :=
  match v with
  | JNumber n => if isFinite n then JNumber (StringToNumber (NumberToString n)) else JNull
  | JArray items => JArray (map reparsed items)
  | JObject fields =>
    JObject (defineAll (map (fun kv => (fst kv, reparsed (snd kv))) fields) [])
  | _ => v
  end.

(** The calls of the parser on the text of [v] are at most this many deep. *)
Fixpoint weight (v : JsonValue) : nat :=
  match v with
  | JArray items => S (list_sum (map (fun x => S (weight x)) items))
  | JObject fields => S (list_sum (map (fun kv => S (weight (snd kv))) fields))
  | _ => 1
  end.

(** Every object of the value has its keys in the order of [Object.keys]. *)
Fixpoint normal (v : JsonValue) : Prop :=
  match v with
  | JArray items => fold_right (fun x P => normal x /\ P) True items
  | JObject fields =>
    ordered (map fst fields) /\ fold_right (fun kv P => normal (snd kv) /\ P) True fields
  | _ => True
  end.

(** The parser reads the text of [v] back, for any layout around it. *)
Definition readsBack (v : JsonValue) : Prop :=
  forall gap indent w rest fuel,
    spaces gap -> spaces indent -> spaces w -> endsNumber rest -> (weight v <= fuel)%nat ->
    parseValue fuel (w ++ serialize gap indent v ++ rest) = Some (reparsed v, rest).

(** The weight of the elements of an array and of the fields of an object. *)
Definition weightOfItems (items : list JsonValue) : nat :=
  list_sum (map (fun x => S (weight x)) items).

(** The text of a member. *)
Definition member (gap indent : jsstring) (kv : jsstring * JsonValue) : jsstring :=
  quote (fst kv) ++ [58] ++ (if Str.truthy gap then [32] else [])
  ++ serialize gap indent (snd kv).

Definition reparsedField (kv : jsstring * JsonValue) : jsstring * JsonValue :=
  (fst kv, reparsed (snd kv)).

Definition weightOfFields (fields : list (jsstring * JsonValue)) : nat :=
  list_sum (map (fun kv => S (weight (snd kv))) fields).

End Parser.

End Json.

(** The JSON object as the built-ins of the program. *)
Definition ecmaJson `{Json.JsonHost} : Parse.JsonBuiltins :=
  {| Parse.JSON_parse := Json.parse; Parse.JSON_stringify := Json.stringify |}.

(** ** The share link *)

Module Share.

(** lz-string's [compressToEncodedURIComponent] and
    [decompressFromEncodedURIComponent]; [None] is its [null]. *)
Class Codec := {
  compressToEncodedURIComponent : jsstring -> jsstring;
  decompressFromEncodedURIComponent : jsstring -> option jsstring;
}.

Definition HASH_PREFIX : jsstring := js "j=".

Section ShareLink.
Context `{Codec}.



(** The branch on the hash of the load effect: the text passed to [setRaw]. *)
Definition fromHash (hash : jsstring) : option jsstring :=
  let hash := if Str.startsWith hash (js "#") then Str.sliceFrom 1 hash else hash in
  if Str.startsWith hash HASH_PREFIX then
    let payload := Str.sliceFrom (length HASH_PREFIX) hash in
    match decompressFromEncodedURIComponent payload with
    | Some decompressed => if Str.truthy decompressed then Some decompressed else None
    | None => None
    end
  else None.

(** The load effect: [raw] after it, from the hash, the saved text
    ([localStorage.getItem]) and [raw] before it. *)
Definition loadRaw (hash : jsstring) (saved : option jsstring) (raw : jsstring) : jsstring :=
  match fromHash hash with
  | Some decompressed => decompressed
  | None =>
    match saved with
    | Some text => if Str.truthy text then text else raw
    | None => raw
    end
  end.

End ShareLink.

End Share.

(** ** The remote-fetch route *)

Module Proxy.

(** What the handler reads of [new URL(url)]. *)
Record URL : Type := { protocol : jsstring; href : jsstring }.

(** [new URL(url)]; [None] is the TypeError it throws. *)
Class UrlParser := { parseURL : jsstring -> option URL }.

Inductive Body : Type :=
| ErrorBody (error : jsstring)
| TextBody (text : jsstring).

Record Response : Type := { status : N; body : Body }.

(** The upstream response: [res.ok], [res.status] and the result of
    [res.text()]. *)
Record Upstream : Type := {
  ok : bool;
  upstreamStatus : N;
  readText : jsstring + JsError;
}.

(** [await fetch(...)]: rejected (also when the timeout aborts it) or fulfilled. *)
Inductive FetchOutcome : Type :=
| Rejected (e : JsError)
| Fulfilled (res : Upstream).

(** A run of the handler: it responds, or fetches and goes on with the outcome. *)
Inductive Handler : Type :=
| Respond (r : Response)
| Fetch (target : jsstring) (next : FetchOutcome -> Handler).

Definition json (status : N) (body : Body) : Handler :=
  Respond {| status := status; body := body |}.

Definition upstreamError (status : N) : jsstring :=
  js "Upstream error: " ++ indexToString status.

(** [GET]; [url] is [searchParams.get('url')]. *)
Definition GET `{UrlParser} (url : option jsstring) : Handler :=
  match url with
  | None => json 400 (ErrorBody (js "Missing url"))
  | Some url =>
    if negb (Str.truthy url) then json 400 (ErrorBody (js "Missing url"))
    else
      match parseURL url with
      | None => json 400 (ErrorBody (js "Invalid url"))
      | Some parsed =>
        if negb (bool_decide (protocol parsed = js "https:")) then
          json 400 (ErrorBody (js "Only https URLs are allowed"))
        else
          Fetch (href parsed) (fun outcome =>
            match outcome with
            | Rejected e => json 502 (ErrorBody (messageOr (js "Fetch failed") e))
            | Fulfilled res =>
              if negb (ok res) then json 502 (ErrorBody (upstreamError (upstreamStatus res)))
              else
                match readText res with
                | inr e => json 502 (ErrorBody (messageOr (js "Fetch failed") e))
                | inl text =>
                  if (2000000 <? N.of_nat (length text)) then
                    json 413 (ErrorBody (js "Response too large (>2MB)"))
                  else json 200 (TextBody text)
                end
            end)
      end
  end.

(** The request is refused: no [url], an empty one, one that does not parse,
    or one whose scheme is not https. *)
Definition refused `{UrlParser} (url : option jsstring) : Prop :=
  match url with
  | None => True
  | Some u =>
    u = [] \/
    match parseURL u with
    | None => True
    | Some parsed => protocol parsed <> js "https:"
    end
  end.

(** The upstream requests of a run, given what each fetch comes back with. *)
Fixpoint fetches (h : Handler) (oracle : jsstring -> FetchOutcome) : list jsstring :=
  match h with
  | Respond _ => []
  | Fetch target next => target :: fetches (next (oracle target)) oracle
  end.

Fixpoint response (h : Handler) (oracle : jsstring -> FetchOutcome) : Response :=
  match h with
  | Respond r => r
  | Fetch target next => response (next (oracle target)) oracle
  end.

End Proxy.

(** ** Hosts for closed examples

    Integers as the numbers (those of magnitude below [10^21] print in JavaScript
    as their decimal digits) and lower-casing of ASCII letters. *)

Definition integerToString (z : Z) : jsstring :=
  if (z <? 0)%Z then js "-" ++ indexToString (Z.abs_N z) else indexToString (Z.to_N z).

Definition integerNumbers : Numbers :=
  {| number := Z; NumberToString := integerToString |}.

Definition asciiLower (c : N) : N :=
  if (65 <=? c) && (c <=? 90) then c + 32 else c.

Definition asciiUnicode : Unicode := {| toLowerCase := map asciiLower |}.


(** A URL parser that reads the scheme only: an ASCII letter, then letters,
    digits, [+], [-] and [.] up to the first colon, lower-cased; any other
    text has no scheme and is not an absolute URL. *)
Definition schemeChar (c : N) : bool :=
  ((65 <=? c) && (c <=? 90)) || ((97 <=? c) && (c <=? 122))
  || ((48 <=? c) && (c <=? 57)) || (c =? 43) || (c =? 45) || (c =? 46).

Fixpoint schemeOf (url scheme : jsstring) : option jsstring :=
  match url with
  | [] => None
  | c :: rest =>
    if c =? 58 then Some (rev scheme)
    else if schemeChar c then schemeOf rest (asciiLower c :: scheme)
    else None
  end.

Definition schemeParser : Proxy.UrlParser :=
  {| Proxy.parseURL := fun url =>
       match url with
       | c :: _ =>
         if Search.identStart c && negb (c =? 95) && negb (c =? 36) then
           match schemeOf url [] with
           | Some scheme => Some {| Proxy.protocol := scheme ++ js ":"; Proxy.href := url |}
           | None => None
           end
         else None
       | [] => None
       end |}.

Module Examples.

(** The integer a literal of digits with an optional minus sign denotes. *)
Definition integerOfString (s : jsstring) : Z :=
  match s with
  | [] => 0%Z
  | c :: r =>
    if c =? 45 then Z.opp (Z.of_N (N.of_uint (Pointer.uintOf r)))
    else Z.of_N (N.of_uint (Pointer.uintOf s))
  end.

Definition integerHost : @Json.JsonHost integerNumbers :=
  @Json.Build_JsonHost integerNumbers (fun _ => true) integerOfString
    (fun _ => {| message := Some (js "Unexpected token") |}).

(** An ASCII literal in which ['] stands for the double quote. *)
Definition jsq (s : string) : jsstring :=
  map (fun c => if c =? 39 then 34 else c) (js s).

Definition text1 : jsstring := jsq "{ 'b': [1, 2, {}], '10': 'xA\n\u00e9', '2': null, 'b': -5 }".

Definition builtins := @ecmaJson integerNumbers integerHost.

(** [{"a": {"bob": 1}, "list": [1, 2, "bob"]}]. *)
Definition bobDocument : @JsonValue integerNumbers :=
  let num := @JNumber integerNumbers in
  JObject [
    (js "a", JObject [(js "bob", num 1%Z)]);
    (js "list", JArray [num 1%Z; num 2%Z; JString (js "bob")])
  ].

(** An object with the [n] keys [k0], [k1], ... *)
Definition manyKeys (n : nat) : @JsonValue integerNumbers :=
  JObject (map (fun i => (js "k" ++ indexToString (N.of_nat i), JNull)) (seq 0 n)).

End Examples.

(** ** The paths of matches *)

Module Paths.

Import Search.

(** Every double quote of the text stands after a backslash. *)
Definition quotesEscaped (e : jsstring) : Prop :=
  (forall b, e <> 34 :: b) /\ (forall a c b, e = a ++ c :: 34 :: b -> c = 92).

(** The last code units of a path: an identifier ends in one of its
    characters, an index in a digit and a bracket, an escaped key in a quote
    and a bracket. *)
Inductive pathEnd : jsstring -> Seg -> Prop :=
| end_identifier body c k :
    isIdentifier k = true -> identPart c = true -> pathEnd (body ++ [c]) (Key k)
| end_index body d i : Json.isDigit d = true -> pathEnd (body ++ [d; 93]) (Idx i)
| end_quoted body k : isIdentifier k = false -> pathEnd (body ++ [34; 93]) (Key k).

(** Where a match is: its path and its kind. *)
Definition place (m : Match) : jsstring * Kind := (path m, kind m).

(** The path of a match below [parent] is [parent] and then keys; a match at
    [parent] itself is a value match. *)
Definition below (parent : jsstring) (m : Match) : Prop :=
  exists segs, path m = fold_left pathJoin segs parent /\ (segs = [] -> kind m = ValueMatch).

(** The path of [m] goes from [parent] through [key]. *)
Definition through (parent : jsstring) (key : Seg) (m : Match) : Prop :=
  exists segs, path m = fold_left pathJoin (key :: segs) parent.

End Paths.

(** ** The tree view: [collapseKeysEverywhere] *)

Module Collapse.

Section CollapseKeys.
Context `{Numbers}.
Variable keysToCollapse : gset jsstring.

(** [out[k] = v] on an object made by an object literal, as the own fields
    of [out].  For the key [__proto__] the assignment runs the setter
    inherited from [Object.prototype], which defines no own property. *)
Definition assign (k : jsstring) (v : JsonValue) (out : list (jsstring * JsonValue))
  : list (jsstring * JsonValue) :=
  if bool_decide (k = js "__proto__") then out else Json.defineField k v out.

(** [keyCount] of [wrap]: the number of keys of an object, [0] for any other value. *)
Definition keyCount (v : JsonValue) : nat :=
  match v with
  | JObject fields => length fields
  | _ => 0%nat
  end.

Definition previewText (k : jsstring) (count : nat) : jsstring :=
  k ++ js " (" ++ Search.lengthToString count ++ js " keys)".

Definition wrap (k : jsstring) (v : JsonValue) : JsonValue :=
  JObject [(js "preview", JString (previewText k (keyCount v))); (js "value", v)].

Fixpoint visit (node : JsonValue) {struct node} : JsonValue :=
  match node with
  | JArray items => JArray (map visit items)
  | JObject fields =>
    JObject
      ((fix each (fields : list (jsstring * JsonValue)) (out : list (jsstring * JsonValue))
          {struct fields} : list (jsstring * JsonValue) :=
          match fields with
          | [] => out
          | (k, v) :: rest =>
            each rest
              (assign k
                 (if bool_decide (k ∈ keysToCollapse) && Expand.isExpandable v
                  then wrap k (visit v) else visit v)
                 out)
          end) fields [])
  | _ => node
  end.

(** What [visit] puts under the key [k] for the value [v]. *)
Definition entry (k : jsstring) (v : JsonValue) : JsonValue :=
  if bool_decide (k ∈ keysToCollapse) && Expand.isExpandable v
  then wrap k (visit v) else visit v.

(** The loop of [visit] over the entries of an object, by name. *)
Definition entries : list (jsstring * JsonValue) -> list (jsstring * JsonValue)
                     -> list (jsstring * JsonValue) :=
  fix each (fields : list (jsstring * JsonValue)) (out : list (jsstring * JsonValue))
    {struct fields} : list (jsstring * JsonValue) :=
    match fields with
    | [] => out
    | (k, v) :: rest => each rest (assign k (entry k v) out)
    end.

(** No object of the value has a key the pass collapses with an object or an
    array under it, nor the key [__proto__]. *)
Fixpoint plain (v : JsonValue) : Prop :=
  match v with
  | JArray items => fold_right (fun x P => plain x /\ P) True items
  | JObject fields =>
    fold_right
      (fun kv P =>
         (fst kv <> js "__proto__" /\
          (fst kv ∈ keysToCollapse -> Expand.isExpandable (snd kv) = false) /\
          plain (snd kv)) /\ P)
      True fields
  | _ => True
  end.

End CollapseKeys.

Definition collapseKeysEverywhere `{Numbers} (root : JsonValue) (keysToCollapse : gset jsstring)
  : JsonValue :=
  visit keysToCollapse root.

(** No object of the value has the own key [key]. *)
Fixpoint withoutKey `{Numbers} (key : jsstring) (v : JsonValue) : Prop :=
  match v with
  | JArray items => fold_right (fun x P => withoutKey key x /\ P) True items
  | JObject fields =>
    fold_right (fun kv P => (fst kv <> key /\ withoutKey key (snd kv)) /\ P) True fields
  | _ => True
  end.

(** [{"id": 7, "meta": {"a": 1, "b": [2]}, "rows": [{"meta": [1, 2], "x": null}]}]. *)
Definition metaDocument : @JsonValue integerNumbers :=
  let num := @JNumber integerNumbers in
  JObject [
    (js "id", num 7%Z);
    (js "meta", JObject [(js "a", num 1%Z); (js "b", JArray [num 2%Z])]);
    (js "rows", JArray [JObject [(js "meta", JArray [num 1%Z; num 2%Z]); (js "x", JNull)]])
  ].

End Collapse.

(** ** The page: what it derives from the text and what its buttons do *)

Module Page.

Import Parse.

(** [parsed.value ?? {}]. *)
Definition orEmptyObject `{Numbers} (value : JsonValue) : JsonValue :=
  match value with
  | JNull => JObject []
  | _ => value
  end.

(** The [matches] memo. *)
Definition matches `{Numbers} `{Unicode} (parsed : Result JsonValue) (search : jsstring)
  : list Search.Match :=
  match parsed with
  | Err _ => []
  | Ok value =>
    if (length (Str.trim search) <? 2)%nat then []
    else Search.findMatches (orEmptyObject value) search 200
  end.

(** The [displayJson] memo; [None] is its [null]. *)
Definition displayJson `{Numbers} (parsed : Result JsonValue) : option JsonValue :=
  match parsed with
  | Err _ => None
  | Ok value => Some (Collapse.collapseKeysEverywhere (orEmptyObject value) {[js "meta"]})
  end.

(** The auto-format effect: [raw] after it. *)
Definition autoFormatEffect `{JsonBuiltins} (autoFormat : bool) (raw : jsstring) : jsstring :=
  if negb autoFormat then raw
  else
    match safeJsonParse raw with
    | Err _ => raw
    | Ok value =>
      if Str.includes raw [10] && Str.includes raw [32; 32] then raw
      else
        let pretty := JSON_stringify value (Some 2%nat) in
        if bool_decide (pretty <> raw) then pretty else raw
    end.

(** What the Format and Minify buttons change: the text, the key that
    remounts the viewer and the toast. *)
Record View : Type := { raw : jsstring; viewerKey : N; toast : jsstring }.

Definition doFormat `{JsonBuiltins} (view : View) : View :=
  match formatJson (raw view) with
  | Err error =>
    {| raw := raw view; viewerKey := viewerKey view; toast := js "Invalid JSON: " ++ error |}
  | Ok value => {| raw := value; viewerKey := viewerKey view + 1; toast := js "Formatted" |}
  end.

Definition doMinify `{JsonBuiltins} (view : View) : View :=
  match minifyJson (raw view) with
  | Err error =>
    {| raw := raw view; viewerKey := viewerKey view; toast := js "Invalid JSON: " ++ error |}
  | Ok value => {| raw := value; viewerKey := viewerKey view + 1; toast := js "Minified" |}
  end.

(** *** The theme and the saved text in [localStorage] *)

Definition LS_JSON_KEY : jsstring := js "mercor_json_viewer_last".
Definition LS_THEME_KEY : jsstring := js "mercor_json_viewer_theme".

(** [window.localStorage]: [getItem] is the lookup, [setItem] the insertion. *)
Abbreviation Storage := (gmap jsstring jsstring).

Inductive Theme : Type := Dark | Light.

(** The text of a theme. *)
Definition themeName (theme : Theme) : jsstring :=
  match theme with
  | Dark => js "dark"
  | Light => js "light"
  end.

(** The effect that loads the theme. *)
Definition loadTheme (storage : Storage) : Theme :=
  match storage !! LS_THEME_KEY with
  | Some saved => if bool_decide (saved = js "light") then Light else Dark
  | None => Dark
  end.

(** The effects that persist the theme and the text. *)
Definition persistTheme (theme : Theme) (storage : Storage) : Storage :=
  <[LS_THEME_KEY := themeName theme]> storage.

Definition persistJson (raw : jsstring) (storage : Storage) : Storage :=
  <[LS_JSON_KEY := raw]> storage.

Definition toggleTheme (theme : Theme) : Theme :=
  match theme with
  | Dark => Light
  | Light => Dark
  end.

(** The effect that loads the text, with the saved text read from the storage. *)
Definition loadJson `{Share.Codec} (hash : jsstring) (storage : Storage) (raw : jsstring)
  : jsstring :=
  Share.loadRaw hash (storage !! LS_JSON_KEY) raw.

End Page.

(** ** The form view: what [FormViewer] renders *)

Module Form.

Import Expand.

Definition countLabel `{Numbers} (v : JsonValue) : jsstring :=
  match v with
  | JArray items => js "[" ++ Search.lengthToString (length items) ++ js "]"
  | JObject fields => js "{" ++ Search.lengthToString (length fields) ++ js "}"
  | _ => []
  end.

Definition summarizeValue `{Numbers} (v : JsonValue) : jsstring :=
  match v with
  | JNull => js "null"
  | JString s =>
    if (160 <? length s)%nat then Str.sliceTo 160 s ++ [0x2026] else s
  | JNumber _ | JBool _ => Search.leafToString v
  | JArray _ => js "Array " ++ countLabel v
  | JObject _ => js "Object " ++ countLabel v
  end.

(** The label of a key: [[i]] for an index, the text of a text key. *)
Definition segLabel (seg : Seg) : jsstring :=
  match seg with
  | Idx i => js "[" ++ indexToString i ++ js "]"
  | Key k => k
  end.

Definition rootTypeLabel `{Numbers} (value : JsonValue) : jsstring :=
  match value with
  | JNull => js "null"
  | JArray _ => js "array " ++ countLabel value
  | _ => js "object " ++ countLabel value
  end.

(** One row of [renderNode]: the path of the child, its pointer (the row's
    key and title), the label, whether it has a caret and whether it is open,
    whether it is highlighted as the selection, the count beside the label,
    the summary and the depth. *)
Record Row : Type := {
  rowSegs : list Seg;
  rowPointer : jsstring;
  rowLabel : jsstring;
  rowExpandable : bool;
  rowOpen : bool;
  rowSelected : bool;
  rowCount : option jsstring;
  rowValue : jsstring;
  rowDepth : nat;
}.

Section Render.
Context `{Numbers}.
Variable expanded : gset jsstring.
Variable selectedPointer : jsstring.

Definition rowOf (child : JsonValue) (childSegs : list Seg) (k : Seg) (p : jsstring)
  (depth : nat) : Row :=
  {| rowSegs := childSegs;
     rowPointer := p;
     rowLabel := segLabel k;
     rowExpandable := isExpandable child;
     rowOpen := bool_decide (p ∈ expanded);
     rowSelected := bool_decide (selectedPointer = p);
     rowCount := if isExpandable child then Some (countLabel child) else None;
     rowValue := summarizeValue child;
     rowDepth := depth |}.

(** [renderNode]: the rows in the order they are rendered, the rows of an
    open child after the child's; [None] is the URIError of
    [pointerFromSegments]. *)
Fixpoint renderNode (node : JsonValue) (segs : list Seg) (depth : nat) {struct node}
  : option (list Row) :=
  match node with
  | JArray items =>
    (fix each (items : list JsonValue) (i : N) {struct items} : option (list Row) :=
       match items with
       | [] => Some []
       | child :: rest =>
         match pointerFromSegments (segs ++ [Idx i]) with
         | None => None
         | Some p =>
           match (if isExpandable child && bool_decide (p ∈ expanded)
                  then renderNode child (segs ++ [Idx i]) (S depth) else Some []) with
           | None => None
           | Some inner =>
             match each rest (N.succ i) with
             | None => None
             | Some others =>
               Some (rowOf child (segs ++ [Idx i]) (Idx i) p depth :: inner ++ others)
             end
           end
         end
       end) items 0
  | JObject fields =>
    (fix each (fields : list (jsstring * JsonValue)) {struct fields} : option (list Row) :=
       match fields with
       | [] => Some []
       | (k, child) :: rest =>
         match pointerFromSegments (segs ++ [Key k]) with
         | None => None
         | Some p =>
           match (if isExpandable child && bool_decide (p ∈ expanded)
                  then renderNode child (segs ++ [Key k]) (S depth) else Some []) with
           | None => None
           | Some inner =>
             match each rest with
             | None => None
             | Some others =>
               Some (rowOf child (segs ++ [Key k]) (Key k) p depth :: inner ++ others)
             end
           end
         end
       end) fields
  | _ => Some []
  end.

(** The rows under an open child. *)
Definition inner (child : JsonValue) (childSegs : list Seg) (p : jsstring) (depth : nat)
  : option (list Row) :=
  if isExpandable child && bool_decide (p ∈ expanded)
  then renderNode child childSegs (S depth) else Some [].

(** The two loops of [renderNode] by name. *)
Definition renderItems (segs : list Seg) (depth : nat) : list JsonValue -> N -> option (list Row) :=
  fix each (items : list JsonValue) (i : N) {struct items} : option (list Row) :=
    match items with
    | [] => Some []
    | child :: rest =>
      match pointerFromSegments (segs ++ [Idx i]) with
      | None => None
      | Some p =>
        match inner child (segs ++ [Idx i]) p depth with
        | None => None
        | Some below =>
          match each rest (N.succ i) with
          | None => None
          | Some others =>
            Some (rowOf child (segs ++ [Idx i]) (Idx i) p depth :: below ++ others)
          end
        end
      end
    end.

Definition renderFields (segs : list Seg) (depth : nat)
  : list (jsstring * JsonValue) -> option (list Row) :=
  fix each (fields : list (jsstring * JsonValue)) {struct fields} : option (list Row) :=
    match fields with
    | [] => Some []
    | (k, child) :: rest =>
      match pointerFromSegments (segs ++ [Key k]) with
      | None => None
      | Some p =>
        match inner child (segs ++ [Key k]) p depth with
        | None => None
        | Some below =>
          match each rest with
          | None => None
          | Some others =>
            Some (rowOf child (segs ++ [Key k]) (Key k) p depth :: below ++ others)
          end
        end
      end
    end.

End Render.

(** The state of [FormViewer]. *)
Record FormState : Type := { expanded : gset jsstring; selected : list Seg }.

Definition initialState : FormState := {| expanded := initialExpanded; selected := [] |}.

(** The rows [FormViewer] renders for [value]: none when the root is closed. *)
Definition rows `{Numbers} (value : JsonValue) (state : FormState) : option (list Row) :=
  match pointerFromSegments (selected state) with
  | None => None
  | Some selectedPointer =>
    if bool_decide (rootPointer ∈ expanded state)
    then renderNode (expanded state) selectedPointer value [] 0
    else Some []
  end.

(** [onSelect]; [None] when [ensureOpen] throws. *)
Definition onSelect (segs : list Seg) (state : FormState) : option FormState :=
  match ensureOpen segs (expanded state) with
  | None => None
  | Some next => Some {| expanded := next; selected := segs |}
  end.

(** The handlers of the carets and of the two buttons, on the state. *)
Definition onToggle (segs : list Seg) (state : FormState) : option FormState :=
  match toggle segs (expanded state) with
  | None => None
  | Some next => Some {| expanded := next; selected := selected state |}
  end.

Definition onExpandAll `{Numbers} (value : JsonValue) (state : FormState) : option FormState :=
  match expandAll value with
  | None => None
  | Some (next, _) => Some {| expanded := next; selected := selected state |}
  end.

Definition onCollapseAll (state : FormState) : FormState :=
  {| expanded := collapseAll; selected := selected state |}.

(** One part of the breadcrumb. *)
Record Crumb : Type := { crumbLabel : jsstring; crumbSegs : list Seg }.

Definition breadcrumbParts (selected : list Seg) : list Crumb :=
  {| crumbLabel := js "object"; crumbSegs := [] |} ::
  imap (fun idx seg => {| crumbLabel := segLabel seg; crumbSegs := firstn (idx + 1) selected |})
       selected.

(** [node[key]]: the element at an index of an array, the value of a key of
    an object. *)
Fixpoint fieldOf `{Numbers} (k : jsstring) (fields : list (jsstring * JsonValue))
  : option JsonValue :=
  match fields with
  | [] => None
  | (k', x) :: rest => if bool_decide (k' = k) then Some x else fieldOf k rest
  end.

Definition childAt `{Numbers} (node : JsonValue) (seg : Seg) : option JsonValue :=
  match node, seg with
  | JArray items, Idx i => items !! N.to_nat i
  | JObject fields, Key k => fieldOf k fields
  | _, _ => None
  end.

(** The value at a path of the document. *)
Fixpoint valueAt `{Numbers} (node : JsonValue) (segs : list Seg) : option JsonValue :=
  match segs with
  | [] => Some node
  | seg :: rest =>
    match childAt node seg with
    | Some child => valueAt child rest
    | None => None
    end
  end.

(** No text key of the document has an unpaired surrogate. *)
Fixpoint keysWellFormed `{Numbers} (v : JsonValue) : Prop :=
  match v with
  | JArray items => fold_right (fun x P => keysWellFormed x /\ P) True items
  | JObject fields =>
    fold_right (fun kv P => (Uri.isWellFormed (fst kv) = true /\ keysWellFormed (snd kv)) /\ P)
               True fields
  | _ => True
  end.

(** [{"": {"x": 1}, "a": [2]}]. *)
Definition emptyKeyDocument : @JsonValue integerNumbers :=
  let num := @JNumber integerNumbers in
  JObject [([], JObject [(js "x", num 1%Z)]); (js "a", JArray [num 2%Z])].

End Form.

(** ** Load from URL: from the page to the route

    [loadFromUrl] fetches [/api/fetch?url=] followed by
    [encodeURIComponent(urlToLoad.trim())]; the route reads
    [searchParams.get('url')].  Between the two stand the URL parser of
    [fetch] (WHATWG URL, query state) and the parser of [URLSearchParams]
    (application/x-www-form-urlencoded, UTF-8 decode). *)

Module Transport.

Import Uri.

(** The scalar values of a string given to [fetch]: a surrogate pair is one
    code point, an unpaired surrogate becomes U+FFFD. *)
Fixpoint scalarValues (s : jsstring) : list N :=
  match s with
  | [] => []
  | c :: rest =>
    if isLeadingSurrogate c then
      match rest with
      | d :: rest' =>
        if isTrailingSurrogate d then surrogatePair c d :: scalarValues rest'
        else 0xFFFD :: scalarValues rest
      | [] => [0xFFFD]
      end
    else if isTrailingSurrogate c then 0xFFFD :: scalarValues rest
    else c :: scalarValues rest
  end.

Definition isTabOrNewline (c : N) : bool := (c =? 9) || (c =? 10) || (c =? 13).

Definition isC0ControlOrSpace (c : N) : bool := c <=? 0x20.

(** The special-query percent-encode set: C0 controls, space, the code
    points above [~], the double quote, [#], the single quote, [<] and [>]. *)
Definition inSpecialQuerySet (c : N) : bool :=
  (c <=? 0x20) || (0x7E <? c)
  || (c =? 0x22) || (c =? 0x23) || (c =? 0x27) || (c =? 0x3C) || (c =? 0x3E).

(** A byte in the query: percent-encoded when it is in the set. *)
Definition encodeByte (b : N) : jsstring :=
  if inSpecialQuerySet b then percentOctet b else [b].

(** Percent-encode after encoding, with UTF-8. *)
Definition queryEncode (cps : list N) : jsstring :=
  flat_map (fun cp => flat_map encodeByte (utf8 cp)) cps.

Fixpoint dropLeading (cps : list N) : list N :=
  match cps with
  | [] => []
  | c :: rest => if isC0ControlOrSpace c then dropLeading rest else cps
  end.

Fixpoint upTo (mark : N) (cps : list N) : list N :=
  match cps with
  | [] => []
  | c :: rest => if c =? mark then [] else c :: upTo mark rest
  end.

(** The query of the URL [fetch] requests for [/api/fetch?] followed by [q]:
    trailing C0 controls and spaces are dropped, then tabs and newlines; the
    query ends before the first [#]. *)
Definition requestQuery (q : jsstring) : jsstring :=
  let cps := rev (dropLeading (rev (scalarValues q))) in
  let cps := List.filter (fun c => negb (isTabOrNewline c)) cps in
  queryEncode (upTo 0x23 cps).

(** Percent-decode, on bytes. *)
Fixpoint percentDecode (bytes : list N) : list N :=
  match bytes with
  | [] => []
  | b :: rest =>
    if b =? 37 then
      match rest with
      | h1 :: h2 :: rest' =>
        match Json.hexValue h1, Json.hexValue h2 with
        | Some hi, Some lo => (hi * 16 + lo) :: percentDecode rest'
        | _, _ => b :: percentDecode rest
        end
      | _ => b :: percentDecode rest
      end
    else b :: percentDecode rest
  end.

(** The state of the UTF-8 decoder inside a sequence. *)
Record Pending : Type := {
  codePoint : N;
  bytesSeen : N;
  bytesNeeded : N;
  lowerBoundary : N;
  upperBoundary : N;
}.

(** What the decoder does with a byte when it is not inside a sequence. *)
Inductive Lead : Type :=
| Emit (cp : N)
| Begin (pending : Pending)
| Invalid.

Definition lead (b : N) : Lead :=
  if b <=? 0x7F then Emit b
  else if (0xC2 <=? b) && (b <=? 0xDF) then
    Begin {| codePoint := b mod 32; bytesSeen := 0; bytesNeeded := 1;
             lowerBoundary := 0x80; upperBoundary := 0xBF |}
  else if (0xE0 <=? b) && (b <=? 0xEF) then
    Begin {| codePoint := b mod 16; bytesSeen := 0; bytesNeeded := 2;
             lowerBoundary := if b =? 0xE0 then 0xA0 else 0x80;
             upperBoundary := if b =? 0xED then 0x9F else 0xBF |}
  else if (0xF0 <=? b) && (b <=? 0xF4) then
    Begin {| codePoint := b mod 8; bytesSeen := 0; bytesNeeded := 3;
             lowerBoundary := if b =? 0xF0 then 0x90 else 0x80;
             upperBoundary := if b =? 0xF4 then 0x8F else 0xBF |}
  else Invalid.

(** UTF-8 decode: the code points of a byte sequence, U+FFFD for every
    error. *)
Fixpoint utf8Decode (bytes : list N) (pending : option Pending) : list N :=
  match bytes with
  | [] =>
    match pending with
    | None => []
    | Some _ => [0xFFFD]
    end
  | b :: rest =>
    let fresh :=
      match lead b with
      | Emit cp => cp :: utf8Decode rest None
      | Begin p => utf8Decode rest (Some p)
      | Invalid => 0xFFFD :: utf8Decode rest None
      end in
    match pending with
    | None => fresh
    | Some p =>
      if (lowerBoundary p <=? b) && (b <=? upperBoundary p) then
        let cp := codePoint p * 64 + b mod 64 in
        if bytesSeen p + 1 =? bytesNeeded p then cp :: utf8Decode rest None
        else
          utf8Decode rest
            (Some {| codePoint := cp; bytesSeen := bytesSeen p + 1;
                     bytesNeeded := bytesNeeded p;
                     lowerBoundary := 0x80; upperBoundary := 0xBF |})
      else 0xFFFD :: fresh
    end
  end.

Definition plusToSpace (b : N) : N := if b =? 0x2B then 0x20 else b.

(** The string of a component: [+] is a space, then percent-decode and
    UTF-8 decode. *)
Definition decodeComponent (bytes : list N) : jsstring :=
  flat_map unitsOf (utf8Decode (percentDecode (map plusToSpace bytes)) None).

(** [bytes] split at every [sep]. *)
Fixpoint splitOn (sep : N) (bytes : list N) : list (list N) :=
  match bytes with
  | [] => [[]]
  | b :: rest =>
    match splitOn sep rest with
    | first :: others => if b =? sep then [] :: first :: others else (b :: first) :: others
    | [] => if b =? sep then [[]; []] else [[b]]
    end
  end.

(** The name and the value of a sequence: before and after its first [=]. *)
Fixpoint nameValue (bytes : list N) : list N * list N :=
  match bytes with
  | [] => ([], [])
  | b :: rest =>
    if b =? 0x3D then ([], rest)
    else let (name, value) := nameValue rest in (b :: name, value)
  end.

(** The application/x-www-form-urlencoded parser. *)
Definition parseUrlencoded (bytes : list N) : list (jsstring * jsstring) :=
  flat_map
    (fun sequence =>
       match sequence with
       | [] => []
       | _ =>
         let (name, value) := nameValue sequence in
         [(decodeComponent name, decodeComponent value)]
       end)
    (splitOn 0x26 bytes).

(** [searchParams.get(name)] for a URL with this query; [None] is [null]. *)
Definition searchParamsGet (name : jsstring) (query : jsstring) : option jsstring :=
  snd <$> List.find (fun pair => bool_decide (fst pair = name))
            (parseUrlencoded (flat_map utf8 (scalarValues query))).

(** What [loadFromUrl] does before the answer comes: nothing for a blank
    text, a toast when [encodeURIComponent] throws, else the request. *)
Inductive Sent : Type :=
| NotSent
| Thrown
| Requested (query : jsstring).

Definition loadFromUrl (urlToLoad : jsstring) : Sent :=
  if negb (Str.truthy (Str.trim urlToLoad)) then NotSent
  else
    match encodeURIComponent (Str.trim urlToLoad) with
    | None => Thrown
    | Some encoded => Requested (requestQuery (js "url=" ++ encoded))
    end.

(** The [url] the route reads for what [loadFromUrl] sent: the route parses
    the URL of the request again. *)
Definition received (sent : Sent) : option jsstring :=
  match sent with
  | Requested query => searchParamsGet (js "url") (requestQuery query)
  | _ => None
  end.

(** The characters of the result of [encodeURIComponent]. *)
Definition encodedChar (c : N) : Prop :=
  uriUnescaped c = true \/ c = 37 \/ exists d, d < 16 /\ c = hexDigit d.

End Transport.

(** * Properties *)

Import Uri Pointer Expand Search.

(** Linear arithmetic with quotients and remainders by constants. *)
Ltac name_divmod a b :=
  let Hd := fresh "Hd" in
  let Hm := fresh "Hm" in
  pose proof (N.div_mod a b ltac:(lia)) as Hd;
  pose proof (N.mod_lt a b ltac:(lia)) as Hm;
  let q := fresh "q" in
  let r := fresh "r" in
  set (q := a / b) in *; set (r := a mod b) in *; clearbody q r.

Ltac nlia :=
  repeat match goal with
  | |- context [N.div ?a ?b] => name_divmod a b
  | |- context [N.modulo ?a ?b] => name_divmod a b
  | H : context [N.div ?a ?b] |- _ => name_divmod a b
  | H : context [N.modulo ?a ?b] |- _ => name_divmod a b
  end; lia.



Lemma utf8_octets cp : cp < 0x110000 -> Forall (fun b => b < 256) (utf8 cp).
Proof.
  intros H. unfold utf8.
  repeat (match goal with |- context [N.ltb ?a ?b] => destruct (N.ltb_spec a b) end);
    repeat constructor; nlia.
Qed.







Lemma percent_utf8_head cp r : exists r', percent (utf8 cp) ++ r = 37 :: r'.
Proof.
  unfold utf8.
  repeat (match goal with |- context [N.ltb ?a ?b] => destruct (N.ltb_spec a b) end);
    cbn [percent flat_map percentOctet app]; eauto.
Qed.

Lemma uriUnescaped_percent : uriUnescaped 37 = false.
Proof. reflexivity. Qed.

Lemma encode_step s o :
  encodeURIComponent s = Some o -> s <> [] ->
  exists e rest r, step s e rest /\ encodeURIComponent rest = Some r /\ o = e ++ r.
Proof.
  destruct s as [|c rest]; [congruence|]. intros E _. cbn [encodeURIComponent] in E.
  destruct (uriUnescaped c) eqn:U.
  { destruct (encodeURIComponent rest) as [r|] eqn:R; [|discriminate].
    injection E as <-. exists [c], rest, r. split; [by constructor|done]. }
  destruct (isLeadingSurrogate c) eqn:L.
  { destruct rest as [|d rest']; [discriminate|].
    destruct (isTrailingSurrogate d) eqn:T; [|discriminate].
    destruct (encodeURIComponent rest') as [r|] eqn:R; [|discriminate].
    injection E as <-. eexists _, rest', r. split; [by constructor|done]. }
  destruct (isTrailingSurrogate c) eqn:T; [discriminate|].
  destruct (encodeURIComponent rest) as [r|] eqn:R; [|discriminate].
  injection E as <-. eexists _, rest, r. split; [by constructor|done].
Qed.

Lemma step_shorter s e rest : step s e rest -> (length rest < length s)%nat.
Proof. destruct 1; simpl; lia. Qed.

Lemma step_code_units s e rest : step s e rest -> code_units s -> code_units rest.
Proof.
  unfold code_units. destruct 1; rewrite ?Forall_cons; tauto.
Qed.



Lemma step_nonempty s e rest : step s e rest -> e <> [].
Proof.
  destruct 1 as [c t U|c d t U L T|c t U L T]; try done.
  - destruct (percent_utf8_head (surrogatePair c d) []) as [x Hx].
    rewrite app_nil_r in Hx. by rewrite Hx.
  - destruct (percent_utf8_head c []) as [x Hx]. rewrite app_nil_r in Hx. by rewrite Hx.
Qed.





(** ** join *)


Lemma join_cons p ps :
  join (js "/") (p :: ps) = p ++ match ps with [] => [] | _ => 47 :: join (js "/") ps end.
Proof. destruct ps; simpl; [by rewrite app_nil_r|done]. Qed.








Lemma digitsOf_inj u v : digitsOf u = digitsOf v -> u = v.
Proof.
  revert v. induction u; intros []; simpl; intros E; try discriminate; try done;
    injection E as E; f_equal; auto.
Qed.

Lemma indexToString_inj i j : indexToString i = indexToString j -> i = j.
Proof.
  unfold indexToString. intros E%digitsOf_inj.
  rewrite <- (DecimalN.Unsigned.of_to i), <- (DecimalN.Unsigned.of_to j). by rewrite E.
Qed.


(** ** C1: the pointer of a path *)

(** Example pointers: an index and the text key of its digits, and the root
    and the empty text key. *)
Example pointer_of_path :
  pointerFromSegments [Key (js "a b"); Idx 12; Key (js "x/y")] = Some (js "/a%20b/12/x%2Fy").
Proof. reflexivity. Qed.


(** The path of the empty text key has the pointer of the root. *)
Lemma pointer_collision_empty_key :
  [Key []] <> [] /\ pointerFromSegments [Key []] = pointerFromSegments [].
Proof. split; [discriminate|reflexivity]. Qed.


(** *** Totality of the encoding *)

Lemma uriUnescaped_not_surrogate c :
  uriUnescaped c = true -> isLeadingSurrogate c = false /\ isTrailingSurrogate c = false.
Proof.
  unfold uriUnescaped, isLeadingSurrogate, isTrailingSurrogate.
  rewrite !orb_true_iff, !andb_true_iff, !andb_false_iff, !N.leb_le, !N.leb_gt, !N.eqb_eq. lia.
Qed.

Lemma encodeURIComponent_total s :
  isWellFormed s = true -> is_Some (encodeURIComponent s).
Proof.
  remember (length s) as n eqn:Hn. revert s Hn.
  induction (lt_wf n) as [n _ IH]. intros s -> W.
  destruct s as [|c rest]; [by eexists|]. cbn [encodeURIComponent isWellFormed] in *.
  destruct (uriUnescaped c) eqn:U.
  { destruct (uriUnescaped_not_surrogate c U) as [L T]. rewrite L, T in W.
    destruct (IH (length rest)) with (s := rest) as [r ->]; simpl; [lia|done|done|by eexists]. }
  destruct (isLeadingSurrogate c).
  { destruct rest as [|d rest']; [done|]. apply andb_true_iff in W as [-> W].
    destruct (IH (length rest')) with (s := rest') as [r ->]; simpl; [lia|done|done|by eexists]. }
  destruct (isTrailingSurrogate c); [done|].
  destruct (IH (length rest)) with (s := rest) as [r ->]; simpl; [lia|done|done|by eexists].
Qed.

Lemma digitsOf_wellFormed u : isWellFormed (digitsOf u) = true.
Proof. induction u; simpl; auto. Qed.

Lemma segToPointer_total seg : wellFormedSeg seg -> is_Some (segToPointer seg).
Proof.
  destruct seg as [k|i]; simpl; intros W; apply encodeURIComponent_total; [done|].
  apply digitsOf_wellFormed.
Qed.

Lemma mapSegs_total segs : Forall wellFormedSeg segs -> is_Some (mapSegs segs).
Proof.
  induction 1 as [|seg segs W _ [ps IH]]; simpl; [by eexists|].
  destruct (segToPointer_total seg W) as [p ->]. rewrite IH. by eexists.
Qed.

Lemma pointerFromSegments_total segs :
  Forall wellFormedSeg segs -> is_Some (pointerFromSegments segs).
Proof.
  intros W. unfold pointerFromSegments. destruct segs; [by eexists|].
  destruct (mapSegs_total _ W) as [ps ->]. by eexists.
Qed.

(** *** ensureOpen *)

Lemma fold_add_elem (ps : list jsstring) (prev : gset jsstring) p :
  p ∈ fold_left (fun next p => {[p]} ∪ next) ps prev <-> p ∈ ps \/ p ∈ prev.
Proof.
  revert prev. induction ps as [|x ps IH]; intros prev; simpl.
  - rewrite elem_of_nil. tauto.
  - rewrite IH, elem_of_cons, elem_of_union, elem_of_singleton. tauto.
Qed.

Lemma ancestorPointers_prefixes segs n ps :
  ancestorPointers segs n = Some ps ->
  forall i, (i <= n)%nat -> exists p, pointerFromSegments (firstn i segs) = Some p /\ p ∈ ps.
Proof.
  revert ps. induction n as [|n IH]; simpl; intros ps E i Hi.
  - injection E as <-. assert (i = 0%nat) as -> by lia. exists rootPointer.
    split; [done|]. apply list_elem_of_singleton. done.
  - destruct (ancestorPointers segs n) as [ps'|]; [|discriminate].
    destruct (pointerFromSegments (firstn (n + 1) segs)) as [p|] eqn:Ep; [|discriminate].
    injection E as <-. destruct (decide (i = S n)) as [->|Hne].
    + exists p. replace (S n) with (n + 1)%nat by lia. split; [done|].
      apply elem_of_app. right. by apply list_elem_of_singleton.
    + destruct (IH ps' eq_refl i) as (p' & Ep' & Hin); [lia|].
      exists p'. split; [done|]. apply elem_of_app. by left.
Qed.

Lemma ancestorPointers_total segs n :
  Forall wellFormedSeg segs -> is_Some (ancestorPointers segs n).
Proof.
  intros W. induction n as [|n [ps IH]]; simpl; [by eexists|]. rewrite IH.
  destruct (pointerFromSegments_total (firstn (n + 1) segs)) as [p ->]; [|by eexists].
  by apply Forall_take.
Qed.

Lemma prefix_firstn (q segs : list Seg) :
  q `prefix_of` segs -> q = firstn (length q) segs /\ (length q <= length segs)%nat.
Proof.
  intros [k ->]. rewrite firstn_app, firstn_all, Nat.sub_diag, length_app. simpl.
  rewrite app_nil_r. split; [done|lia].
Qed.

Lemma ensureOpen_spec segs prev next :
  ensureOpen segs prev = Some next ->
  prev ⊆ next /\
  forall q, q `prefix_of` segs -> exists p, pointerFromSegments q = Some p /\ p ∈ next.
Proof.
  unfold ensureOpen. destruct (ancestorPointers segs (length segs)) as [ps|] eqn:E; [|done].
  intros [= <-]. split.
  - intros p Hp. apply fold_add_elem. by right.
  - intros q Hq. apply prefix_firstn in Hq as [Hq Hl].
    destruct (ancestorPointers_prefixes _ _ _ E (length q) Hl) as (p & Ep & Hin).
    exists p. rewrite Hq. split; [done|]. apply fold_add_elem. by left.
Qed.

(** C6: [ensureOpen] returns for a path whose text keys have no unpaired
    surrogate, and the set it gives holds the previous set and the pointer of
    every prefix of the path, the root and the path itself among them. *)
Theorem ensureOpen_opens_every_prefix (segs : list Seg) (prev : gset jsstring) :
  Forall wellFormedSeg segs ->
  exists next,
    ensureOpen segs prev = Some next /\
    prev ⊆ next /\
    forall q, q `prefix_of` segs -> exists p, pointerFromSegments q = Some p /\ p ∈ next.
Proof.
  intros W. destruct (ancestorPointers_total segs (length segs) W) as [ps E].
  eexists. split; [unfold ensureOpen; by rewrite E|].
  apply ensureOpen_spec. unfold ensureOpen. by rewrite E.
Qed.

Lemma ensureOpen_opens_every_prefix_witness :
  exists next,
    ensureOpen [Key (js "user"); Idx 3; Key (js "first name")] initialExpanded = Some next /\
    initialExpanded ⊆ next /\
    forall q, q `prefix_of` [Key (js "user"); Idx 3; Key (js "first name")] ->
              exists p, pointerFromSegments q = Some p /\ p ∈ next.
Proof.
  apply (ensureOpen_opens_every_prefix [Key (js "user"); Idx 3; Key (js "first name")]).
  repeat constructor.
Defined.

(** *** The root stays open *)

Section RootOpen.
Context `{Numbers}.

Lemma toggle_root_in segs prev next : toggle segs prev = Some next -> rootPointer ∈ next.
Proof.
  unfold toggle. destruct (pointerFromSegments segs); [|done]. intros [= <-]. set_solver.
Qed.

Lemma ensureOpen_root_in segs prev next : ensureOpen segs prev = Some next -> rootPointer ∈ next.
Proof.
  intros E. destruct (ensureOpen_spec _ _ _ E) as [_ Hq].
  destruct (Hq []) as (p & Ep & Hin); [apply prefix_nil|]. by injection Ep as <-.
Qed.

Lemma expandAll_root_in value next b : expandAll value = Some (next, b) -> rootPointer ∈ next.
Proof.
  unfold expandAll. destruct (collectExpandablePointers 6000 value); [|done].
  intros [= <- _]. set_solver.
Qed.

Lemma act_root_in expanded a : rootPointer ∈ expanded -> rootPointer ∈ act expanded a.
Proof.
  intros Hin. destruct a as [segs|segs|value|]; simpl.
  - destruct (toggle segs expanded) eqn:E; simpl; [|done]. by eapply toggle_root_in.
  - destruct (ensureOpen segs expanded) eqn:E; simpl; [|done]. by eapply ensureOpen_root_in.
  - destruct (expandAll value) as [[next b]|] eqn:E; simpl; [|done]. by eapply expandAll_root_in.
  - unfold collapseAll. set_solver.
Qed.

Lemma fold_act_root_in actions expanded :
  rootPointer ∈ expanded -> rootPointer ∈ fold_left act actions expanded.
Proof.
  revert expanded. induction actions as [|a actions IH]; intros expanded Hin; simpl; [done|].
  apply IH. by apply act_root_in.
Qed.

(** C10: after any sequence of toggle, ensureOpen, expandAll and collapseAll
    from the initial set, the root pointer is in the set; toggling the root
    path gives a set with the root in it, and the same set when the root was
    in it before. *)
Theorem root_always_open (actions : list Action) :
  rootPointer ∈ run actions /\
  forall expanded : gset jsstring,
    exists next, toggle [] expanded = Some next /\ rootPointer ∈ next /\
                 (rootPointer ∈ expanded -> next = expanded).
Proof.
  split.
  - apply fold_act_root_in. unfold initialExpanded. set_solver.
  - intros expanded. eexists. split; [reflexivity|]. simpl. split; [set_solver|].
    intros Hin. rewrite decide_True by done. apply set_eq. intros x.
    destruct (decide (x = rootPointer)) as [->|]; set_solver.
Qed.

End RootOpen.



Section CollectFacts.
Context `{Numbers}.
Variable limit : N.

Lemma fill_full (paths : list (list Seg)) (out : gset jsstring) :
  limit <= N.of_nat (size out) -> fill limit paths out = Some out.
Proof. intros Hf. destruct paths; simpl; [done|]. by rewrite decide_True. Qed.

Lemma fill_app (l1 l2 : list (list Seg)) (out : gset jsstring) :
  fill limit (l1 ++ l2) out =
  match fill limit l1 out with
  | Some out' => fill limit l2 out'
  | None => None
  end.
Proof.
  revert out. induction l1 as [|segs l1 IH]; intros out; simpl; [done|].
  destruct (decide (limit <= N.of_nat (size out))) as [Hf|Hf]; [by rewrite fill_full|].
  destruct (pointerFromSegments segs); [apply IH|done].
Qed.

Lemma fill_break (l : list (list Seg)) (out : gset jsstring) (rest : option (gset jsstring)) :
  rest = fill limit l out ->
  (if decide (limit <= N.of_nat (size out)) then Some out else rest) = fill limit l out.
Proof. intros ->. destruct (decide _) as [Hf|]; [by rewrite fill_full|done]. Qed.

Lemma walk_fill node : forall segs out,
  walk limit node segs out = fill limit (containerPaths node segs) out.
Proof.
  induction node as [| | | |items IH|fields IH] using JsonValue_nested_ind;
    intros segs out; cbn [walk containerPaths].
  1-4: by destruct (decide _).
  - cbn [fill]. destruct (decide _); [done|].
    destruct (pointerFromSegments segs) as [p|]; [|done].
    generalize ({[p]} ∪ out) as o. generalize 0 as i.
    induction IH as [|x rest Hx _ IHrest]; intros i o; [done|].
    rewrite fill_app, Hx. destruct (fill limit (containerPaths x (segs ++ [Idx i])) o) as [o'|]; [|done].
    apply fill_break, IHrest.
  - cbn [fill]. destruct (decide _); [done|].
    destruct (pointerFromSegments segs) as [p|]; [|done].
    generalize ({[p]} ∪ out) as o.
    induction IH as [|[k x] rest Hx _ IHrest]; intros o; [done|]. simpl in Hx.
    rewrite fill_app, Hx. destruct (fill limit (containerPaths x (segs ++ [Key k])) o) as [o'|]; [|done].
    apply fill_break, IHrest.
Qed.



Lemma fill_sound (paths : list (list Seg)) : forall out out' : gset jsstring,
  fill limit paths out = Some out' ->
  out ⊆ out' /\
  forall q, q ∈ out' -> q ∈ out \/ exists segs, segs ∈ paths /\ pointerFromSegments segs = Some q.
Proof.
  induction paths as [|segs rest IH]; simpl; intros out out' E.
  - injection E as <-. split; [done|]. by left.
  - destruct (decide _) as [Hf|Hf]; [injection E as <-; split; [done|by left]|].
    destruct (pointerFromSegments segs) as [p|] eqn:Ep; [|done].
    destruct (IH _ _ E) as [Hsub Hq]. split; [set_solver|].
    intros q Hin. destruct (Hq q Hin) as [Ho|(s & Hs & Es)].
    + apply elem_of_union in Ho as [->%elem_of_singleton|Ho]; [|by left].
      right. exists segs. split; [by left|done].
    + right. exists s. split; [by right|done].
Qed.

Lemma fill_complete (paths : list (list Seg)) : forall out out' : gset jsstring,
  fill limit paths out = Some out' -> N.of_nat (size out') < limit ->
  forall segs, segs ∈ paths -> exists q, pointerFromSegments segs = Some q /\ q ∈ out'.
Proof.
  induction paths as [|s rest IH]; simpl; intros out out' E Hlt segs Hin.
  - by apply elem_of_nil in Hin.
  - destruct (decide _) as [Hf|Hf]; [injection E as <-; lia|].
    destruct (pointerFromSegments s) as [p|] eqn:Ep; [|done].
    apply elem_of_cons in Hin as [->|Hin]; [|by eapply IH].
    exists p. split; [done|]. destruct (fill_sound _ _ _ E) as [Hsub _]. set_solver.
Qed.



End CollectFacts.

Section Nested.
Context `{Numbers}.










End Nested.

Section ExpandAllFacts.
Context `{Numbers}.

Lemma expandAll_unfold (value : JsonValue) :
  expandAll value =
  match fill 6000 (containerPaths value []) ∅ with
  | Some collected => Some ({[rootPointer]} ∪ collected, bool_decide (6000 <= N.of_nat (size collected)))
  | None => None
  end.
Proof. unfold expandAll, collectExpandablePointers. by rewrite walk_fill. Qed.


End ExpandAllFacts.

Section ExpandAllTheorem.
Context `{Numbers}.



End ExpandAllTheorem.


Section SearchFacts.
Context `{Numbers} `{Unicode}.
Variable q : jsstring.
Variable maxMatches : N.

Lemma capped_short l : N.of_nat (length l) <= maxMatches -> capped maxMatches l = l.
Proof. intros Hl. apply firstn_all2. lia. Qed.

Lemma capped_length l : N.of_nat (length (capped maxMatches l)) <= maxMatches.
Proof. unfold capped. rewrite length_firstn. lia. Qed.

Lemma capped_full out l :
  N.of_nat (length out) <= maxMatches -> maxMatches <= N.of_nat (length out) ->
  capped maxMatches (out ++ l) = out.
Proof.
  intros H1 H2. unfold capped. rewrite firstn_app.
  replace (N.to_nat maxMatches - length out)%nat with 0%nat by lia.
  rewrite firstn_all2 by lia. simpl. apply app_nil_r.
Qed.

Lemma capped_app l1 l2 : capped maxMatches (capped maxMatches l1 ++ l2) = capped maxMatches (l1 ++ l2).
Proof.
  unfold capped. destruct (decide (length l1 <= N.to_nat maxMatches)%nat) as [Hl|Hl].
  - by rewrite (firstn_all2 l1).
  - rewrite !firstn_app, length_firstn, firstn_firstn.
    replace (N.to_nat maxMatches `min` N.to_nat maxMatches)%nat with (N.to_nat maxMatches) by lia.
    replace (N.to_nat maxMatches - N.to_nat maxMatches `min` length l1)%nat with 0%nat by lia.
    replace (N.to_nat maxMatches - length l1)%nat with 0%nat by lia. done.
Qed.

Lemma push_capped out m :
  N.of_nat (length out) <= maxMatches -> push maxMatches out m = capped maxMatches (out ++ [m]).
Proof.
  intros Hl. unfold push. destruct (N.ltb_spec (N.of_nat (length out)) maxMatches).
  - rewrite capped_short; [done|]. rewrite length_app. simpl. lia.
  - by rewrite capped_full.
Qed.


Lemma visit_capped node : forall path out,
  N.of_nat (length out) <= maxMatches ->
  visit q maxMatches node path out = capped maxMatches (out ++ allMatches q node path).
Proof.
  induction node as [|b|n|s|items IH|fields IH] using JsonValue_nested_ind;
    intros path out Hl; cbn [visit allMatches];
    (destruct (N.leb_spec maxMatches (N.of_nat (length out))) as [Hf|Hf];
     [by rewrite capped_full|]).
  - rewrite app_nil_r, capped_short; [done|lia].
  - destruct (Str.includes _ q); [by apply push_capped|].
    rewrite app_nil_r, capped_short; [done|lia].
  - destruct (Str.includes _ q); [by apply push_capped|].
    rewrite app_nil_r, capped_short; [done|lia].
  - destruct (Str.includes _ q); [by apply push_capped|].
    rewrite app_nil_r, capped_short; [done|lia].
  - clear Hf. revert out Hl. generalize 0 as i.
    induction IH as [|x rest Hx _ IHrest]; intros i out Hl.
    + rewrite app_nil_r, capped_short; [done|lia].
    + rewrite Hx by done. rewrite IHrest by apply capped_length.
      by rewrite capped_app, <- app_assoc.
  - clear Hf. revert out Hl.
    induction IH as [|[k x] rest Hx _ IHrest]; intros out Hl.
    + rewrite app_nil_r, capped_short; [done|lia].
    + simpl in Hx. cbv zeta.
      set (m := {| path := pathJoin path (Key k); kind := KeyMatch; preview := k |}).
      set (ks := if Str.includes (toLowerCase k) q then [m] else []).
      assert ((if Str.includes (toLowerCase k) q then push maxMatches out m else out)
              = capped maxMatches (out ++ ks)) as ->.
      { unfold ks. destruct (Str.includes _ q); [by apply push_capped|].
        rewrite app_nil_r, capped_short; [done|lia]. }
      rewrite Hx by apply capped_length. rewrite capped_app, <- app_assoc.
      destruct (N.leb_spec maxMatches (N.of_nat (length (capped maxMatches (out ++ ks ++ allMatches q x (pathJoin path (Key k))))))) as [Hf|Hf].
      * rewrite <- (capped_full _ (fieldsMatches q path rest) (capped_length _) Hf) at 1.
        by rewrite capped_app, <- !app_assoc.
      * rewrite IHrest by apply capped_length. by rewrite capped_app, <- !app_assoc.
Qed.


Lemma allMatches_array items path :
  allMatches q (JArray items) path = itemsMatches q path items 0.
Proof. reflexivity. Qed.

Lemma allMatches_object fields path :
  allMatches q (JObject fields) path = fieldsMatches q path fields.
Proof. reflexivity. Qed.

Lemma elem_of_itemsMatches m path items : forall i,
  m ∈ itemsMatches q path items i <->
  exists j x, items !! j = Some x /\ m ∈ allMatches q x (pathJoin path (Idx (i + N.of_nat j))).
Proof.
  induction items as [|x rest IH]; intros i; cbn [itemsMatches].
  - rewrite elem_of_nil. split; [done|]. by intros (j & y & Hj & _).
  - rewrite elem_of_app, IH. split.
    + intros [Hm|(j & y & Hj & Hm)].
      * exists 0%nat, x. split; [done|]. by rewrite N.add_0_r.
      * exists (S j), y. split; [done|]. by replace (i + N.of_nat (S j)) with (N.succ i + N.of_nat j) by lia.
    + intros ([|j] & y & Hj & Hm).
      * left. injection Hj as <-. by rewrite N.add_0_r in Hm.
      * right. exists j, y. split; [done|].
        by replace (N.succ i + N.of_nat j) with (i + N.of_nat (S j)) by lia.
Qed.

Lemma elem_of_keyMatch m path k :
  m ∈ keyMatch q path k <->
  Str.includes (toLowerCase k) q = true /\
  m = {| path := pathJoin path (Key k); kind := KeyMatch; preview := k |}.
Proof.
  unfold keyMatch. destruct (Str.includes _ q).
  - rewrite list_elem_of_singleton. tauto.
  - rewrite elem_of_nil. split; [done|]. by intros [? _].
Qed.

Lemma elem_of_fieldsMatches m path fields :
  m ∈ fieldsMatches q path fields <->
  exists j k x, fields !! j = Some (k, x) /\
    (m ∈ keyMatch q path k \/ m ∈ allMatches q x (pathJoin path (Key k))).
Proof.
  induction fields as [|[k x] rest IH]; cbn [fieldsMatches].
  - rewrite elem_of_nil. split; [done|]. by intros (j & ? & ? & Hj & _).
  - rewrite !elem_of_app, IH. split.
    + intros [Hm|[Hm|(j & k' & y & Hj & Hm)]].
      * exists 0%nat, k, x. split; [done|]. by left.
      * exists 0%nat, k, x. split; [done|]. by right.
      * exists (S j), k', y. done.
    + intros ([|j] & k' & y & Hj & Hm).
      * injection Hj as <- <-. tauto.
      * right. right. exists j, k', y. done.
Qed.

(** Every match of the traversal is a match as the specification describes it. *)
Lemma allMatches_sound root m node : forall path,
  nodeAt root path node -> m ∈ allMatches q node path -> isMatch root q m.
Proof.
  induction node as [|b|n|s|items IH|fields IH] using JsonValue_nested_ind;
    intros path Hat; cbn [allMatches].
  - by intros ?%elem_of_nil.
  - destruct (Str.includes _ q) eqn:Hi; [|by intros ?%elem_of_nil].
    intros ->%list_elem_of_singleton. by apply (match_value root q path (JBool b)).
  - destruct (Str.includes _ q) eqn:Hi; [|by intros ?%elem_of_nil].
    intros ->%list_elem_of_singleton. by apply (match_value root q path (JNumber n)).
  - destruct (Str.includes _ q) eqn:Hi; [|by intros ?%elem_of_nil].
    intros ->%list_elem_of_singleton. by apply (match_value root q path (JString s)).
  - fold (itemsMatches q path items 0).
    intros (j & x & Hj & Hm)%elem_of_itemsMatches. rewrite N.add_0_l in Hm.
    rewrite Forall_lookup in IH. eapply (IH j x Hj); [|done]. by eapply at_item.
  - fold (fieldsMatches q path fields).
    intros (j & k & x & Hj & [Hm|Hm])%elem_of_fieldsMatches.
    + apply elem_of_keyMatch in Hm as [Hi ->]. by eapply match_key.
    + rewrite Forall_lookup in IH. eapply (IH j (k, x) Hj); [|done]. by eapply at_field.
Qed.

(** The matches of a node of the document are among those of the document. *)
Lemma allMatches_nodeAt root m path node :
  nodeAt root path node -> m ∈ allMatches q node path -> m ∈ allMatches q root [].
Proof.
  induction 1 as [|p items i x _ IH Hi|p fields i k x _ IH Hi]; [done|..]; intros Hm; apply IH.
  - rewrite allMatches_array. apply elem_of_itemsMatches. exists i, x. by rewrite N.add_0_l.
  - rewrite allMatches_object. apply elem_of_fieldsMatches. exists i, k, x. split; [done|]. by right.
Qed.

Lemma allMatches_complete root m : isMatch root q m -> m ∈ allMatches q root [].
Proof.
  destruct 1 as [p fields i k x Hat Hi Hinc|p v Hat Hleaf Hinc].
  - apply (allMatches_nodeAt root _ p (JObject fields) Hat).
    rewrite allMatches_object. apply elem_of_fieldsMatches. exists i, k, x. split; [done|].
    left. by apply elem_of_keyMatch.
  - apply (allMatches_nodeAt root _ p v Hat).
    destruct v; try done; cbn [allMatches]; rewrite Hinc; by apply list_elem_of_singleton.
Qed.


End SearchFacts.

Lemma findMatches_capped `{Numbers} `{Unicode} (root : JsonValue) (queryRaw : jsstring) (maxMatches : N) :
  findMatches root queryRaw maxMatches =
  if Str.truthy (toLowerCase (Str.trim queryRaw))
  then firstn (N.to_nat maxMatches) (allMatches (toLowerCase (Str.trim queryRaw)) root [])
  else [].
Proof.
  unfold findMatches. destruct (Str.truthy _); [|done].
  rewrite visit_capped by (simpl; lia). done.
Qed.


(** 10,000 keys that all contain the query, [maxMatches = 200]. *)
Example findMatches_ten_thousand_keys :
  N.of_nat (length (findMatches (H0 := asciiUnicode) (Examples.manyKeys (N.to_nat 10000)) (js "k") 200)) = 200.
Proof. vm_compute. reflexivity. Qed.

(** C5: for a query that is not empty after trimming and lower-casing, every
    match returned is a key match at an object key (of any depth) whose
    lower-cased text contains the query, or a value match at a Boolean,
    number or string leaf whose lower-cased text contains it, and below the
    cap every such match is returned; on the example document the result is
    the key match at [a.bob] and the value match at [list[2]]. *)
Theorem search_scope :
  (forall (numbers : Numbers) (unicode : Unicode)
          (root : JsonValue) (queryRaw : jsstring) (maxMatches : N),
     let q := toLowerCase (Str.trim queryRaw) in
     Str.truthy q = true ->
     (forall m, m ∈ findMatches root queryRaw maxMatches -> isMatch root q m) /\
     (N.of_nat (length (findMatches root queryRaw maxMatches)) < maxMatches ->
      forall m, isMatch root q m -> m ∈ findMatches root queryRaw maxMatches)) /\
  findMatches (H0 := asciiUnicode) Examples.bobDocument (js "bob") 200 =
    [ {| path := js "a.bob"; kind := KeyMatch; preview := js "bob" |};
      {| path := js "list[2]"; kind := ValueMatch; preview := js "bob" |} ].
Proof.
  split; [|reflexivity].
  intros numbers unicode root queryRaw maxMatches q Hq.
  rewrite findMatches_capped. fold q. rewrite Hq. split.
  - intros m Hm. apply (allMatches_sound q root m root []); [constructor|].
    eapply subseteq_take, Hm.
  - intros Hlt m Hm. rewrite firstn_all2.
    + by apply allMatches_complete.
    + rewrite length_firstn in Hlt. lia.
Qed.

(** *** trim *)

Lemma trimStart_nil s : Str.trimStart s = [] <-> Parse.whitespaceOnly s.
Proof.
  unfold Parse.whitespaceOnly. induction s as [|c s IH]; simpl.
  - split; [constructor|done].
  - destruct (Str.isWhiteSpace c) eqn:W.
    + rewrite IH, Forall_cons. tauto.
    + split; [done|]. rewrite Forall_cons. intros [? _]. congruence.
Qed.

Lemma trimStart_whitespaceOnly s :
  Parse.whitespaceOnly (Str.trimStart s) -> Parse.whitespaceOnly s.
Proof.
  unfold Parse.whitespaceOnly. induction s as [|c s IH]; simpl; [done|].
  destruct (Str.isWhiteSpace c) eqn:W.
  - intros Hs. constructor; auto.
  - rewrite Forall_cons. intros [? _]. congruence.
Qed.

Lemma trim_nil s : Str.trim s = [] <-> Parse.whitespaceOnly s.
Proof.
  unfold Str.trim, Str.trimEnd. split.
  - intros E. apply (f_equal (@rev N)) in E. rewrite rev_involutive in E. simpl in E.
    apply trimStart_nil in E. unfold Parse.whitespaceOnly in E.
    apply Forall_rev in E. rewrite rev_involutive in E. by apply trimStart_whitespaceOnly.
  - intros Hs. apply trimStart_nil in Hs. rewrite Hs. done.
Qed.

Lemma truthy_trim s : Str.truthy (Str.trim s) = false <-> Parse.whitespaceOnly s.
Proof. rewrite <- trim_nil. destruct (Str.trim s); simpl; split; done. Qed.

Section ParseFacts.
Context `{Parse.JsonBuiltins}.
Import Parse.

(** C8: empty and whitespace-only text parse to [null]; on any other text
    the result is that of [JSON.parse]: its value, or an error with the
    message of what it threw. *)
Theorem safeJsonParse_blank_is_null :
  safeJsonParse [] = Ok JNull /\
  safeJsonParse (js "   ") = Ok JNull /\
  (forall text, whitespaceOnly text -> safeJsonParse text = Ok JNull) /\
  (forall text e, ~ whitespaceOnly text -> JSON_parse text = inr e ->
     safeJsonParse text = Err (messageOr (js "Invalid JSON") e)) /\
  (forall text m, ~ whitespaceOnly text -> JSON_parse text = inr {| message := Some m |} ->
     safeJsonParse text = Err m) /\
  (forall text v, ~ whitespaceOnly text -> JSON_parse text = inl v ->
     safeJsonParse text = Ok v).
Proof.
  assert (forall text, whitespaceOnly text -> safeJsonParse text = Ok JNull) as Hblank.
  { intros text Hw. unfold safeJsonParse. apply truthy_trim in Hw. by rewrite Hw. }
  assert (forall text, ~ whitespaceOnly text ->
            safeJsonParse text =
            match JSON_parse text with
            | inl v => Ok v
            | inr e => Err (messageOr (js "Invalid JSON") e)
            end) as Hother.
  { intros text Hw. unfold safeJsonParse. rewrite <- truthy_trim in Hw.
    by destruct (Str.truthy (Str.trim text)). }
  split; [done|]. split; [done|]. split; [done|].
  repeat split; intros text ? Hw E; rewrite Hother, E; done.
Qed.

End ParseFacts.

(** *** The share link *)

Section ShareFacts.
Context `{Share.Codec}.
Import Share.

Lemma startsWith_app p s : Str.startsWith (p ++ s) p = true.
Proof. induction p as [|c p IH]; simpl; [by destruct s|]. by rewrite N.eqb_refl. Qed.





End ShareFacts.



(** *** The remote-fetch route *)

Section ProxyFacts.
Context `{Proxy.UrlParser}.
Import Proxy.

(** C9: a request with no [url], an empty one, one that does not parse as an
    absolute URL or one whose scheme is not https is answered with status 400
    and an [{error}] body, and no upstream fetch is made. *)
Theorem proxy_validates_before_fetching (url : option jsstring) :
  refused url ->
  exists error,
    GET url = Respond {| status := 400; body := ErrorBody error |} /\
    forall oracle, fetches (GET url) oracle = [] /\
                   response (GET url) oracle = {| status := 400; body := ErrorBody error |}.
Proof.
  unfold refused, GET. intros Hr.
  destruct url as [[|c u]|]; [by eexists..| |by eexists].
  destruct Hr as [?|Hr]; [done|]. cbn [Str.truthy negb].
  destruct (parseURL (c :: u)) as [parsed|]; [|by eexists].
  rewrite bool_decide_false by done. by eexists.
Qed.

(** Any other request is fetched, at the parsed URL. *)
Lemma proxy_fetches_https (u : jsstring) (parsed : URL) :
  u <> [] -> parseURL u = Some parsed -> protocol parsed = js "https:" ->
  exists next, GET (Some u) = Fetch (href parsed) next.
Proof.
  intros Hu Hp Hs. unfold GET. destruct u; [done|]. cbn [Str.truthy negb].
  rewrite Hp, bool_decide_true by done. by eexists.
Qed.

End ProxyFacts.

Lemma proxy_validates_before_fetching_witness :
  exists error,
    Proxy.GET (H := schemeParser) (Some (js "http://example.com/data.json")) =
      Proxy.Respond {| Proxy.status := 400; Proxy.body := Proxy.ErrorBody error |} /\
    forall oracle,
      Proxy.fetches (Proxy.GET (H := schemeParser) (Some (js "http://example.com/data.json"))) oracle = [] /\
      Proxy.response (Proxy.GET (H := schemeParser) (Some (js "http://example.com/data.json"))) oracle =
        {| Proxy.status := 400; Proxy.body := Proxy.ErrorBody error |}.
Proof.
  apply (proxy_validates_before_fetching (H := schemeParser)).
  right. vm_compute. discriminate.
Defined.

(** ** C7: writing a parsed text again *)

Import Json.

(** Boolean tests on code units as arithmetic facts. *)
Ltac units :=
  unfold isDigit, isNumberChar, isJsonSpace, isLeadingSurrogate, isTrailingSurrogate in *;
  repeat match goal with
  | H : context [N.eqb ?a ?b] |- _ => destruct (N.eqb_spec a b)
  | |- context [N.eqb ?a ?b] => destruct (N.eqb_spec a b)
  | H : context [N.leb ?a ?b] |- _ => destruct (N.leb_spec a b)
  | |- context [N.leb ?a ?b] => destruct (N.leb_spec a b)
  | H : context [N.ltb ?a ?b] |- _ => destruct (N.ltb_spec a b)
  | |- context [N.ltb ?a ?b] => destruct (N.ltb_spec a b)
  end; simpl in *; try discriminate; try lia; try done.

(** *** Strings *)

Lemma hexValue_hexLower d : d < 16 -> hexValue (hexLower d) = Some d.
Proof.
  intros Hd. unfold hexValue, hexLower, isDigit.
  destruct (N.ltb_spec d 10).
  - replace ((48 <=? 48 + d) && (48 + d <=? 57)) with true by (symmetry; apply andb_true_iff; split; apply N.leb_le; lia).
    f_equal. lia.
  - replace ((48 <=? 87 + d) && (87 + d <=? 57)) with false by (symmetry; apply andb_false_iff; right; apply N.leb_gt; lia).
    replace ((97 <=? 87 + d) && (87 + d <=? 102)) with true by (symmetry; apply andb_true_iff; split; apply N.leb_le; lia).
    f_equal. lia.
Qed.

Lemma hex4Value_unicodeEscape u :
  u < 65536 ->
  hex4Value (hexLower (u / 4096)) (hexLower ((u / 256) mod 16))
            (hexLower ((u / 16) mod 16)) (hexLower (u mod 16)) = Some u.
Proof.
  intros Hu. unfold hex4Value.
  rewrite !hexValue_hexLower by nlia. f_equal. nlia.
Qed.

Lemma parseChars_unicodeEscape u t str r :
  u < 65536 -> parseChars t = Some (str, r) ->
  parseChars (unicodeEscape u ++ t) = Some (u :: str, r).
Proof.
  intros Hu Ht. unfold unicodeEscape. cbn [app parseChars].
  change (92 =? 34) with false. change (92 =? 92) with true. change (117 =? 117) with true.
  cbv iota. rewrite hex4Value_unicodeEscape by done. by rewrite Ht.
Qed.

Lemma parseChars_literal c t str r :
  c <> 34 -> c <> 92 -> 32 <= c -> parseChars t = Some (str, r) ->
  parseChars (c :: t) = Some (c :: str, r).
Proof.
  intros H1 H2 H3 Ht. cbn [parseChars].
  destruct (N.eqb_spec c 34); [done|]. destruct (N.eqb_spec c 92); [done|].
  destruct (N.ltb_spec c 32); [lia|]. by rewrite Ht.
Qed.

Lemma parseChars_quoteUnit c t str r :
  parseChars t = Some (str, r) -> parseChars (quoteUnit c ++ t) = Some (c :: str, r).
Proof.
  intros Ht. unfold quoteUnit.
  destruct (N.eqb_spec c 8) as [->|]; [cbn; by rewrite Ht|].
  destruct (N.eqb_spec c 9) as [->|]; [cbn; by rewrite Ht|].
  destruct (N.eqb_spec c 10) as [->|]; [cbn; by rewrite Ht|].
  destruct (N.eqb_spec c 12) as [->|]; [cbn; by rewrite Ht|].
  destruct (N.eqb_spec c 13) as [->|]; [cbn; by rewrite Ht|].
  destruct (N.eqb_spec c 34) as [->|]; [cbn; by rewrite Ht|].
  destruct (N.eqb_spec c 92) as [->|]; [cbn; by rewrite Ht|].
  destruct ((c <? 32) || isLeadingSurrogate c || isTrailingSurrogate c) eqn:E.
  - apply parseChars_unicodeEscape; [|done]. units.
  - apply parseChars_literal; try done. units.
Qed.

Lemma parseChars_quoteChars s : forall rest,
  parseChars (quoteChars s ++ 34 :: rest) = Some (s, rest).
Proof.
  remember (length s) as n eqn:Hn. revert s Hn.
  induction (lt_wf n) as [n _ IH]. intros s -> rest.
  destruct s as [|c s]; [done|]. cbn [quoteChars].
  destruct (isLeadingSurrogate c) eqn:L.
  - destruct s as [|d s].
    + by apply parseChars_quoteUnit.
    + destruct (isTrailingSurrogate d) eqn:T.
      * cbn [app]. apply parseChars_literal; [units..|].
        apply parseChars_literal; [units..|].
        eapply (IH (length s)); [simpl; lia|done].
      * rewrite <- app_assoc. apply parseChars_quoteUnit.
        eapply (IH (length (d :: s))); [simpl; lia|done].
  - rewrite <- app_assoc. apply parseChars_quoteUnit.
    eapply (IH (length s)); [simpl; lia|done].
Qed.

(** *** Number literals *)

Lemma dropDigits_split s :
  exists ds, s = ds ++ dropDigits s /\ Forall (fun c => isNumberChar c = true) ds.
Proof.
  induction s as [|c s (ds & E & F)]; [by exists []|]. simpl.
  destruct (isDigit c) eqn:D; [|by exists []].
  exists (c :: ds). split; [simpl; congruence|]. constructor; [|done].
  unfold isNumberChar. by rewrite D.
Qed.

Lemma consumes_refl s : consumes s s.
Proof. by exists []. Qed.

Lemma consumes_trans s1 s2 s3 : consumes s1 s2 -> consumes s2 s3 -> consumes s1 s3.
Proof.
  intros (a & -> & Fa) (b & -> & Fb). exists (a ++ b). split; [by rewrite app_assoc|].
  by apply Forall_app.
Qed.

Lemma consumes_cons c s r : isNumberChar c = true -> consumes s r -> consumes (c :: s) r.
Proof. intros Hc (a & -> & Fa). exists (c :: a). split; [done|]. by constructor. Qed.

Lemma digits1_consumes s r : digits1 s = Some r -> consumes s r.
Proof.
  destruct s as [|c s]; [done|]. simpl. destruct (isDigit c) eqn:D; [|done].
  intros [= <-]. apply consumes_cons; [unfold isNumberChar; by rewrite D|].
  destruct (dropDigits_split s) as (ds & E & F). by exists ds.
Qed.

Lemma minusPart_consumes s : consumes s (minusPart s).
Proof.
  destruct s as [|c s]; [apply consumes_refl|]. simpl.
  destruct (N.eqb_spec c 45) as [->|]; [|apply consumes_refl].
  apply consumes_cons; [done|apply consumes_refl].
Qed.

Lemma intPart_consumes s r : intPart s = Some r -> consumes s r.
Proof.
  destruct s as [|c s]; [done|]. unfold intPart.
  destruct (N.eqb_spec c 48) as [->|]; [|apply digits1_consumes].
  intros [= <-]. apply consumes_cons; [done|apply consumes_refl].
Qed.

Lemma fracPart_consumes s r : fracPart s = Some r -> consumes s r.
Proof.
  destruct s as [|c s]; [intros [= <-]; apply consumes_refl|]. unfold fracPart.
  destruct (N.eqb_spec c 46) as [->|]; [|intros [= <-]; apply consumes_refl].
  intros Hd%digits1_consumes. by apply consumes_cons.
Qed.

Lemma signPart_consumes s : consumes s (signPart s).
Proof.
  destruct s as [|c s]; [apply consumes_refl|]. simpl.
  destruct ((c =? 43) || (c =? 45)) eqn:E; [|apply consumes_refl].
  apply consumes_cons; [|apply consumes_refl]. units.
Qed.

Lemma expPart_consumes s r : expPart s = Some r -> consumes s r.
Proof.
  destruct s as [|c s]; [intros [= <-]; apply consumes_refl|]. unfold expPart.
  destruct ((c =? 101) || (c =? 69)) eqn:E; [|intros [= <-]; apply consumes_refl].
  intros Hd%digits1_consumes. apply consumes_cons; [units|].
  eapply consumes_trans; [apply signPart_consumes|done].
Qed.

Lemma afterNumber_consumes s r : afterNumber s = Some r -> consumes s r.
Proof.
  unfold afterNumber. destruct (intPart (minusPart s)) as [s1|] eqn:E1; [|done].
  destruct (fracPart s1) as [s2|] eqn:E2; [|done]. intros E3.
  eapply consumes_trans; [apply minusPart_consumes|].
  eapply consumes_trans; [by apply intPart_consumes|].
  eapply consumes_trans; [by apply fracPart_consumes|]. by apply expPart_consumes.
Qed.

Lemma isNumberLiteral_chars s :
  isNumberLiteral s = true -> Forall (fun c => isNumberChar c = true) s.
Proof.
  unfold isNumberLiteral. destruct (afterNumber s) as [[|]|] eqn:E; try done.
  intros _. apply afterNumber_consumes in E as (cs & -> & F). by rewrite app_nil_r.
Qed.

Lemma numberRun_app lit rest :
  Forall (fun c => isNumberChar c = true) lit -> endsNumber rest ->
  numberRun (lit ++ rest) = (lit, rest).
Proof.
  intros F E. induction F as [|c lit Hc _ IH]; cbn [numberRun app].
  - destruct rest as [|c rest]; [done|]. cbn [numberRun]. unfold endsNumber in E. by rewrite E.
  - by rewrite Hc, IH.
Qed.

Lemma isNumberLiteral_head s :
  isNumberLiteral s = true -> exists c r, s = c :: r /\ (c = 45 \/ isDigit c = true).
Proof.
  unfold isNumberLiteral, afterNumber.
  destruct s as [|c s]; [done|]. intros E. exists c, s. split; [done|].
  simpl in E. destruct (N.eqb_spec c 45); [by left|right].
  unfold intPart in E. destruct (N.eqb_spec c 48) as [->|]; [done|].
  simpl in E. by destruct (isDigit c).
Qed.

Section FieldFacts.
Context {A : Type}.
Implicit Types (fields : list (jsstring * A)) (key : jsstring) (value : A).

Lemma arrayIndex_inj k1 k2 i : arrayIndex k1 = Some i -> arrayIndex k2 = Some i -> k1 = k2.
Proof.
  unfold arrayIndex. intros E1 E2.
  destruct (_ <? _) in E1; [|done]. destruct (_ <? _) in E2; [|done]. simpl in *.
  case_bool_decide; [|done]. case_bool_decide; [|done]. congruence.
Qed.

Lemma keyBefore_trans k1 k2 k3 : keyBefore k1 k2 -> keyBefore k2 k3 -> keyBefore k1 k3.
Proof.
  unfold keyBefore.
  destruct (arrayIndex k1), (arrayIndex k2), (arrayIndex k3); try done. lia.
Qed.

Lemma setField_None key value fields :
  setField key value fields = None <-> key ∉ map fst fields.
Proof.
  induction fields as [|[k x] rest IH]; simpl.
  - split; [intros _; apply not_elem_of_nil|done].
  - rewrite not_elem_of_cons. case_bool_decide as Hk.
    + split; [done|]. intros [? _]. congruence.
    + destruct (setField key value rest).
      * split; [done|]. intros [_ Hn]. apply IH in Hn. done.
      * split; [|done]. intros _. split; [congruence|]. by apply IH.
Qed.

Lemma setField_keys key value fields fields' :
  setField key value fields = Some fields' -> map fst fields' = map fst fields.
Proof.
  revert fields'. induction fields as [|[k x] rest IH]; simpl; intros fields'; [done|].
  case_bool_decide as Hk.
  - intros [= <-]. simpl. by rewrite Hk.
  - destruct (setField key value rest) as [rest'|]; [|done].
    intros [= <-]. simpl. f_equal. by apply IH.
Qed.

Lemma insertIndex_keys i key value fields :
  exists before after,
    map fst fields = before ++ after /\
    map fst (insertIndex i key value fields) = before ++ key :: after /\
    Forall (fun k => exists j, arrayIndex k = Some j /\ j < i) before /\
    match after with
    | [] => True
    | k :: _ => match arrayIndex k with Some j => i <= j | None => True end
    end.
Proof.
  induction fields as [|[k x] rest (before & after & E1 & E2 & F & Ha)]; simpl.
  - by exists [], [].
  - destruct (arrayIndex k) as [j|] eqn:Ek.
    + destruct (N.ltb_spec j i).
      * exists (k :: before), after. simpl. rewrite E1, E2. repeat split; try done.
        constructor; [eauto|done].
      * exists [], (k :: map fst rest). simpl. rewrite Ek. done.
    + exists [], (k :: map fst rest). simpl. rewrite Ek. done.
Qed.

Lemma ordered_app_inv ks1 ks2 : ordered (ks1 ++ ks2) -> ordered ks1 /\ ordered ks2.
Proof.
  induction ks1 as [|k ks1 IH]; simpl; [split; [constructor|done]|].
  inversion 1 as [|? ? F Hn Ho]; subst. destruct (IH Ho) as [H1 H2]. split; [|done].
  apply Forall_app in F as [F1 _]. apply not_elem_of_app in Hn as [Hn _]. by constructor.
Qed.

Lemma ordered_insert before key after i :
  arrayIndex key = Some i ->
  ordered (before ++ after) -> key ∉ before ++ after ->
  Forall (fun k => exists j, arrayIndex k = Some j /\ j < i) before ->
  match after with
  | [] => True
  | k :: _ => match arrayIndex k with Some j => i <= j | None => True end
  end ->
  ordered (before ++ key :: after).
Proof.
  intros Ek. induction before as [|b before IH]; simpl; intros Ho Hn F Ha.
  - constructor; [|done|done].
    destruct after as [|k after]; [constructor|].
    assert (keyBefore key k) as Hk.
    { unfold keyBefore. rewrite Ek. destruct (arrayIndex k) as [j|] eqn:Ej; [|done].
      destruct (decide (i = j)) as [->|]; [|lia].
      apply not_elem_of_cons in Hn as [Hn _]. destruct Hn. by eapply arrayIndex_inj. }
    constructor; [done|]. inversion Ho as [|? ? Fk _ _]; subst.
    eapply Forall_impl; [exact Fk|]. intros k'. by apply keyBefore_trans.
  - inversion Ho as [|? ? Fb Hb Ho']; subst. inversion F as [|? ? (j & Ej & Hj) F']; subst.
    apply not_elem_of_cons in Hn as [Hne Hn]. constructor.
    + apply Forall_app in Fb as [Fb1 Fb2]. apply Forall_app. split; [done|].
      constructor; [|done]. unfold keyBefore. by rewrite Ej, Ek.
    + rewrite elem_of_app, elem_of_cons. rewrite elem_of_app in Hb. intros [?|[?|?]]; [tauto|congruence|tauto].
    + by apply IH.
Qed.

Lemma ordered_snoc ks key :
  arrayIndex key = None -> ordered ks -> key ∉ ks -> ordered (ks ++ [key]).
Proof.
  intros Ek. induction 1 as [|k ks F Hk Ho IH]; intros Hn; simpl.
  - constructor; [constructor|apply not_elem_of_nil|constructor].
  - apply not_elem_of_cons in Hn as [Hne Hn]. constructor.
    + apply Forall_app. split; [done|]. constructor; [|done].
      unfold keyBefore. rewrite Ek. by destruct (arrayIndex k).
    + rewrite elem_of_app, list_elem_of_singleton. intros [?|?]; [done|congruence].
    + by apply IH.
Qed.

(** Defining a field keeps the keys in the order of [Object.keys]. *)
Lemma defineField_ordered key value fields :
  ordered (map fst fields) -> ordered (map fst (defineField key value fields)).
Proof.
  intros Ho. unfold defineField.
  destruct (setField key value fields) as [fields'|] eqn:Es.
  - by rewrite (setField_keys _ _ _ _ Es).
  - apply setField_None in Es. destruct (arrayIndex key) as [i|] eqn:Ek.
    + destruct (insertIndex_keys i key value fields) as (before & after & E1 & E2 & F & Ha).
      rewrite E2. rewrite E1 in Ho, Es. by eapply ordered_insert.
    + rewrite map_app. simpl. by apply ordered_snoc.
Qed.

Lemma defineField_values (P : A -> Prop) key value fields :
  P value -> Forall (fun kv => P (snd kv)) fields ->
  Forall (fun kv => P (snd kv)) (defineField key value fields).
Proof.
  intros Hv Hf. unfold defineField.
  destruct (setField key value fields) as [fields'|] eqn:Es.
  - revert fields' Es. induction Hf as [|[k x] rest Hx Hr IH]; intros fields'; simpl; [done|].
    case_bool_decide; [intros [= <-]; by constructor|].
    destruct (setField key value rest) as [rest'|]; [|done].
    intros [= <-]. constructor; [done|]. by apply IH.
  - destruct (arrayIndex key) as [i|].
    + clear Es. induction Hf as [|[k x] rest Hx Hr IH]; simpl; [by constructor|].
      destruct (arrayIndex k) as [j|]; [destruct (j <? i)|]; repeat constructor; done.
    + apply Forall_app. split; [done|]. by constructor.
Qed.

Lemma defineAll_ordered (entries : list (jsstring * A)) : forall acc : list (jsstring * A),
  ordered (map fst acc) -> ordered (map fst (defineAll entries acc)).
Proof.
  induction entries as [|[k x] entries IH]; intros acc Ho; simpl; [done|].
  apply IH. by apply defineField_ordered.
Qed.

Lemma insertIndex_last i key value fields :
  Forall (fun k => exists j, arrayIndex k = Some j /\ j < i) (map fst fields) ->
  insertIndex i key value fields = fields ++ [(key, value)].
Proof.
  induction fields as [|[k x] rest IH]; simpl; [done|].
  inversion 1 as [|? ? (j & Ej & Hj) F]; subst. rewrite Ej.
  destruct (N.ltb_spec j i); [|lia]. by rewrite IH.
Qed.

(** Fields that are in the order of [Object.keys] are defined in that order. *)
Lemma defineAll_id (entries : list (jsstring * A)) : forall acc : list (jsstring * A),
  ordered (map fst (acc ++ entries)) -> defineAll entries acc = acc ++ entries.
Proof.
  induction entries as [|[k x] entries IH]; intros acc Ho; simpl; [by rewrite app_nil_r|].
  assert (defineField k x acc = acc ++ [(k, x)]) as ->.
  { rewrite map_app in Ho. simpl in Ho.
    unfold defineField. destruct (setField k x acc) as [acc'|] eqn:Es.
    - assert (k ∈ map fst acc) as Hin.
      { destruct (decide (k ∈ map fst acc)) as [|Hn]; [done|].
        pose proof (proj2 (setField_None k x acc) Hn). congruence. }
      exfalso. clear -Ho Hin. induction acc as [|[k' x'] acc IH]; simpl in *.
      + by apply elem_of_nil in Hin.
      + inversion Ho as [|? ? F Hn Ho']; subst. apply elem_of_cons in Hin as [->|Hin]; [|by apply IH].
        apply Hn. apply elem_of_app. right. by left.
    - destruct (arrayIndex k) as [i|] eqn:Ek; [|done]. apply insertIndex_last.
      clear -Ho Ek. induction acc as [|[k' x'] acc IH]; simpl in *; [constructor|].
      inversion Ho as [|? ? F Hn Ho']; subst. constructor; [|by apply IH].
      apply Forall_app in F as [_ F]. inversion F as [|? ? Hk _]; subst.
      unfold keyBefore in Hk. rewrite Ek in Hk. destruct (arrayIndex k') as [j|]; [eauto|done]. }
  rewrite IH; rewrite <- app_assoc; done.
Qed.

End FieldFacts.



Lemma skipSpace_app w s : spaces w -> skipSpace (w ++ s) = skipSpace s.
Proof. induction 1 as [|c w Hc _ IH]; [done|]. simpl. by rewrite Hc. Qed.

Lemma skipSpace_start c r : valueStart c -> skipSpace (c :: r) = c :: r.
Proof.
  intros Hc. cbn [skipSpace]. replace (isJsonSpace c) with false; [done|].
  symmetry. unfold valueStart in Hc. unfold isJsonSpace, isDigit in *.
  destruct Hc as [->|[->|[->|[->|[->|[->|[->|Hd]]]]]]]; try reflexivity.
  rewrite !orb_false_iff, !N.eqb_neq. apply andb_true_iff in Hd as [?%N.leb_le ?%N.leb_le]. lia.
Qed.

Lemma skipSpace_mark c r : isJsonSpace c = false -> skipSpace (c :: r) = c :: r.
Proof. intros Hc. cbn [skipSpace]. by rewrite Hc. Qed.

Lemma spaces_repeat n : spaces (repeat 32 n).
Proof. induction n; simpl; constructor; done. Qed.

Lemma join_cons2 sep (p q : jsstring) (l : list jsstring) :
  Pointer.join sep (p :: q :: l) = p ++ sep ++ Pointer.join sep (q :: l).
Proof. reflexivity. Qed.

(** The text of a non-empty array or object. *)
Lemma wrap_shape opening closing gap stepback indent partial :
  partial <> [] -> spaces gap -> spaces stepback -> spaces indent ->
  exists w1 w2, spaces w1 /\ spaces w2 /\
    wrap opening closing gap stepback indent partial =
    opening :: w1 ++ Pointer.join (44 :: w1) partial ++ w2 ++ [closing].
Proof.
  intros Hp Hg Hs Hi. unfold wrap. destruct partial as [|p partial]; [done|].
  destruct (Str.truthy gap).
  - exists (10 :: indent), (10 :: stepback). split; [by constructor|]. split; [by constructor|].
    reflexivity.
  - exists [], []. split; [constructor|]. split; [constructor|]. done.
Qed.

Section Unfold.
Context `{JsonHost}.

(** The three functions of the parser, one call unfolded. *)
Lemma parseValue_S fuel s :
  parseValue (S fuel) s =
  match skipSpace s with
  | [] => None
  | c :: r =>
    if c =? 34 then
      match parseChars r with
      | Some (str, r') => Some (JString str, r')
      | None => None
      end
    else if c =? 91 then
      match skipSpace r with
      | [] => None
      | c' :: r' =>
        if c' =? 93 then Some (JArray [], r')
        else
          match parseElements fuel r with
          | Some (items, r'') => Some (JArray items, r'')
          | None => None
          end
      end
    else if c =? 123 then
      match skipSpace r with
      | [] => None
      | c' :: r' =>
        if c' =? 125 then Some (JObject [], r')
        else
          match parseMembers fuel r [] with
          | Some (fields, r'') => Some (JObject fields, r'')
          | None => None
          end
      end
    else if c =? 110 then literal (js "null") JNull (c :: r)
    else if c =? 116 then literal (js "true") (JBool true) (c :: r)
    else if c =? 102 then literal (js "false") (JBool false) (c :: r)
    else parseNumber (c :: r)
  end.
Proof. reflexivity. Qed.

Lemma parseElements_S fuel s :
  parseElements (S fuel) s =
  match parseValue fuel s with
  | None => None
  | Some (v, r) =>
    match skipSpace r with
    | [] => None
    | c :: r' =>
      if c =? 44 then
        match parseElements fuel r' with
        | Some (items, r'') => Some (v :: items, r'')
        | None => None
        end
      else if c =? 93 then Some ([v], r')
      else None
    end
  end.
Proof. reflexivity. Qed.

Lemma parseMembers_S fuel s fields :
  parseMembers (S fuel) s fields =
  match skipSpace s with
  | [] => None
  | q :: r =>
    if q =? 34 then
      match parseChars r with
      | None => None
      | Some (key, r1) =>
        match skipSpace r1 with
        | [] => None
        | colon :: r2 =>
          if colon =? 58 then
            match parseValue fuel r2 with
            | None => None
            | Some (v, r3) =>
              match skipSpace r3 with
              | [] => None
              | c :: r4 =>
                if c =? 44 then parseMembers fuel r4 (defineField key v fields)
                else if c =? 125 then Some (defineField key v fields, r4)
                else None
              end
            end
          else None
        end
      end
    else None
  end.
Proof. reflexivity. Qed.

End Unfold.

Section RoundTrip.
Context `{JsonHost}.
Hypothesis laws : numberLaws.

Lemma serialize_start gap indent v :
  exists c r, serialize gap indent v = c :: r /\ valueStart c.
Proof.
  unfold valueStart. destruct v as [|[]|n|s|items|fields]; cbn [serialize].
  - exists 110, (js "ull"). split; [done|tauto].
  - exists 116, (js "rue"). split; [done|tauto].
  - exists 102, (js "alse"). split; [done|tauto].
  - destruct (isFinite n) eqn:F.
    + destruct (laws n F) as (L & _). apply isNumberLiteral_head in L as (c & r & -> & Hc).
      exists c, r. split; [done|tauto].
    + exists 110, (js "ull"). split; [done|tauto].
  - eexists 34, _. split; [reflexivity|tauto].
  - unfold wrap. destruct (map _ items); [|destruct (Str.truthy gap)];
      eexists 91, _; (split; [reflexivity|tauto]).
  - unfold wrap. destruct (map _ fields); [|destruct (Str.truthy gap)];
      eexists 123, _; (split; [reflexivity|tauto]).
Qed.

Lemma parseValue_literal word v rest fuel c word' :
  word = c :: word' -> c <> 34 -> c <> 91 -> c <> 123 ->
  (c = 110 \/ c = 116 \/ c = 102) ->
  (c = 110 -> word = js "null" /\ v = JNull) ->
  (c = 116 -> word = js "true" /\ v = JBool true) ->
  (c = 102 -> word = js "false" /\ v = JBool false) ->
  forall w, spaces w ->
  parseValue (S fuel) (w ++ word ++ rest) = Some (v, rest).
Proof.
  intros -> H1 H2 H3 Hc Hn Ht Hf w Hw. rewrite parseValue_S, skipSpace_app by done.
  cbn [app]. rewrite skipSpace_mark.
  2:{ destruct Hc as [->|[->| ->]]; reflexivity. }
  destruct (N.eqb_spec c 34); [done|]. destruct (N.eqb_spec c 91); [done|].
  destruct (N.eqb_spec c 123); [done|].
  destruct Hc as [->|[->| ->]].
  - destruct Hn as [E ->]; [done|]. injection E as ->. reflexivity.
  - destruct Ht as [E ->]; [done|]. injection E as ->. reflexivity.
  - destruct Hf as [E ->]; [done|]. injection E as ->. reflexivity.
Qed.

Lemma readsBack_null : readsBack JNull.
Proof.
  intros gap indent w rest [|fuel] Hg Hi Hw Hr Hf; [simpl in Hf; lia|].
  cbn [serialize reparsed]. eapply (parseValue_literal (js "null") JNull rest fuel 110); try done;
    try tauto; intros; discriminate.
Qed.

Lemma readsBack_bool b : readsBack (JBool b).
Proof.
  intros gap indent w rest [|fuel] Hg Hi Hw Hr Hf; [simpl in Hf; lia|].
  destruct b; cbn [serialize reparsed].
  - eapply (parseValue_literal (js "true") (JBool true) rest fuel 116); try done;
      try tauto; intros; discriminate.
  - eapply (parseValue_literal (js "false") (JBool false) rest fuel 102); try done;
      try tauto; intros; discriminate.
Qed.

Lemma readsBack_number n : readsBack (JNumber n).
Proof.
  intros gap indent w rest [|fuel] Hg Hi Hw Hr Hf; [simpl in Hf; lia|].
  cbn [serialize reparsed]. destruct (isFinite n) eqn:F.
  2:{ eapply (parseValue_literal (js "null") JNull rest fuel 110); try done;
        try tauto; intros; discriminate. }
  destruct (laws n F) as (L & _).
  destruct (isNumberLiteral_head _ L) as (c & r & E & Hc).
  rewrite parseValue_S, skipSpace_app by done. rewrite E. cbn [app].
  rewrite skipSpace_start by (unfold valueStart; tauto).
  assert (c <> 34 /\ c <> 91 /\ c <> 123 /\ c <> 110 /\ c <> 116 /\ c <> 102) as (?&?&?&?&?&?).
  { destruct Hc as [->|Hd]; [repeat split; discriminate|].
    unfold isDigit in Hd. apply andb_true_iff in Hd as [?%N.leb_le ?%N.leb_le]. lia. }
  destruct (N.eqb_spec c 34); [done|]. destruct (N.eqb_spec c 91); [done|].
  destruct (N.eqb_spec c 123); [done|]. destruct (N.eqb_spec c 110); [done|].
  destruct (N.eqb_spec c 116); [done|]. destruct (N.eqb_spec c 102); [done|].
  unfold parseNumber. change (c :: r ++ rest) with ((c :: r) ++ rest). rewrite <- E.
  rewrite numberRun_app; [by rewrite L|by apply isNumberLiteral_chars|done].
Qed.

Lemma readsBack_string s : readsBack (JString s).
Proof.
  intros gap indent w rest [|fuel] Hg Hi Hw Hr Hf; [simpl in Hf; lia|].
  cbn [serialize reparsed]. rewrite parseValue_S, skipSpace_app by done.
  unfold quote. cbn [app]. rewrite skipSpace_mark by done.
  change (34 =? 34) with true. cbv iota.
  rewrite <- app_assoc. cbn [app]. by rewrite parseChars_quoteChars.
Qed.

End RoundTrip.

Lemma space_not_numberChar c : isJsonSpace c = true -> isNumberChar c = false.
Proof.
  unfold isJsonSpace. rewrite !orb_true_iff, !N.eqb_eq.
  intros [[[->| ->]| ->]| ->]; reflexivity.
Qed.

Lemma endsNumber_spaces w c rest :
  spaces w -> isNumberChar c = false -> endsNumber (w ++ c :: rest).
Proof.
  intros Hw Hc. destruct Hw as [|d w Hd _]; simpl; [done|]. by apply space_not_numberChar.
Qed.

Lemma skipSpace_spaces_mark w c rest :
  spaces w -> isJsonSpace c = false -> skipSpace (w ++ c :: rest) = c :: rest.
Proof. intros Hw Hc. rewrite skipSpace_app by done. by apply skipSpace_mark. Qed.

Section Containers.
Context `{JsonHost}.
Hypothesis laws : numberLaws.

Lemma parseElements_join gap indent (items : list JsonValue) :
  Forall readsBack items -> items <> [] -> spaces gap -> spaces indent ->
  forall fuel w1 w2 rest,
    spaces w1 -> spaces w2 -> (weightOfItems items <= fuel)%nat ->
    parseElements fuel
      (w1 ++ Pointer.join (44 :: w1) (map (serialize gap indent) items) ++ w2 ++ 93 :: rest)
    = Some (map reparsed items, rest).
Proof.
  intros IH Hne Hg Hi. induction IH as [|x items Hx _ IHitems]; [done|].
  intros [|fuel] w1 w2 rest Hw1 Hw2 Hf; unfold weightOfItems in Hf; cbn [map list_sum fold_right] in Hf; [lia|].
  destruct items as [|y items].
  - cbn [map Pointer.join]. rewrite parseElements_S.
    rewrite (Hx gap indent w1 (w2 ++ 93 :: rest) fuel); try done; [|by apply endsNumber_spaces|lia].
    rewrite skipSpace_spaces_mark by done. reflexivity.
  - cbn [map]. rewrite join_cons2, parseElements_S.
    rewrite <- !app_assoc. cbn [app].
    rewrite (Hx gap indent w1 _ fuel); try done; [|lia].
    rewrite skipSpace_mark by done. change (44 =? 44) with true. cbv iota.
    specialize (IHitems ltac:(done) fuel w1 w2 rest Hw1 Hw2).
    cbn [map] in IHitems. rewrite IHitems; [done|].
    unfold weightOfItems. cbn [map list_sum fold_right]. cbn [map list_sum fold_right] in Hf. lia.
Qed.

Lemma readsBack_array items : Forall readsBack items -> readsBack (JArray items).
Proof.
  intros IH gap indent w rest [|fuel] Hg Hi Hw Hr Hf; cbn [weight] in Hf; [lia|].
  cbn [serialize reparsed]. rewrite parseValue_S.
  destruct items as [|x items].
  - cbn [map wrap app]. rewrite skipSpace_spaces_mark by done.
    change (91 =? 34) with false. change (91 =? 91) with true. cbv iota.
    rewrite skipSpace_mark by done. reflexivity.
  - destruct (wrap_shape 91 93 gap indent (indent ++ gap)
                (map (serialize gap (indent ++ gap)) (x :: items)))
      as (w1 & w2 & Hw1 & Hw2 & ->); [done|done|done|by apply Forall_app|].
    cbn [app]. rewrite skipSpace_spaces_mark by done.
    change (91 =? 34) with false. change (91 =? 91) with true. cbv iota.
    rewrite <- !app_assoc. cbn [app].
    destruct (serialize_start laws gap (indent ++ gap) x) as (c & r & Ex & Hc).
    assert (exists t, Pointer.join (44 :: w1) (map (serialize gap (indent ++ gap)) (x :: items))
                      = c :: t) as [t Et].
    { cbn [map]. destruct (map _ items); simpl; rewrite Ex; eauto. }
    assert (c <> 93) as Hc93.
    { unfold valueStart, isDigit in Hc.
      destruct Hc as [->|[->|[->|[->|[->|[->|[->|Hd]]]]]]]; try discriminate.
      apply andb_true_iff in Hd as [?%N.leb_le ?%N.leb_le]. lia. }
    match goal with
    | |- context [skipSpace ?r] =>
      assert (skipSpace r = c :: t ++ w2 ++ 93 :: rest) as ->
        by (rewrite Et, skipSpace_app by done; cbn [app]; by apply skipSpace_start)
    end.
    destruct (N.eqb_spec c 93); [done|].
    rewrite parseElements_join; try done; [by apply Forall_app|].
    fold (weightOfItems (x :: items)) in Hf. lia.
Qed.

Lemma parseMembers_join gap indent (fields : list (jsstring * JsonValue)) :
  Forall (fun kv => readsBack (snd kv)) fields -> fields <> [] ->
  spaces gap -> spaces indent ->
  forall fuel w1 w2 rest acc,
    spaces w1 -> spaces w2 -> (weightOfFields fields <= fuel)%nat ->
    parseMembers fuel
      (w1 ++ Pointer.join (44 :: w1) (map (member gap indent) fields) ++ w2 ++ 125 :: rest) acc
    = Some (defineAll (map reparsedField fields) acc, rest).
Proof.
  intros IH Hne Hg Hi. induction IH as [|[k x] fields Hx _ IHfields]; [done|].
  intros [|fuel] w1 w2 rest acc Hw1 Hw2 Hf;
    unfold weightOfFields in Hf; cbn [map list_sum fold_right snd] in Hf; [lia|]. simpl in Hx.
  assert (spaces (if Str.truthy gap then [32] else [])) as Hsp.
  { destruct (Str.truthy gap); repeat constructor. }
  destruct fields as [|kv fields].
  - cbn [map Pointer.join]. rewrite parseMembers_S. unfold member at 1. cbn [fst snd]. unfold quote.
    rewrite <- !app_assoc. cbn [app]. rewrite skipSpace_spaces_mark by done.
    change (34 =? 34) with true. cbv iota. rewrite parseChars_quoteChars.
    rewrite skipSpace_mark by done. change (58 =? 58) with true. cbv iota.
    rewrite (Hx gap indent _ (w2 ++ 125 :: rest) fuel); try done; [|by apply endsNumber_spaces|lia].
    cbv zeta. rewrite skipSpace_spaces_mark by done. reflexivity.
  - cbn [map]. rewrite join_cons2, parseMembers_S. unfold member at 1. cbn [fst snd]. unfold quote.
    rewrite <- !app_assoc. cbn [app]. rewrite skipSpace_spaces_mark by done.
    change (34 =? 34) with true. cbv iota. rewrite parseChars_quoteChars.
    rewrite skipSpace_mark by done. change (58 =? 58) with true. cbv iota.
    rewrite (Hx gap indent _ _ fuel); try done; [|lia].
    cbv zeta. rewrite skipSpace_mark by done. change (44 =? 44) with true. cbv iota.
    specialize (IHfields ltac:(done) fuel w1 w2 rest (defineField k (reparsed x) acc) Hw1 Hw2).
    cbn [map] in IHfields. rewrite IHfields; [done|].
    unfold weightOfFields. cbn [map list_sum fold_right]. cbn [map list_sum fold_right] in Hf. lia.
Qed.

Lemma readsBack_object fields :
  Forall (fun kv => readsBack (snd kv)) fields -> readsBack (JObject fields).
Proof.
  intros IH gap indent w rest [|fuel] Hg Hi Hw Hr Hf; cbn [weight] in Hf; [lia|].
  cbn [serialize reparsed]. rewrite parseValue_S.
  destruct fields as [|[k x] fields].
  - cbn [map wrap app]. rewrite skipSpace_spaces_mark by done.
    change (123 =? 34) with false. change (123 =? 91) with false.
    change (123 =? 123) with true. cbv iota.
    rewrite skipSpace_mark by done. reflexivity.
  - fold (member gap (indent ++ gap)).
    change (map (fun kv => quote (fst kv) ++ [58] ++ (if Str.truthy gap then [32] else [])
                           ++ serialize gap (indent ++ gap) (snd kv)))
      with (map (member gap (indent ++ gap))).
    destruct (wrap_shape 123 125 gap indent (indent ++ gap)
                (map (member gap (indent ++ gap)) ((k, x) :: fields)))
      as (w1 & w2 & Hw1 & Hw2 & ->); [done|done|done|by apply Forall_app|].
    cbn [app]. rewrite skipSpace_spaces_mark by done.
    change (123 =? 34) with false. change (123 =? 91) with false.
    change (123 =? 123) with true. cbv iota.
    rewrite <- !app_assoc. cbn [app].
    assert (exists t, Pointer.join (44 :: w1) (map (member gap (indent ++ gap)) ((k, x) :: fields))
                      = 34 :: t) as [t Et].
    { cbn [map]. destruct (map _ fields); simpl; eauto. }
    match goal with
    | |- context [skipSpace ?r] =>
      assert (skipSpace r = 34 :: t ++ w2 ++ 125 :: rest) as ->
        by (rewrite Et, skipSpace_app by done; cbn [app]; by apply skipSpace_mark)
    end.
    change (34 =? 125) with false. cbv iota.
    rewrite parseMembers_join; try done; [by apply Forall_app|].
    fold (weightOfFields ((k, x) :: fields)) in Hf. lia.
Qed.

(** Every value is read back from its text. *)
Lemma readsBack_all (v : JsonValue) : readsBack v.
Proof.
  induction v as [|b|n|s|items IH|fields IH] using JsonValue_nested_ind.
  - apply readsBack_null.
  - apply readsBack_bool.
  - by apply readsBack_number.
  - apply readsBack_string.
  - by apply readsBack_array.
  - by apply readsBack_object.
Qed.

End Containers.

(** *** The text of a value is long enough for the parser's fuel *)

Lemma join_length sep (ps : list jsstring) :
  sep <> [] ->
  (list_sum (map (fun p => S (length p)) ps) <= S (length (Pointer.join sep ps)))%nat.
Proof.
  intros Hs. induction ps as [|p ps IH]; [simpl; lia|].
  destruct ps as [|q ps]; [simpl; lia|].
  rewrite join_cons2, !length_app. cbn [map list_sum foldr] in *.
  destruct sep; [done|]. simpl length in *. lia.
Qed.

Lemma wrap_length opening closing gap stepback indent (partial : list jsstring) :
  (S (list_sum (map (fun p => S (length p)) partial))
   <= length (wrap opening closing gap stepback indent partial))%nat.
Proof.
  unfold wrap. destruct partial as [|p partial]; [simpl; lia|].
  destruct (Str.truthy gap).
  - pose proof (join_length ([44; 10] ++ indent) (p :: partial) ltac:(done)).
    rewrite !length_app. cbn [length]. lia.
  - pose proof (join_length [44] (p :: partial) ltac:(done)).
    rewrite !length_app. cbn [length]. lia.
Qed.

Lemma list_sum_le {A} (f g : A -> nat) (l : list A) :
  Forall (fun x => f x <= g x)%nat l -> (list_sum (map f l) <= list_sum (map g l))%nat.
Proof. induction 1; simpl; lia. Qed.

Section Fuel.
Context `{JsonHost}.
Hypothesis laws : numberLaws.

Lemma serialize_weight (v : JsonValue) : forall gap indent,
  (weight v <= length (serialize gap indent v))%nat.
Proof.
  induction v as [|b|n|s|items IH|fields IH] using JsonValue_nested_ind; intros gap indent.
  1-4: match goal with
       | |- context [serialize ?g ?i ?v] =>
         destruct (serialize_start laws g i v) as (c & r & E & _); rewrite E; cbn [weight length]; lia
       end.
  - cbn [weight serialize].
    etransitivity; [|apply wrap_length]. apply le_n_S. rewrite List.map_map.
    apply list_sum_le. eapply Forall_impl; [exact IH|]. intros x Hx. simpl. apply le_n_S, Hx.
  - cbn [weight serialize].
    etransitivity; [|apply wrap_length]. apply le_n_S. rewrite List.map_map.
    apply list_sum_le. eapply Forall_impl; [exact IH|]. intros [k x] Hx. cbn [fst snd] in *.
    rewrite !length_app. specialize (Hx gap (indent ++ gap)). lia.
Qed.

End Fuel.

(** *** What the parser returns is in the order of [Object.keys] *)

Section Normal.
Context `{JsonHost}.

Lemma normal_array items : normal (JArray items) <-> Forall normal items.
Proof.
  cbn [normal]. induction items as [|x items IH]; simpl.
  - split; [constructor|done].
  - rewrite Forall_cons, IH. tauto.
Qed.

Lemma normal_object fields :
  normal (JObject fields) <->
  ordered (map fst fields) /\ Forall (fun kv => normal (snd kv)) fields.
Proof.
  cbn [normal]. apply and_iff_compat_l. induction fields as [|kv fields IH]; simpl.
  - split; [constructor|done].
  - rewrite Forall_cons, IH. tauto.
Qed.

Lemma literal_value word v s v' r : literal word v s = Some (v', r) -> v' = v.
Proof. unfold literal. destruct (Str.startsWith s word); [|done]. by intros [= <- _]. Qed.

Lemma parser_normal fuel :
  (forall s v r, parseValue fuel s = Some (v, r) -> normal v) /\
  (forall s items r, parseElements fuel s = Some (items, r) -> Forall normal items) /\
  (forall s acc fields r,
     parseMembers fuel s acc = Some (fields, r) ->
     ordered (map fst acc) -> Forall (fun kv => normal (snd kv)) acc ->
     ordered (map fst fields) /\ Forall (fun kv => normal (snd kv)) fields).
Proof.
  induction fuel as [|fuel (IHv & IHe & IHm)]; [done|]. split; [|split].
  - intros s v r. rewrite parseValue_S. destruct (skipSpace s) as [|c t]; [done|].
    destruct (c =? 34).
    { destruct (parseChars t) as [[str r']|]; [|done]. by intros [= <- _]. }
    destruct (c =? 91).
    { destruct (skipSpace t) as [|c' r']; [done|]. destruct (c' =? 93).
      - by intros [= <- _].
      - destruct (parseElements fuel t) as [[items r'']|] eqn:E; [|done].
        intros [= <- _]. apply normal_array. by eapply IHe. }
    destruct (c =? 123).
    { destruct (skipSpace t) as [|c' r']; [done|]. destruct (c' =? 125).
      - intros [= <- _]. apply normal_object. split; constructor.
      - destruct (parseMembers fuel t []) as [[fields r'']|] eqn:E; [|done].
        intros [= <- _]. apply normal_object. eapply IHm; [exact E|constructor|constructor]. }
    destruct (c =? 110); [by intros ->%literal_value|].
    destruct (c =? 116); [by intros ->%literal_value|].
    destruct (c =? 102); [by intros ->%literal_value|].
    unfold parseNumber. destruct (numberRun (c :: t)) as [run rest].
    destruct (isNumberLiteral run); [|done]. by intros [= <- _].
  - intros s items r. rewrite parseElements_S.
    destruct (parseValue fuel s) as [[v t]|] eqn:Ev; [|done].
    destruct (skipSpace t) as [|c r']; [done|]. destruct (c =? 44).
    + destruct (parseElements fuel r') as [[items' r'']|] eqn:Ee; [|done].
      intros [= <- _]. constructor; [by eapply IHv|by eapply IHe].
    + destruct (c =? 93); [|done]. intros [= <- _]. constructor; [by eapply IHv|constructor].
  - intros s acc fields r. rewrite parseMembers_S.
    destruct (skipSpace s) as [|q t]; [done|]. destruct (q =? 34); [|done].
    destruct (parseChars t) as [[key r1]|]; [|done].
    destruct (skipSpace r1) as [|colon r2]; [done|]. destruct (colon =? 58); [|done].
    destruct (parseValue fuel r2) as [[v r3]|] eqn:Ev; [|done].
    destruct (skipSpace r3) as [|c r4]; [done|]. intros E Ho Hn.
    assert (ordered (map fst (defineField key v acc)) /\
            Forall (fun kv => normal (snd kv)) (defineField key v acc)) as [Ho' Hn'].
    { split; [by apply defineField_ordered|]. apply defineField_values; [by eapply IHv|done]. }
    destruct (c =? 44); [by eapply IHm|].
    destruct (c =? 125); [|done]. by injection E as <- _.
Qed.

End Normal.

(** *** The text of the value read back *)

Section Stable.
Context `{JsonHost}.
Hypothesis laws : numberLaws.

Lemma serialize_reparsed (v : JsonValue) : normal v ->
  forall gap indent, serialize gap indent (reparsed v) = serialize gap indent v.
Proof.
  induction v as [|b|n|s|items IH|fields IH] using JsonValue_nested_ind;
    intros Hn gap indent; try done.
  - cbn [reparsed serialize]. destruct (isFinite n) eqn:F; [|done].
    destruct (laws n F) as (_ & F' & E). cbn [serialize]. by rewrite F'.
  - apply normal_array in Hn. cbn [reparsed serialize]. f_equal.
    rewrite List.map_map. apply map_ext_Forall.
    rewrite Forall_forall in IH, Hn. apply Forall_forall. intros x Hx.
    apply IH; [done|]. by apply Hn.
  - apply normal_object in Hn as [Ho Hn]. cbn [reparsed serialize].
    rewrite defineAll_id.
    2:{ simpl. rewrite List.map_map. simpl. exact Ho. }
    simpl. f_equal. rewrite List.map_map. apply map_ext_Forall.
    rewrite Forall_forall in IH, Hn. apply Forall_forall. intros [k x] Hx. simpl.
    by rewrite (IH (k, x) Hx (Hn (k, x) Hx)).
Qed.

End Stable.

Lemma valueStart_not_whitespace c : valueStart c -> Str.isWhiteSpace c = false.
Proof.
  unfold valueStart, isDigit.
  intros [->|[->|[->|[->|[->|[->|[->|Hd]]]]]]]; try reflexivity.
  apply andb_true_iff in Hd as [?%N.leb_le ?%N.leb_le]. unfold Str.isWhiteSpace.
  rewrite !orb_false_iff, !andb_false_iff, !N.leb_gt, !N.eqb_neq. lia.
Qed.

Section Idempotent.
Context `{JsonHost}.
Hypothesis laws : numberLaws.

Lemma parse_stringify (v : JsonValue) (space : option nat) :
  parse (stringify v space) = inl (reparsed v).
Proof.
  unfold parse, stringify.
  pose proof (readsBack_all laws v (gapOf space) [] [] [] (S (length (serialize (gapOf space) [] v)))) as R.
  rewrite app_nil_r in R. cbn [app] in R. rewrite R; [done|..].
  - destruct space; [apply spaces_repeat|constructor].
  - constructor.
  - constructor.
  - done.
  - pose proof (serialize_weight laws v (gapOf space) []). lia.
Qed.

Lemma parse_inl_normal text v : parse text = inl v -> normal v.
Proof.
  unfold parse. destruct (parseValue _ text) as [[v' rest]|] eqn:E; [|done].
  destruct (skipSpace rest); [|done]. intros [= <-].
  by eapply (proj1 (parser_normal _)).
Qed.

Lemma safeJsonParse_normal text v :
  Parse.safeJsonParse (H0 := ecmaJson) text = Parse.Ok v -> normal v.
Proof.
  unfold Parse.safeJsonParse. destruct (negb _); [by intros [= <-]|].
  cbn [Parse.JSON_parse ecmaJson]. destruct (parse text) as [v'|e] eqn:E; [|done].
  intros [= <-]. by eapply parse_inl_normal.
Qed.

Lemma safeJsonParse_stringify (v : JsonValue) (space : option nat) :
  Parse.safeJsonParse (H0 := ecmaJson) (stringify v space) = Parse.Ok (reparsed v).
Proof.
  unfold Parse.safeJsonParse.
  assert (Str.truthy (Str.trim (stringify v space)) = true) as ->.
  { destruct (Str.truthy _) eqn:T; [done|]. apply truthy_trim in T.
    unfold stringify in T. destruct (serialize_start laws (gapOf space) [] v) as (c & r & E & Hc).
    rewrite E in T. inversion T as [|? ? Hw _]; subst.
    rewrite valueStart_not_whitespace in Hw; done. }
  cbn [negb Parse.JSON_parse ecmaJson]. by rewrite parse_stringify.
Qed.

(** The text written for a parsed text is parsed to a value with that text. *)
Lemma restringify text v (space : option nat) :
  Parse.safeJsonParse (H0 := ecmaJson) text = Parse.Ok v ->
  exists v',
    Parse.safeJsonParse (H0 := ecmaJson) (stringify v space) = Parse.Ok v' /\
    stringify v' space = stringify v space.
Proof.
  intros Hn%safeJsonParse_normal. exists (reparsed v). split.
  - apply safeJsonParse_stringify.
  - unfold stringify. by apply serialize_reparsed.
Qed.

(** C7: [formatJson] and [minifyJson] give back the text they wrote. *)
Theorem format_minify_idempotent (text : jsstring) :
  (forall formatted,
     Parse.formatJson (H0 := ecmaJson) text = Parse.Ok formatted ->
     Parse.formatJson (H0 := ecmaJson) formatted = Parse.Ok formatted) /\
  (forall minified,
     Parse.minifyJson (H0 := ecmaJson) text = Parse.Ok minified ->
     Parse.minifyJson (H0 := ecmaJson) minified = Parse.Ok minified).
Proof.
  split; intros out; unfold Parse.formatJson, Parse.minifyJson;
    destruct (Parse.safeJsonParse text) as [v|e] eqn:E; try done;
    intros [= <-]; cbn [Parse.JSON_stringify ecmaJson].
  - destruct (restringify text v (Some 2%nat) E) as (v' & -> & ->). done.
  - destruct (restringify text v None E) as (v' & -> & ->). done.
Qed.

End Idempotent.

(** *** The integers as the host's numbers *)

Lemma uintOf_digitsOf u : uintOf (Pointer.digitsOf u) = u.
Proof. induction u; simpl; congruence. Qed.

Lemma dropDigits_digitsOf u : dropDigits (Pointer.digitsOf u) = [].
Proof. induction u; simpl; done. Qed.

(** The decimal digits of a number have no leading zero. *)
Lemma to_uint_canonical n :
  match N.to_uint n with
  | Decimal.Nil => False
  | Decimal.D0 Decimal.Nil => True
  | Decimal.D0 _ => False
  | _ => True
  end.
Proof.
  pose proof (DecimalN.Unsigned.to_of (N.to_uint n)) as E.
  rewrite DecimalN.Unsigned.of_to in E. rewrite E. unfold Decimal.unorm.
  pose proof (DecimalFacts.nzhead_nonzero (N.to_uint n)) as Hz.
  destruct (Decimal.nzhead (N.to_uint n)) as [|d| | | | | | | | |]; try done.
  by destruct (Hz d).
Qed.

Lemma indexToString_literal n : isNumberLiteral (Pointer.indexToString n) = true.
Proof.
  unfold Pointer.indexToString. pose proof (to_uint_canonical n) as C.
  destruct (N.to_uint n) as [|d|d|d|d|d|d|d|d|d|d]; try done;
    [destruct d; try done; reflexivity|..];
    unfold isNumberLiteral, afterNumber; cbn [Pointer.digitsOf minusPart intPart digits1];
    simpl; by rewrite dropDigits_digitsOf.
Qed.

Lemma indexToString_head n :
  exists c r, Pointer.indexToString n = c :: r /\ c <> 45.
Proof.
  unfold Pointer.indexToString. pose proof (to_uint_canonical n) as C.
  destruct (N.to_uint n); try done; simpl; eexists _, _; (split; [reflexivity|discriminate]).
Qed.

Lemma integerOfString_integerToString z :
  Examples.integerOfString (integerToString z) = z.
Proof.
  unfold integerToString, Examples.integerOfString.
  destruct (Z.ltb_spec z 0).
  - cbn [js app map list_ascii_of_string]. change (N_of_ascii "-") with 45.
    change (45 =? 45) with true. cbv iota.
    unfold Pointer.indexToString. rewrite uintOf_digitsOf, DecimalN.Unsigned.of_to. lia.
  - destruct (indexToString_head (Z.to_N z)) as (c & r & E & Hc). rewrite E.
    destruct (N.eqb_spec c 45); [done|]. rewrite <- E.
    unfold Pointer.indexToString. rewrite uintOf_digitsOf, DecimalN.Unsigned.of_to. lia.
Qed.

Lemma integer_numberLaws : numberLaws (H0 := Examples.integerHost).
Proof.
  intros z _. split; [|split; [done|]].
  - cbn [NumberToString integerNumbers]. unfold integerToString.
    destruct (Z.ltb_spec z 0).
    + pose proof (indexToString_literal (Z.abs_N z)) as L.
      destruct (indexToString_head (Z.abs_N z)) as (c & r & E & Hc).
      unfold isNumberLiteral, afterNumber in *. rewrite E in *.
      cbn [js app map list_ascii_of_string minusPart]. change (N_of_ascii "-") with 45.
      change (45 =? 45) with true. cbv iota.
      cbn [minusPart] in L. destruct (N.eqb_spec c 45); done.
    + apply indexToString_literal.
  - cbn [NumberToString StringToNumber integerNumbers Examples.integerHost].
    by rewrite integerOfString_integerToString.
Qed.

Lemma format_minify_idempotent_witness :
  (forall formatted,
     Parse.formatJson (H0 := Examples.builtins) Examples.text1 = Parse.Ok formatted ->
     Parse.formatJson (H0 := Examples.builtins) formatted = Parse.Ok formatted) /\
  (forall minified,
     Parse.minifyJson (H0 := Examples.builtins) Examples.text1 = Parse.Ok minified ->
     Parse.minifyJson (H0 := Examples.builtins) minified = Parse.Ok minified).
Proof.
  exact (format_minify_idempotent (H0 := Examples.integerHost) integer_numberLaws
           Examples.text1).
Defined.

Example format_example :
  Parse.formatJson (H0 := Examples.builtins) (Examples.jsq "{'b':[1,{}],'10':'x','2':-5}")
  = Parse.Ok (Examples.jsq "{
  '2': -5,
  '10': 'x',
  'b': [
    1,
    {}
  ]
}").
Proof. vm_compute. reflexivity. Qed.

(** ** The tree view, the page, the form view and the route *)

Import Paths.

(** ** The path text of a match *)


Lemma digitsOf_digits u : Forall (fun c => isDigit c = true) (digitsOf u).
Proof. induction u; simpl; constructor; done. Qed.

Lemma indexToString_snoc i :
  exists ds d, indexToString i = ds ++ [d] /\ isDigit d = true /\
               Forall (fun c => isDigit c = true) ds.
Proof.
  pose proof (digitsOf_digits (N.to_uint i)) as Hd. fold (indexToString i) in Hd.
  destruct (indexToString_head i) as (c & r & E & _).
  destruct (exists_last (l := indexToString i)) as (ds & d & E'); [by rewrite E|].
  rewrite E' in Hd. apply Forall_app in Hd as [Hds Hd]. inversion Hd; subst.
  by exists ds, d.
Qed.

(** The text before the last occurrence of a mark. *)
Lemma last_mark_split (m : N) (a1 a2 b1 b2 : jsstring) :
  m ∉ b1 -> m ∉ b2 -> a1 ++ m :: b1 = a2 ++ m :: b2 -> a1 = a2 /\ b1 = b2.
Proof.
  revert a2. induction a1 as [|x a1 IH]; intros [|y a2] H1 H2 E; simpl in E.
  - by injection E.
  - injection E as <- ->. exfalso. apply H1. set_solver.
  - injection E as -> <-. exfalso. apply H2. set_solver.
  - injection E as -> E. by destruct (IH a2 H1 H2 E) as [-> ->].
Qed.


Lemma escapeQuotes_cons c k :
  escapeQuotes (c :: k) = (if c =? 34 then [92; 34] else [c]) ++ escapeQuotes k.
Proof. reflexivity. Qed.

Lemma escapeQuotes_quotesEscaped k : quotesEscaped (escapeQuotes k).
Proof.
  induction k as [|x k [IH1 IH2]]; split.
  - done.
  - intros [|? [|? ?]] c b E; discriminate.
  - intros b. rewrite escapeQuotes_cons. destruct (N.eqb_spec x 34); simpl; congruence.
  - intros a c b. rewrite escapeQuotes_cons. destruct (N.eqb_spec x 34) as [->|Hx]; simpl.
    + destruct a as [|a0 [|a1 a]]; simpl; intros E.
      * congruence.
      * injection E as _ _ E. exfalso. by eapply IH1.
      * injection E as _ _ E. by eapply IH2.
    + destruct a as [|a0 a]; simpl; intros E.
      * injection E as _ E. exfalso. by eapply IH1.
      * injection E as _ E. by eapply IH2.
Qed.

Lemma escapeQuotes_inj k1 k2 : escapeQuotes k1 = escapeQuotes k2 -> k1 = k2.
Proof.
  revert k2. induction k1 as [|x k1 IH]; intros [|y k2]; rewrite ?escapeQuotes_cons.
  - done.
  - destruct (y =? 34); discriminate.
  - destruct (x =? 34); discriminate.
  - destruct (N.eqb_spec x 34) as [->|Hx], (N.eqb_spec y 34) as [->|Hy]; simpl; intros E.
    + injection E as E. f_equal. by apply IH.
    + injection E as <- E. exfalso.
      by eapply (proj1 (escapeQuotes_quotesEscaped k2)).
    + injection E as -> E. exfalso.
      by eapply (proj1 (escapeQuotes_quotesEscaped k1)).
    + injection E as -> E. f_equal. by apply IH.
Qed.

(** The text before the bracket and quote that open an escaped key. *)
Lemma quoted_split (p1 p2 e1 e2 : jsstring) :
  quotesEscaped e1 -> quotesEscaped e2 ->
  p1 ++ 91 :: 34 :: e1 = p2 ++ 91 :: 34 :: e2 -> p1 = p2 /\ e1 = e2.
Proof.
  intros [_ H1] [_ H2]. revert p2. induction p1 as [|x p1 IH]; intros [|y p2] E; simpl in E.
  - by injection E.
  - injection E as <- E. exfalso. destruct p2 as [|z p2]; simpl in E; [discriminate|].
    injection E as <- E. by specialize (H1 _ _ _ E).
  - injection E as -> E. exfalso. destruct p1 as [|z p1]; simpl in E; [discriminate|].
    injection E as -> E. symmetry in E. by specialize (H2 _ _ _ E).
  - injection E as -> E. by destruct (IH p2 E) as [-> ->].
Qed.

Lemma isIdentifier_parts k :
  isIdentifier k = true -> k <> [] /\ Forall (fun c => identPart c = true) k.
Proof.
  destruct k as [|c k]; [done|]. simpl. intros [Hc Hk]%andb_true_iff. split; [done|].
  constructor.
  - unfold identPart. by rewrite Hc.
  - apply List.Forall_forall. by apply forallb_forall.
Qed.

Lemma identPart_no_dot k : Forall (fun c => identPart c = true) k -> 46 ∉ k.
Proof.
  intros Hk Hin. rewrite Forall_forall in Hk. by specialize (Hk _ Hin).
Qed.

Lemma digits_no_bracket ds : Forall (fun c => isDigit c = true) ds -> 91 ∉ ds ++ [93].
Proof.
  intros Hd Hin. apply elem_of_app in Hin as [Hin|Hin].
  - rewrite Forall_forall in Hd. by specialize (Hd _ Hin).
  - by apply list_elem_of_singleton in Hin.
Qed.


Lemma pathJoin_end parent key : pathEnd (pathJoin parent key) key.
Proof.
  destruct key as [k|i]; unfold pathJoin.
  - destruct (isIdentifier k) eqn:Ik.
    + destruct (isIdentifier_parts k Ik) as [Hne Hk].
      destruct (exists_last Hne) as (k' & c & ->).
      apply Forall_app in Hk as [_ Hc]. inversion Hc; subst.
      destruct (Str.truthy parent).
      * rewrite !app_assoc. by apply end_identifier.
      * by apply end_identifier.
    + change [34; 93] with ([34; 93] : jsstring). rewrite !app_assoc. by apply end_quoted.
  - destruct (indexToString_snoc i) as (ds & d & -> & Hd & _).
    change (js "]") with [93]. rewrite <- (app_assoc ds [d] [93]). rewrite !app_assoc.
    rewrite <- (app_assoc _ [d] [93]). by apply end_index.
Qed.

Lemma snoc2_inj (a b : jsstring) (x y u v : N) :
  a ++ [x; y] = b ++ [u; v] -> a = b /\ x = u /\ y = v.
Proof.
  intros E. change [x; y] with ([x] ++ [y]) in E. change [u; v] with ([u] ++ [v]) in E.
  rewrite !app_assoc in E. apply app_inj_tail in E as [E ->]. by apply app_inj_tail in E as [-> ->].
Qed.

Lemma pathJoin_inj (parent1 parent2 : jsstring) (key1 key2 : Seg) :
  pathJoin parent1 key1 = pathJoin parent2 key2 -> parent1 = parent2 /\ key1 = key2.
Proof.
  intros E.
  pose proof (pathJoin_end parent1 key1) as E1. pose proof (pathJoin_end parent2 key2) as E2.
  rewrite E in E1.
  inversion E1 as [b1 c1 k1 I1 C1 Q1 K1|b1 d1 i1 D1 Q1 K1|b1 k1 I1 Q1 K1];
    inversion E2 as [b2 c2 k2 I2 C2 Q2 K2|b2 d2 i2 D2 Q2 K2|b2 k2 I2 Q2 K2];
    subst key1 key2; rewrite <- Q2 in Q1; clear E1 E2 Q2.
  - (* two identifiers *)
    clear Q1. unfold pathJoin in E. rewrite I1, I2 in E.
    destruct (isIdentifier_parts _ I1) as [N1 P1], (isIdentifier_parts _ I2) as [N2 P2].
    apply identPart_no_dot in P1 as D1, P2 as D2.
    destruct (Str.truthy parent1) eqn:T1, (Str.truthy parent2) eqn:T2.
    + apply (last_mark_split 46) in E as [-> ->]; done.
    + exfalso. apply D2. rewrite <- E. set_solver.
    + exfalso. apply D1. rewrite E. set_solver.
    + destruct parent1, parent2; try done. by subst.
  - exfalso. change [d2; 93] with ([d2] ++ [93]) in Q1. rewrite app_assoc in Q1.
    apply app_inj_tail in Q1 as [_ ->]. done.
  - exfalso. change [34; 93] with ([34] ++ [93]) in Q1. rewrite app_assoc in Q1.
    apply app_inj_tail in Q1 as [_ ->]. done.
  - exfalso. change [d1; 93] with ([d1] ++ [93]) in Q1. rewrite app_assoc in Q1.
    apply app_inj_tail in Q1 as [_ <-]. done.
  - clear Q1. unfold pathJoin in E.
    assert (91 ∉ indexToString i1 ++ [93]) as F1.
    { apply digits_no_bracket. apply (digitsOf_digits (N.to_uint i1)). }
    assert (91 ∉ indexToString i2 ++ [93]) as F2.
    { apply digits_no_bracket. apply (digitsOf_digits (N.to_uint i2)). }
    apply (last_mark_split 91) in E as [-> E]; [|done..].
    apply app_inj_tail in E as [E _]. by apply indexToString_inj in E as ->.
  - exfalso. apply snoc2_inj in Q1 as (_ & -> & _). done.
  - exfalso. change [34; 93] with ([34] ++ [93]) in Q1. rewrite app_assoc in Q1.
    apply app_inj_tail in Q1 as [_ <-]. done.
  - exfalso. apply snoc2_inj in Q1 as (_ & <- & _). done.
  - clear Q1. unfold pathJoin in E. rewrite I1, I2 in E.
    assert (parent1 ++ 91 :: 34 :: escapeQuotes k1 = parent2 ++ 91 :: 34 :: escapeQuotes k2) as E'.
    { apply (app_inv_tail [34; 93]). rewrite <- !app_assoc. exact E. }
    apply quoted_split in E' as [-> E']; [|apply escapeQuotes_quotesEscaped..].
    by apply escapeQuotes_inj in E' as ->.
Qed.

(** X1: [pathJoin] is injective in the parent path and the key together: two
    calls give the same text exactly when they have the same parent and the
    same key, an index and the text key of its digits being two keys. *)
Theorem pathJoin_injective (parent1 parent2 : jsstring) (key1 key2 : Seg) :
  pathJoin parent1 key1 = pathJoin parent2 key2 <-> parent1 = parent2 /\ key1 = key2.
Proof.
  split; [apply pathJoin_inj|]. by intros [-> ->].
Qed.

(** An index and the text key of its digits give different paths. *)
Example pathJoin_index_and_key :
  pathJoin (js "rows") (Idx 3) = js "rows[3]" /\
  pathJoin (js "rows") (Key (js "3")) = Examples.jsq "rows['3']" /\
  pathJoin (js "rows") (Key (js "first name")) = Examples.jsq "rows['first name']" /\
  pathJoin (js "rows") (Key (js "name")) = js "rows.name" /\
  pathJoin [] (Key (js "name")) = js "name".
Proof. repeat split; reflexivity. Qed.

(** *** Matches of one document have different places *)

Lemma pathJoin_longer parent key : (length parent < length (pathJoin parent key))%nat.
Proof.
  destruct key as [k|i]; unfold pathJoin.
  - destruct (isIdentifier k) eqn:Ik.
    + destruct (Str.truthy parent) eqn:T.
      * rewrite !length_app. simpl. lia.
      * destruct parent; [|done]. destruct k; [done|]. simpl. lia.
    + rewrite !length_app. simpl. lia.
  - rewrite !length_app. simpl. lia.
Qed.

Lemma fold_pathJoin_length segs : forall parent,
  (length parent <= length (fold_left pathJoin segs parent))%nat.
Proof.
  induction segs as [|seg segs IH]; intros parent; simpl; [lia|].
  specialize (IH (pathJoin parent seg)). pose proof (pathJoin_longer parent seg). lia.
Qed.

(** Two lists of keys that lead from one path to the same path are the same. *)
Lemma fold_pathJoin_inj parent segs1 : forall segs2,
  fold_left pathJoin segs1 parent = fold_left pathJoin segs2 parent -> segs1 = segs2.
Proof.
  induction segs1 as [|k1 segs1 IH] using rev_ind; intros segs2;
    destruct segs2 as [|k2 segs2 _] using rev_ind; rewrite ?fold_left_app; simpl; intros E.
  - done.
  - exfalso. pose proof (pathJoin_longer (fold_left pathJoin segs2 parent) k2).
    pose proof (fold_pathJoin_length segs2 parent). rewrite <- E in *. lia.
  - exfalso. pose proof (pathJoin_longer (fold_left pathJoin segs1 parent) k1).
    pose proof (fold_pathJoin_length segs1 parent). rewrite E in *. lia.
  - apply pathJoin_inj in E as [E ->]. by rewrite (IH _ E).
Qed.

Section Places.
Context `{Numbers} `{Unicode}.
Variable q : jsstring.


Lemma below_step parent key m : below (pathJoin parent key) m -> through parent key m.
Proof. intros (segs & E & _). by exists segs. Qed.

Lemma allMatches_below node : forall parent m, m ∈ allMatches q node parent -> below parent m.
Proof.
  induction node as [|b|n|s|items IH|fields IH] using JsonValue_nested_ind; intros parent m.
  - by intros ?%elem_of_nil.
  - cbn [allMatches]. destruct (Str.includes _ q); [|by intros ?%elem_of_nil].
    intros ->%list_elem_of_singleton. by exists [].
  - cbn [allMatches]. destruct (Str.includes _ q); [|by intros ?%elem_of_nil].
    intros ->%list_elem_of_singleton. by exists [].
  - cbn [allMatches]. destruct (Str.includes _ q); [|by intros ?%elem_of_nil].
    intros ->%list_elem_of_singleton. by exists [].
  - rewrite allMatches_array, elem_of_itemsMatches. intros (j & x & Hj & Hm).
    rewrite List.Forall_forall in IH. apply IH in Hm; [|by eapply list_elem_of_In, list_elem_of_lookup_2].
    destruct (below_step _ _ _ Hm) as (segs & E). by exists (Idx (0 + N.of_nat j) :: segs).
  - rewrite allMatches_object, elem_of_fieldsMatches. intros (j & k & x & Hj & [Hm|Hm]).
    + apply elem_of_keyMatch in Hm as [_ ->]. by exists [Key k].
    + rewrite List.Forall_forall in IH.
      apply (IH (k, x)) in Hm; [|by eapply list_elem_of_In, list_elem_of_lookup_2].
      destruct (below_step _ _ _ Hm) as (segs & E). by exists (Key k :: segs).
Qed.

(** Matches below two different keys of one parent have different paths. *)
Lemma through_apart parent key1 key2 m1 m2 :
  key1 <> key2 -> through parent key1 m1 -> through parent key2 m2 -> path m1 <> path m2.
Proof.
  intros Hne (s1 & E1) (s2 & E2) E. rewrite E1, E2 in E.
  apply fold_pathJoin_inj in E. congruence.
Qed.

Lemma keyMatch_apart parent k m :
  below (pathJoin parent (Key k)) m ->
  place m <> (pathJoin parent (Key k), KeyMatch).
Proof.
  intros (segs & E & Hk) [= Ep Ek]. destruct segs as [|seg segs].
  - rewrite Hk in Ek; done.
  - rewrite E in Ep. by apply (fold_pathJoin_inj _ (seg :: segs) []) in Ep.
Qed.

Lemma NoDup_itemsMatches path items :
  Forall (fun x => forall parent, NoDup (map place (allMatches q x parent))) items ->
  forall i, NoDup (map place (itemsMatches q path items i)).
Proof.
  induction 1 as [|x rest Hx _ IH]; intros i; cbn [itemsMatches]; [constructor|].
  rewrite map_app. apply NoDup_app. split; [apply Hx|]. split; [|apply IH].
  intros pl (m1 & -> & Hm1)%list_elem_of_fmap (m2 & E & Hm2)%list_elem_of_fmap.
  apply allMatches_below, below_step in Hm1.
  apply elem_of_itemsMatches in Hm2 as (j & y & _ & Hm2).
  apply allMatches_below, below_step in Hm2.
  injection E as E _. revert E. eapply through_apart; [|done..]. intros [= ?]. lia.
Qed.

Lemma NoDup_keyMatch path k : NoDup (map place (keyMatch q path k)).
Proof.
  unfold keyMatch. destruct (Str.includes _ q); simpl; [apply NoDup_singleton|constructor].
Qed.

Lemma NoDup_fieldsMatches path fields :
  NoDup (map fst fields) ->
  Forall (fun kv => forall parent, NoDup (map place (allMatches q (snd kv) parent))) fields ->
  NoDup (map place (fieldsMatches q path fields)).
Proof.
  intros Hk Hf. induction Hf as [|[k x] rest Hx _ IH]; cbn [fieldsMatches]; [constructor|].
  simpl in Hk. apply NoDup_cons in Hk as [Hk Hrest].
  rewrite !map_app. apply NoDup_app. split; [apply NoDup_keyMatch|]. split.
  - intros pl (m1 & -> & Hm1)%list_elem_of_fmap Hin.
    apply elem_of_keyMatch in Hm1 as [_ ->]. apply elem_of_app in Hin as [Hin|Hin].
    + apply list_elem_of_fmap in Hin as (m2 & E & Hm2). apply allMatches_below in Hm2.
      symmetry in E. revert E. by apply keyMatch_apart.
    + apply list_elem_of_fmap in Hin as (m2 & E & Hm2).
      apply elem_of_fieldsMatches in Hm2 as (j & k' & y & Hj & Hm2).
      assert (Key k <> Key k') as Hne.
      { intros [= ->]. apply Hk. apply list_elem_of_fmap. exists (k', y).
        split; [done|]. by eapply list_elem_of_lookup_2. }
      assert (through path (Key k') m2) as Hb.
      { destruct Hm2 as [Hm2|Hm2]; [|by eapply below_step, allMatches_below].
        apply elem_of_keyMatch in Hm2 as [_ ->]. by exists []. }
      injection E as E _. revert E. simpl.
      eapply (through_apart path (Key k) (Key k') {| path := pathJoin path (Key k); kind := KeyMatch; preview := k |}); [done| |done].
      by exists [].
  - apply NoDup_app. split; [apply Hx|]. split; [|by apply IH].
    intros pl (m1 & -> & Hm1)%list_elem_of_fmap (m2 & E & Hm2)%list_elem_of_fmap.
    apply allMatches_below, below_step in Hm1.
    apply elem_of_fieldsMatches in Hm2 as (j & k' & y & Hj & Hm2).
    assert (Key k <> Key k') as Hne.
    { intros [= ->]. apply Hk. apply list_elem_of_fmap. exists (k', y).
      split; [done|]. by eapply list_elem_of_lookup_2. }
    assert (through path (Key k') m2) as Hb.
    { destruct Hm2 as [Hm2|Hm2]; [|by eapply below_step, allMatches_below].
      apply elem_of_keyMatch in Hm2 as [_ ->]. by exists []. }
    injection E as E _. revert E. by eapply through_apart.
Qed.

End Places.

Lemma ordered_NoDup ks : ordered ks -> NoDup ks.
Proof. induction 1; constructor; done. Qed.

Lemma NoDup_allMatches `{Numbers} `{Unicode} (q : jsstring) (node : JsonValue) :
  normal node -> forall parent, NoDup (map place (allMatches q node parent)).
Proof.
  induction node as [|b|n|s|items IH|fields IH] using JsonValue_nested_ind; intros Hn parent.
  - constructor.
  - cbn [allMatches]. destruct (Str.includes _ q); simpl; [apply NoDup_singleton|constructor].
  - cbn [allMatches]. destruct (Str.includes _ q); simpl; [apply NoDup_singleton|constructor].
  - cbn [allMatches]. destruct (Str.includes _ q); simpl; [apply NoDup_singleton|constructor].
  - rewrite allMatches_array. apply NoDup_itemsMatches.
    apply normal_array in Hn. rewrite List.Forall_forall in IH, Hn. apply List.Forall_forall.
    intros x Hx. apply IH; [done|]. by apply Hn.
  - rewrite allMatches_object. apply normal_object in Hn as [Ho Hn].
    apply NoDup_fieldsMatches; [by apply ordered_NoDup|].
    rewrite List.Forall_forall in IH, Hn. apply List.Forall_forall.
    intros kv Hx. apply IH; [done|]. by apply Hn.
Qed.

(** X2: in the matches [findMatches] lists for a parsed document, no two have
    the same path and the same kind. *)
Theorem findMatches_places_distinct `{JsonHost} `{Unicode}
  (text : jsstring) (root : JsonValue) (queryRaw : jsstring) (maxMatches : N) :
  Parse.safeJsonParse (H0 := ecmaJson) text = Parse.Ok root ->
  NoDup (map place (findMatches root queryRaw maxMatches)).
Proof.
  intros Hn%safeJsonParse_normal. rewrite findMatches_capped.
  destruct (Str.truthy _); [|constructor].
  change (map place ?l) with (place <$> l). rewrite fmap_take.
  eapply sublist_NoDup; [|apply sublist_take]. by apply NoDup_allMatches.
Qed.

Lemma findMatches_places_distinct_witness :
  exists root,
    Parse.safeJsonParse (H0 := Examples.builtins) Examples.text1 = Parse.Ok root /\
    NoDup (map place (findMatches (H0 := asciiUnicode) root (js "b") 200)).
Proof.
  eexists. split; [vm_compute; reflexivity|].
  apply (findMatches_places_distinct (H0 := Examples.integerHost) (H1 := asciiUnicode) Examples.text1).
  vm_compute. reflexivity.
Defined.

(** *** The tree view's pass over the document *)

Section CollapseFacts.
Context `{Numbers}.
Variable keysToCollapse : gset jsstring.

Lemma visit_object fields :
  Collapse.visit keysToCollapse (JObject fields) =
  JObject (Collapse.entries keysToCollapse fields []).
Proof. reflexivity. Qed.

Lemma entries_defineAll (fields : list (jsstring * JsonValue)) :
  forall out : list (jsstring * JsonValue),
  Forall (fun kv => fst kv <> js "__proto__") fields ->
  Collapse.entries keysToCollapse fields out =
  defineAll (map (fun kv => (fst kv, Collapse.entry keysToCollapse (fst kv) (snd kv))) fields) out.
Proof.
  induction fields as [|[k v] rest IH]; intros out Hp; [done|].
  inversion Hp as [|? ? Hk Hr]; subst. cbn [Collapse.entries map defineAll fold_left fst snd].
  unfold Collapse.assign. rewrite bool_decide_false by done. by apply IH.
Qed.

Lemma withoutKey_object key (fields : list (jsstring * JsonValue)) :
  Collapse.withoutKey key (JObject fields) <->
  Forall (fun kv => fst kv <> key /\ Collapse.withoutKey key (snd kv)) fields.
Proof.
  cbn [Collapse.withoutKey]. induction fields as [|kv rest IH]; simpl.
  - split; [constructor|done].
  - rewrite IH. split; [intros [? ?]; by constructor|by inversion 1].
Qed.

Lemma withoutKey_array key (items : list JsonValue) :
  Collapse.withoutKey key (JArray items) <-> Forall (Collapse.withoutKey key) items.
Proof.
  cbn [Collapse.withoutKey]. induction items as [|x rest IH]; simpl.
  - split; [constructor|done].
  - rewrite IH. split; [intros [? ?]; by constructor|by inversion 1].
Qed.

(** An object of the document, after the pass: the same keys in the same
    order, each with its value after the pass, wrapped with the count of the
    keys it had when the pass collapses it. *)
Lemma visit_in_place (fields : list (jsstring * JsonValue)) :
  normal (JObject fields) -> Collapse.withoutKey (js "__proto__") (JObject fields) ->
  Collapse.visit keysToCollapse (JObject fields) =
  JObject (map (fun kv => (fst kv, Collapse.entry keysToCollapse (fst kv) (snd kv))) fields).
Proof.
  intros [Ho _]%normal_object Hp%withoutKey_object. rewrite visit_object. f_equal.
  rewrite entries_defineAll.
  2:{ eapply Forall_impl; [exact Hp|]. by intros kv [? _]. }
  rewrite defineAll_id; [done|]. simpl. rewrite List.map_map. simpl. done.
Qed.

Lemma keyCount_visit (v : JsonValue) :
  normal v -> Collapse.withoutKey (js "__proto__") v ->
  Collapse.keyCount (Collapse.visit keysToCollapse v) = Collapse.keyCount v.
Proof.
  destruct v as [| | | |items|fields]; try done. intros Hn Hp.
  rewrite visit_in_place by done. simpl. by rewrite length_map.
Qed.

End CollapseFacts.

(** X3: for an object whose keys are in the order of [Object.keys], in a
    document without the key [__proto__], [collapseKeysEverywhere] gives the
    object with the same keys in the same order; under a collapsed key whose
    value is an object or an array stands [{preview, value}], the preview
    counting the keys the value had; every other value is the value after
    the pass. *)
Theorem collapseKeysEverywhere_in_place `{Numbers}
  (keysToCollapse : gset jsstring) (fields : list (jsstring * JsonValue)) :
  normal (JObject fields) -> Collapse.withoutKey (js "__proto__") (JObject fields) ->
  Collapse.collapseKeysEverywhere (JObject fields) keysToCollapse =
  JObject
    (map (fun kv =>
            (fst kv,
             if bool_decide (fst kv ∈ keysToCollapse) && isExpandable (snd kv)
             then JObject [
                    (js "preview",
                     JString (fst kv ++ js " (" ++ lengthToString (Collapse.keyCount (snd kv))
                              ++ js " keys)"));
                    (js "value", Collapse.collapseKeysEverywhere (snd kv) keysToCollapse)]
             else Collapse.collapseKeysEverywhere (snd kv) keysToCollapse))
         fields).
Proof.
  intros Hn Hp. unfold Collapse.collapseKeysEverywhere. rewrite visit_in_place by done.
  f_equal. apply normal_object in Hn as [_ Hn]. apply withoutKey_object in Hp.
  apply map_ext_Forall. rewrite List.Forall_forall in Hn. rewrite Forall_forall in Hp.
  apply List.Forall_forall. intros [k v] Hin. simpl. f_equal. unfold Collapse.entry.
  destruct (bool_decide _ && _); [|done]. unfold Collapse.wrap, Collapse.previewText.
  rewrite keyCount_visit; [done|by apply (Hn (k, v))|].
  apply list_elem_of_In in Hin. by destruct (Hp _ Hin).
Qed.

Lemma collapseKeysEverywhere_in_place_witness :
  Collapse.collapseKeysEverywhere Collapse.metaDocument {[js "meta"]} =
  let num := @JNumber integerNumbers in
  JObject [
    (js "id", num 7%Z);
    (js "meta", JObject [
       (js "preview", JString (js "meta (2 keys)"));
       (js "value", JObject [(js "a", num 1%Z); (js "b", JArray [num 2%Z])])]);
    (js "rows", JArray [JObject [
       (js "meta", JObject [
          (js "preview", JString (js "meta (0 keys)"));
          (js "value", JArray [num 1%Z; num 2%Z])]);
       (js "x", JNull)]])
  ].
Proof.
  unfold Collapse.metaDocument. cbv zeta.
  rewrite (collapseKeysEverywhere_in_place (H := integerNumbers)).
  - vm_compute. reflexivity.
  - apply (safeJsonParse_normal (H0 := Examples.integerHost)
             (Examples.jsq "{'id':7,'meta':{'a':1,'b':[2]},'rows':[{'meta':[1,2],'x':null}]}")).
    vm_compute. reflexivity.
  - vm_compute. repeat split; discriminate.
Defined.

Section CollapseWhole.
Context `{Numbers}.
Variable keysToCollapse : gset jsstring.

Lemma plain_object (fields : list (jsstring * JsonValue)) :
  Collapse.plain keysToCollapse (JObject fields) <->
  Forall (fun kv => fst kv <> js "__proto__" /\
                    (fst kv ∈ keysToCollapse -> isExpandable (snd kv) = false) /\
                    Collapse.plain keysToCollapse (snd kv)) fields.
Proof.
  cbn [Collapse.plain]. induction fields as [|kv rest IH]; simpl.
  - split; [constructor|done].
  - rewrite IH. split; [intros [? ?]; by constructor|by inversion 1].
Qed.

Lemma plain_array (items : list JsonValue) :
  Collapse.plain keysToCollapse (JArray items) <-> Forall (Collapse.plain keysToCollapse) items.
Proof.
  cbn [Collapse.plain]. induction items as [|x rest IH]; simpl.
  - split; [constructor|done].
  - rewrite IH. split; [intros [? ?]; by constructor|by inversion 1].
Qed.

Lemma visit_plain (root : JsonValue) :
  normal root -> Collapse.plain keysToCollapse root ->
  Collapse.visit keysToCollapse root = root.
Proof.
  induction root as [|b|n|s|items IH|fields IH] using JsonValue_nested_ind;
    intros Hn Hp; try done.
  - apply normal_array in Hn. apply plain_array in Hp. cbn [Collapse.visit]. f_equal.
    rewrite <- (map_id items) at 2. apply map_ext_Forall.
    rewrite List.Forall_forall in IH, Hn. rewrite Forall_forall in Hp.
    apply List.Forall_forall. intros x Hx.
    apply IH; [done|by apply Hn|]. by apply Hp, list_elem_of_In.
  - pose proof Hn as [Ho Hn']%normal_object. apply plain_object in Hp.
    rewrite visit_object, entries_defineAll.
    2:{ eapply Forall_impl; [exact Hp|]. by intros kv [? _]. }
    rewrite defineAll_id by (simpl; rewrite List.map_map; exact Ho). simpl. f_equal.
    rewrite <- (map_id fields) at 2. apply map_ext_Forall.
    rewrite List.Forall_forall in IH, Hn'. rewrite Forall_forall in Hp.
    apply List.Forall_forall. intros [k v] Hx. simpl.
    destruct (Hp (k, v)) as (_ & Hc & Hv); [by apply list_elem_of_In|]. simpl in *.
    f_equal. unfold Collapse.entry. case_bool_decide as Hk; simpl.
    + rewrite (Hc Hk). apply (IH (k, v)); [done|by apply (Hn' (k, v))|done].
    + apply (IH (k, v)); [done|by apply (Hn' (k, v))|done].
Qed.

Lemma defineField_keys {A} (Q : jsstring -> Prop) key (value : A) fields :
  Q key -> Forall Q (map fst fields) -> Forall Q (map fst (defineField key value fields)).
Proof.
  intros Hk Hf. unfold defineField. destruct (setField key value fields) as [fields'|] eqn:Es.
  - by rewrite (setField_keys _ _ _ _ Es).
  - destruct (arrayIndex key) as [i|].
    + destruct (insertIndex_keys i key value fields) as (before & after & E1 & E2 & _).
      rewrite E2. rewrite E1 in Hf. apply Forall_app in Hf as [? ?].
      apply Forall_app. split; [done|]. by constructor.
    + rewrite map_app. apply Forall_app. split; [done|]. by repeat constructor.
Qed.

Lemma defineField_both {A} (Q : jsstring -> Prop) (P : A -> Prop) key (value : A) fields :
  Q key -> P value -> Forall (fun kv => Q (fst kv) /\ P (snd kv)) fields ->
  Forall (fun kv => Q (fst kv) /\ P (snd kv)) (defineField key value fields).
Proof.
  intros Hk Hv Hf.
  assert (Forall Q (map fst (defineField key value fields))) as HQ.
  { apply defineField_keys; [done|]. apply Forall_fmap. eapply Forall_impl; [exact Hf|].
    by intros kv [? _]. }
  assert (Forall (fun kv => P (snd kv)) (defineField key value fields)) as HP.
  { apply defineField_values; [done|]. eapply Forall_impl; [exact Hf|]. by intros kv [_ ?]. }
  rewrite Forall_forall in HQ. rewrite Forall_forall in HP. apply Forall_forall.
  intros kv Hin. split; [|by apply HP]. apply HQ, list_elem_of_fmap. by exists kv.
Qed.

Lemma visit_withoutKey (root : JsonValue) :
  Collapse.withoutKey (js "__proto__") (Collapse.visit keysToCollapse root).
Proof.
  induction root as [|b|n|s|items IH|fields IH] using JsonValue_nested_ind; try done.
  - cbn [Collapse.visit]. apply withoutKey_array. apply Forall_fmap.
    eapply Forall_impl; [exact IH|]. done.
  - rewrite visit_object. apply withoutKey_object.
    assert (forall out : list (jsstring * JsonValue),
      Forall (fun kv => fst kv <> js "__proto__" /\
                        Collapse.withoutKey (js "__proto__") (snd kv)) out ->
      Forall (fun kv => fst kv <> js "__proto__" /\
                        Collapse.withoutKey (js "__proto__") (snd kv))
        (Collapse.entries keysToCollapse fields out)) as Hgen; [|by apply Hgen].
    induction IH as [|[k v] rest Hv _ IHrest]; intros out Hout; [done|].
    cbn [Collapse.entries]. apply IHrest. unfold Collapse.assign. case_bool_decide as Hk; [done|].
    apply (defineField_both (fun k => k <> js "__proto__")); [done| |done].
    unfold Collapse.entry. destruct (_ && _); [|done].
    unfold Collapse.wrap. simpl in Hv. cbn. repeat split; done.
Qed.

End CollapseWhole.

(** X4: [collapseKeysEverywhere] gives back a parsed document in which no
    object has the key [__proto__] or a collapsed key with an object or an
    array under it. *)
Theorem collapseKeysEverywhere_plain `{JsonHost}
  (text : jsstring) (root : JsonValue) (keysToCollapse : gset jsstring) :
  Parse.safeJsonParse (H0 := ecmaJson) text = Parse.Ok root ->
  Collapse.plain keysToCollapse root ->
  Collapse.collapseKeysEverywhere root keysToCollapse = root.
Proof. intros Hn%safeJsonParse_normal Hp. by apply visit_plain. Qed.

Lemma collapseKeysEverywhere_plain_witness :
  exists root,
    Parse.safeJsonParse (H0 := Examples.builtins) Examples.text1 = Parse.Ok root /\
    Collapse.collapseKeysEverywhere root {[js "meta"]} = root.
Proof.
  eexists. split; [vm_compute; reflexivity|].
  apply (collapseKeysEverywhere_plain (H0 := Examples.integerHost) Examples.text1).
  - vm_compute. reflexivity.
  - cbn. rewrite !elem_of_singleton. repeat split; discriminate.
Defined.

(** X5: no object of the value [collapseKeysEverywhere] returns has the own
    key [__proto__]: the assignment [out[k] = v] defines no property for it. *)
Theorem collapseKeysEverywhere_drops_proto `{Numbers}
  (root : JsonValue) (keysToCollapse : gset jsstring) :
  Collapse.withoutKey (js "__proto__") (Collapse.collapseKeysEverywhere root keysToCollapse).
Proof. apply visit_withoutKey. Qed.

(** *** The page's memos and buttons *)

Lemma allMatches_orEmptyObject `{Numbers} `{Unicode} (q : jsstring) (value : JsonValue) :
  allMatches q (Page.orEmptyObject value) [] = allMatches q value [].
Proof. by destruct value. Qed.

(** X6: the matches the page lists.  There are at most 200; each is a match
    of the parsed document for the trimmed, lower-cased search text, which
    has two code units or more after trimming; with fewer than 200 listed,
    every such match is listed. *)
Theorem page_matches_scope `{Numbers} `{Unicode}
  (parsed : Parse.Result JsonValue) (search : jsstring) :
  let q := toLowerCase (Str.trim search) in
  N.of_nat (length (Page.matches parsed search)) <= 200 /\
  (forall m, m ∈ Page.matches parsed search ->
     exists value, parsed = Parse.Ok value /\ (2 <= length (Str.trim search))%nat /\
                   isMatch value q m) /\
  (forall value, parsed = Parse.Ok value -> (2 <= length (Str.trim search))%nat ->
     Str.truthy q = true ->
     N.of_nat (length (Page.matches parsed search)) < 200 ->
     forall m, isMatch value q m -> m ∈ Page.matches parsed search).
Proof.
  intros q. unfold Page.matches. destruct parsed as [value|error].
  2:{ repeat split; [simpl; lia|by intros m ?%elem_of_nil|done]. }
  destruct (Nat.ltb_spec (length (Str.trim search)) 2) as [Hs|Hs].
  { repeat split; [simpl; lia|by intros m ?%elem_of_nil|lia]. }
  rewrite findMatches_capped, allMatches_orEmptyObject. fold q.
  destruct (Str.truthy q) eqn:Hq.
  2:{ repeat split; [simpl; lia|by intros m ?%elem_of_nil|done]. }
  repeat split.
  - apply capped_length.
  - intros m Hm. exists value. repeat split; [done|].
    apply (allMatches_sound q value m value []); [constructor|]. eapply subseteq_take, Hm.
  - intros value' [= <-] _ _ Hlt m Hm. rewrite firstn_all2.
    + by apply allMatches_complete.
    + rewrite length_firstn in Hlt. lia.
Qed.

(** X7: a smaller cap gives the first matches of a larger one. *)
Theorem findMatches_cap_prefix `{Numbers} `{Unicode}
  (root : JsonValue) (queryRaw : jsstring) (cap more : N) :
  findMatches root queryRaw cap =
  firstn (N.to_nat cap) (findMatches root queryRaw (cap + more)).
Proof.
  rewrite !findMatches_capped. destruct (Str.truthy _); [|by rewrite firstn_nil].
  rewrite firstn_firstn. f_equal. lia.
Qed.

Section Buttons.
Context `{JsonHost}.
Hypothesis laws : numberLaws.

Lemma stringify_reparsed text (v : JsonValue) (space : option nat) :
  Parse.safeJsonParse (H0 := ecmaJson) text = Parse.Ok v ->
  stringify (reparsed v) space = stringify v space.
Proof. intros Hn%safeJsonParse_normal. unfold stringify. by apply serialize_reparsed. Qed.

(** X8: Minify after Format leaves the text Minify alone leaves, and Format
    after Minify the text Format alone leaves. *)
Theorem format_minify_compose (view : Page.View) :
  Page.raw (Page.doMinify (H0 := ecmaJson) (Page.doFormat (H0 := ecmaJson) view)) =
    Page.raw (Page.doMinify (H0 := ecmaJson) view) /\
  Page.raw (Page.doFormat (H0 := ecmaJson) (Page.doMinify (H0 := ecmaJson) view)) =
    Page.raw (Page.doFormat (H0 := ecmaJson) view).
Proof.
  unfold Page.doFormat, Page.doMinify, Parse.formatJson, Parse.minifyJson.
  destruct (Parse.safeJsonParse (Page.raw view)) as [v|e] eqn:E; cbn [Page.raw].
  2:{ rewrite E. done. }
  cbn [Parse.JSON_stringify ecmaJson].
  rewrite !(safeJsonParse_stringify laws). cbn [Page.raw].
  by rewrite !(stringify_reparsed _ _ _ E).
Qed.

(** X9: the auto-format effect changes nothing when it runs on its own result. *)
Theorem autoFormatEffect_idempotent (autoFormat : bool) (raw : jsstring) :
  Page.autoFormatEffect (H0 := ecmaJson) autoFormat
    (Page.autoFormatEffect (H0 := ecmaJson) autoFormat raw) =
  Page.autoFormatEffect (H0 := ecmaJson) autoFormat raw.
Proof.
  destruct autoFormat; [|done].
  destruct (Parse.safeJsonParse (H0 := ecmaJson) raw) as [v|e] eqn:E.
  2:{ unfold Page.autoFormatEffect. cbn [negb]. by rewrite E, E. }
  destruct (Str.includes raw [10] && Str.includes raw [32; 32]) eqn:I.
  { unfold Page.autoFormatEffect. cbn [negb]. by rewrite E, I, E, I. }
  assert (Page.autoFormatEffect (H0 := ecmaJson) true raw = stringify v (Some 2%nat)) as ->.
  { unfold Page.autoFormatEffect. cbn [negb]. rewrite E, I. cbn [Parse.JSON_stringify ecmaJson].
    case_bool_decide as Hd; [done|].
    destruct (decide (stringify v (Some 2%nat) = raw)) as [Heq|Hne]; [by rewrite Heq|by destruct Hd]. }
  clear I. unfold Page.autoFormatEffect. cbn [negb]. rewrite (safeJsonParse_stringify laws).
  destruct (_ && _); [done|]. cbn [Parse.JSON_stringify ecmaJson].
  rewrite (stringify_reparsed _ _ _ E). by case_bool_decide.
Qed.

End Buttons.

Lemma format_minify_compose_witness :
  let view := {| Page.raw := Examples.text1; Page.viewerKey := 0; Page.toast := [] |} in
  Page.raw (Page.doMinify (H0 := Examples.builtins) (Page.doFormat (H0 := Examples.builtins) view)) =
    Page.raw (Page.doMinify (H0 := Examples.builtins) view) /\
  Page.raw (Page.doFormat (H0 := Examples.builtins) (Page.doMinify (H0 := Examples.builtins) view)) =
    Page.raw (Page.doFormat (H0 := Examples.builtins) view).
Proof.
  exact (format_minify_compose (H0 := Examples.integerHost) integer_numberLaws
           {| Page.raw := Examples.text1; Page.viewerKey := 0; Page.toast := [] |}).
Defined.

Lemma autoFormatEffect_idempotent_witness :
  Page.autoFormatEffect (H0 := Examples.builtins) true
    (Page.autoFormatEffect (H0 := Examples.builtins) true Examples.text1) =
  Page.autoFormatEffect (H0 := Examples.builtins) true Examples.text1.
Proof.
  exact (autoFormatEffect_idempotent (H0 := Examples.integerHost) integer_numberLaws
           true Examples.text1).
Defined.

(** X10: what the page saves, a reload restores.  The theme read back is the
    theme saved, in either order of the two persist effects; the text read
    back is the text saved when the link has no share token and the text is
    not empty, and the text the page starts with when the saved text is
    empty; a saved theme that is not [light] loads as dark. *)
Theorem reload_restores (storage : Page.Storage) (theme : Page.Theme) (raw : jsstring) :
  let saved := Page.persistJson raw (Page.persistTheme theme storage) in
  Page.persistTheme theme (Page.persistJson raw storage) = saved /\
  Page.loadTheme saved = theme /\
  (forall (codec : Share.Codec) (hash initial : jsstring),
     Share.fromHash hash = None ->
     Page.loadJson hash saved initial = if Str.truthy raw then raw else initial) /\
  (forall other, other <> js "light" ->
     Page.loadTheme (<[Page.LS_THEME_KEY := other]> storage) = Page.Dark).
Proof.
  intros saved. unfold saved, Page.persistJson, Page.persistTheme.
  split; [|split; [|split]].
  - apply insert_insert_ne. done.
  - unfold Page.loadTheme. rewrite lookup_insert_ne by done. rewrite lookup_insert_eq.
    by destruct theme.
  - intros codec hash initial Hh. unfold Page.loadJson, Share.loadRaw.
    rewrite Hh, lookup_insert_eq. done.
  - intros other Ho. unfold Page.loadTheme. rewrite lookup_insert_eq.
    by rewrite bool_decide_false.
Qed.

(** *** The remote-fetch route: what it answers *)

Section ProxyAnswers.
Context `{Proxy.UrlParser}.
Import Proxy.

Lemma refused_dec (url : option jsstring) : refused url \/ ~ refused url.
Proof.
  unfold refused. destruct url as [u|]; [|by left].
  destruct (decide (u = [])) as [->|Hu]; [left; by left|].
  destruct (parseURL u) as [parsed|]; [|left; by right].
  destruct (decide (protocol parsed = js "https:")) as [Hs|Hs]; [|left; by right].
  right. by intros [?|?].
Qed.

Lemma GET_refused (url : option jsstring) :
  refused url ->
  forall oracle, fetches (GET url) oracle = [] /\ status (response (GET url) oracle) = 400 /\
                 exists error, body (response (GET url) oracle) = ErrorBody error.
Proof.
  unfold refused, GET. intros Hr oracle.
  destruct url as [[|c u]|]; [by eauto..| |by eauto].
  destruct Hr as [?|Hr]; [done|]. cbn [Str.truthy negb].
  destruct (parseURL (c :: u)) as [parsed|]; [|by eauto].
  rewrite bool_decide_false by done. by eauto.
Qed.

Lemma GET_accepted (url : option jsstring) :
  ~ refused url ->
  exists u parsed, url = Some u /\ u <> [] /\ parseURL u = Some parsed /\
                   protocol parsed = js "https:".
Proof.
  unfold refused. destruct url as [u|]; [|by intros []]. intros Hr.
  destruct (parseURL u) as [parsed|] eqn:Ep; [|by destruct Hr; right].
  exists u, parsed. repeat split; try done.
  - intros ->. apply Hr. by left.
  - destruct (decide (protocol parsed = js "https:")); [done|]. destruct Hr. by right.
Qed.

Lemma GET_fetched (u : jsstring) (parsed : URL) oracle :
  u <> [] -> parseURL u = Some parsed -> protocol parsed = js "https:" ->
  fetches (GET (Some u)) oracle = [href parsed] /\
  response (GET (Some u)) oracle =
    match oracle (href parsed) with
    | Rejected e => {| status := 502; body := ErrorBody (messageOr (js "Fetch failed") e) |}
    | Fulfilled res =>
      if negb (ok res)
      then {| status := 502; body := ErrorBody (upstreamError (upstreamStatus res)) |}
      else
        match readText res with
        | inr e => {| status := 502; body := ErrorBody (messageOr (js "Fetch failed") e) |}
        | inl text =>
          if 2000000 <? N.of_nat (length text)
          then {| status := 413; body := ErrorBody (js "Response too large (>2MB)") |}
          else {| status := 200; body := TextBody text |}
        end
    end.
Proof.
  intros Hu Hp Hs. unfold GET. destruct u; [done|]. cbn [Str.truthy negb].
  rewrite Hp, bool_decide_true by done. cbn [negb fetches response].
  destruct (oracle (href parsed)) as [e|res]; [done|].
  destruct (ok res); cbn [negb]; [|done].
  destruct (readText res) as [text|e]; [|done].
  by destruct (2000000 <? _).
Qed.

(** X11: the proxy answers with a text exactly when the url is not empty,
    parses with the scheme https, the fetch of its href is fulfilled with an
    ok response whose text is read and has at most 2,000,000 code units; the
    text answered is that text. *)
Theorem proxy_ok_exactly (url : option jsstring) (oracle : jsstring -> FetchOutcome)
  (text : jsstring) :
  response (GET url) oracle = {| status := 200; body := TextBody text |} <->
  exists u parsed res,
    url = Some u /\ u <> [] /\ parseURL u = Some parsed /\ protocol parsed = js "https:" /\
    oracle (href parsed) = Fulfilled res /\ ok res = true /\ readText res = inl text /\
    N.of_nat (length text) <= 2000000.
Proof.
  split.
  - intros Hr. destruct (refused_dec url) as [Href|Hacc].
    { destruct (GET_refused url Href oracle) as (_ & Hs & _). by rewrite Hr in Hs. }
    destruct (GET_accepted url Hacc) as (u & parsed & -> & Hu & Hp & Hs).
    destruct (GET_fetched u parsed oracle Hu Hp Hs) as [_ E]. rewrite E in Hr.
    destruct (oracle (href parsed)) as [e|res] eqn:Eo; [done|].
    destruct (ok res) eqn:Eok; cbn [negb] in Hr; [|done].
    destruct (readText res) as [text'|e] eqn:Et; [|done].
    destruct (N.ltb_spec 2000000 (N.of_nat (length text'))); [done|].
    injection Hr as <-. by exists u, parsed, res.
  - intros (u & parsed & res & -> & Hu & Hp & Hs & Eo & Eok & Et & Hl).
    destruct (GET_fetched u parsed oracle Hu Hp Hs) as [_ E]. rewrite E, Eo, Eok, Et.
    cbn [negb]. destruct (N.ltb_spec 2000000 (N.of_nat (length text))); [lia|done].
Qed.

(** X12: whatever the upstream does, the proxy fetches at most once, and only
    the href of an https URL; it fetches nothing exactly when it answers 400;
    its status is 200, 400, 413 or 502; and every answer but 200 has an
    error body. *)
Theorem proxy_answers (url : option jsstring) (oracle : jsstring -> FetchOutcome) :
  (fetches (GET url) oracle = [] \/
   exists u parsed, url = Some u /\ parseURL u = Some parsed /\
                    protocol parsed = js "https:" /\
                    fetches (GET url) oracle = [href parsed]) /\
  (fetches (GET url) oracle = [] <-> status (response (GET url) oracle) = 400) /\
  status (response (GET url) oracle) ∈ [200; 400; 413; 502] /\
  (status (response (GET url) oracle) <> 200 ->
   exists error, body (response (GET url) oracle) = ErrorBody error).
Proof.
  destruct (refused_dec url) as [Href|Hacc].
  { destruct (GET_refused url Href oracle) as (Hf & Hs & Hb).
    rewrite Hf, Hs. repeat split; [by left|set_solver|done]. }
  destruct (GET_accepted url Hacc) as (u & parsed & -> & Hu & Hp & Hs).
  destruct (GET_fetched u parsed oracle Hu Hp Hs) as [Ef E]. rewrite Ef, E.
  split; [right; by exists u, parsed|].
  destruct (oracle (href parsed)) as [e|res]; [|destruct (ok res); cbn [negb];
    [destruct (readText res) as [text|e]; [destruct (2000000 <? _)|]|]];
    cbn [status body]; (split; [done|]); (split; [set_solver|]); eauto; done.
Qed.

End ProxyAnswers.

(** *** When [pointerFromSegments] throws *)

Lemma encodeURIComponent_illFormed s : isWellFormed s = false -> encodeURIComponent s = None.
Proof.
  remember (length s) as n eqn:Hn. revert s Hn.
  induction (lt_wf n) as [n _ IH]. intros s -> W.
  destruct s as [|c rest]; [done|]. cbn [encodeURIComponent isWellFormed] in *.
  destruct (uriUnescaped c) eqn:U.
  { destruct (uriUnescaped_not_surrogate c U) as [L T]. rewrite L, T in W.
    rewrite (IH (length rest)); simpl; [done|lia|done|done]. }
  destruct (isLeadingSurrogate c).
  { destruct rest as [|d rest']; [done|]. destruct (isTrailingSurrogate d); [|done].
    simpl in W. rewrite (IH (length rest')); simpl; [done|lia|done|done]. }
  destruct (isTrailingSurrogate c); [done|].
  rewrite (IH (length rest)); simpl; [done|lia|done|done].
Qed.

Lemma encodeURIComponent_defined s : is_Some (encodeURIComponent s) <-> isWellFormed s = true.
Proof.
  split; [|apply encodeURIComponent_total].
  intros [r E]. destruct (isWellFormed s) eqn:W; [done|].
  by rewrite encodeURIComponent_illFormed in E.
Qed.

Lemma segToPointer_defined seg : is_Some (segToPointer seg) <-> wellFormedSeg seg.
Proof.
  destruct seg as [k|i]; simpl.
  - apply encodeURIComponent_defined.
  - split; [done|]. intros _. apply encodeURIComponent_total, digitsOf_wellFormed.
Qed.

Lemma mapSegs_defined segs : is_Some (mapSegs segs) <-> Forall wellFormedSeg segs.
Proof.
  split; [|apply mapSegs_total].
  induction segs as [|seg segs IH]; [constructor|]. simpl. intros [ps E].
  destruct (segToPointer seg) as [p|] eqn:Ep; [|done].
  destruct (mapSegs segs) as [ps'|]; [|done].
  constructor; [apply segToPointer_defined; by rewrite Ep|]. by apply IH.
Qed.

Lemma pointerFromSegments_defined segs :
  is_Some (pointerFromSegments segs) <-> Forall wellFormedSeg segs.
Proof.
  split; [|apply pointerFromSegments_total].
  unfold pointerFromSegments. destruct segs as [|seg segs]; [constructor|].
  intros [p E]. apply mapSegs_defined. by destruct (mapSegs (seg :: segs)).
Qed.

Lemma not_wellFormed_key segs :
  ~ Forall wellFormedSeg segs <-> exists k, Key k ∈ segs /\ isWellFormed k = false.
Proof.
  split.
  - induction segs as [|seg segs IH]; intros Hn; [by destruct Hn|].
    destruct seg as [k|i].
    + destruct (isWellFormed k) eqn:W.
      * destruct (IH ltac:(intros HF; apply Hn; by constructor)) as (k' & Hin & Hw).
        exists k'. split; [by right|done].
      * exists k. split; [by left|done].
    + destruct (IH ltac:(intros HF; apply Hn; by constructor)) as (k' & Hin & Hw).
      exists k'. split; [by right|done].
  - intros (k & Hin & Hw) HF. rewrite Forall_forall in HF. specialize (HF _ Hin).
    simpl in HF. congruence.
Qed.

Lemma None_not_Some {A} (o : option A) : o = None <-> ~ is_Some o.
Proof.
  destruct o as [a|]; split; try done.
  intros Hn. destruct Hn. by eexists.
Qed.

(** X13: [pointerFromSegments] throws exactly for a path with a text key that
    has an unpaired surrogate, and then, and only then, the handlers
    [toggle] and [ensureOpen] throw; indices never make them throw. *)
Theorem pointerFromSegments_throws_exactly (segs : list Seg) (prev : gset jsstring) :
  let illFormed := exists k, Key k ∈ segs /\ isWellFormed k = false in
  (pointerFromSegments segs = None <-> illFormed) /\
  (toggle segs prev = None <-> illFormed) /\
  (ensureOpen segs prev = None <-> illFormed).
Proof.
  intros illFormed. unfold illFormed. rewrite <- not_wellFormed_key.
  rewrite <- pointerFromSegments_defined. rewrite <- None_not_Some.
  split; [done|]. split.
  - unfold toggle. by destruct (pointerFromSegments segs).
  - split.
    + intros E. destruct (pointerFromSegments segs) as [p|] eqn:Ep; [|done]. exfalso.
      assert (Forall wellFormedSeg segs) as W by (apply pointerFromSegments_defined; by rewrite Ep).
      unfold ensureOpen in E.
      destruct (ancestorPointers_total segs (length segs) W) as [ps Eps]. by rewrite Eps in E.
    + intros Ep. destruct (ensureOpen segs prev) as [next|] eqn:E; [|done]. exfalso.
      destruct (ensureOpen_spec _ _ _ E) as [_ Hq].
      destruct (Hq segs) as (p & Ep' & _); [done|]. congruence.
Qed.

(** *** Toggling twice *)

Lemma encodeURIComponent_nil s : encodeURIComponent s = Some [] -> s = [].
Proof.
  destruct s as [|c rest]; [done|]. intros E. exfalso.
  destruct (encode_step (c :: rest) [] E) as (e & r & o & St & Eo & Er); [done|].
  apply step_nonempty in St. by destruct e.
Qed.

Lemma pointer_root_iff segs :
  pointerFromSegments segs = Some rootPointer <-> segs = [] \/ segs = [Key []].
Proof.
  split; [|by intros [->| ->]].
  destruct segs as [|seg rest]; [by left|]. intros E. right.
  unfold pointerFromSegments in E. cbn [mapSegs] in E.
  destruct (segToPointer seg) as [p|] eqn:Ep; [|done].
  destruct (mapSegs rest) as [ps|] eqn:Eps; [|done].
  injection E as E.
  destruct ps as [|p' ps].
  - destruct rest as [|seg' rest]; [|simpl in Eps; by repeat case_match].
    simpl in E. subst p. unfold segToPointer in Ep. apply encodeURIComponent_nil in Ep.
    destruct seg as [k|i]; simpl in Ep; [by subst|].
    destruct (indexToString_head i) as (c & r & Ei & _). congruence.
  - exfalso. rewrite join_cons in E by done. by destruct p.
Qed.

Lemma toggle_at_root (segs : list Seg) (prev next : gset jsstring) :
  rootPointer ∈ prev -> pointerFromSegments segs = Some rootPointer ->
  toggle segs prev = Some next -> next = prev.
Proof.
  intros Hr Ep. unfold toggle. rewrite Ep. intros [= <-].
  rewrite decide_True by done. apply set_eq. intros x.
  destruct (decide (x = rootPointer)) as [->|]; set_solver.
Qed.

Lemma toggle_away_from_root (segs : list Seg) (p : jsstring) (prev next : gset jsstring) :
  rootPointer ∈ prev -> pointerFromSegments segs = Some p -> p <> rootPointer ->
  toggle segs prev = Some next -> toggle segs next = Some prev.
Proof.
  intros Hr Ep Hp. unfold toggle. rewrite Ep. intros [= <-]. f_equal.
  destruct (decide (p ∈ prev)) as [Hin|Hout].
  - rewrite decide_False by set_solver. apply set_eq. intros x.
    destruct (decide (x = p)) as [->|]; [set_solver|].
    destruct (decide (x = rootPointer)) as [->|]; set_solver.
  - rewrite decide_True by set_solver. apply set_eq. intros x.
    destruct (decide (x = p)) as [->|]; [set_solver|].
    destruct (decide (x = rootPointer)) as [->|]; set_solver.
Qed.

(** X14: on a set with the root open, toggling a path twice gives the set
    back, for every path but the root and the empty text key of the root;
    toggling one of those two, whose pointer is the root's, changes nothing. *)
Theorem toggle_twice (segs : list Seg) (prev next : gset jsstring) :
  rootPointer ∈ prev -> toggle segs prev = Some next ->
  (segs = [] \/ segs = [Key []] -> next = prev) /\
  (segs <> [] -> segs <> [Key []] -> toggle segs next = Some prev).
Proof.
  intros Hr E. split.
  - intros Hs%pointer_root_iff. by eapply toggle_at_root.
  - intros N1 N2. destruct (pointerFromSegments segs) as [p|] eqn:Ep.
    + eapply toggle_away_from_root; try done. intros ->.
      apply pointer_root_iff in Ep as [?|?]; done.
    + unfold toggle in E. by rewrite Ep in E.
Qed.

Lemma toggle_twice_witness :
  (([Key (js "user"); Idx 3] : list Seg) = [] \/ [Key (js "user"); Idx 3] = [Key []] ->
   {[js "/user/3"]} ∪ initialExpanded = initialExpanded) /\
  (([Key (js "user"); Idx 3] : list Seg) <> [] -> [Key (js "user"); Idx 3] <> [Key []] ->
   toggle [Key (js "user"); Idx 3] ({[js "/user/3"]} ∪ initialExpanded) = Some initialExpanded).
Proof.
  apply (toggle_twice [Key (js "user"); Idx 3] initialExpanded).
  - unfold initialExpanded. set_solver.
  - unfold toggle. change (pointerFromSegments [Key (js "user"); Idx 3]) with (Some (js "/user/3")).
    cbv beta iota zeta. rewrite decide_False.
    + f_equal; unfold initialExpanded; set_solver.
    + unfold initialExpanded, rootPointer. rewrite elem_of_singleton. discriminate.
Defined.

(** *** The breadcrumb *)

Lemma ancestorPointers_elems segs n ps :
  ancestorPointers segs n = Some ps ->
  forall p, p ∈ ps -> exists i, (i <= n)%nat /\ pointerFromSegments (firstn i segs) = Some p.
Proof.
  revert ps. induction n as [|n IH]; simpl; intros ps E p Hp.
  - injection E as <-. apply list_elem_of_singleton in Hp as ->. by exists 0%nat.
  - destruct (ancestorPointers segs n) as [ps'|]; [|done].
    destruct (pointerFromSegments (firstn (n + 1) segs)) as [p'|] eqn:Ep; [|done].
    injection E as <-. apply elem_of_app in Hp as [Hp|Hp].
    + destruct (IH ps' eq_refl p Hp) as (i & Hi & Ei). exists i. split; [lia|done].
    + apply list_elem_of_singleton in Hp as ->. exists (n + 1)%nat. split; [lia|done].
Qed.

Lemma fold_add_absorbed (ps : list jsstring) (next : gset jsstring) :
  (forall p, p ∈ ps -> p ∈ next) -> fold_left (fun next p => {[p]} ∪ next) ps next = next.
Proof.
  intros Hps. apply set_eq. intros x. rewrite fold_add_elem. split; [|by right].
  intros [Hx|Hx]; [by apply Hps|done].
Qed.

(** Opening a path again, or one of its prefixes, changes nothing. *)
Lemma ensureOpen_absorb (segs q : list Seg) (prev next : gset jsstring) :
  ensureOpen segs prev = Some next -> q `prefix_of` segs -> ensureOpen q next = Some next.
Proof.
  intros E Hq. destruct (ensureOpen_spec _ _ _ E) as [_ Hopen].
  assert (Forall wellFormedSeg q) as W.
  { apply pointerFromSegments_defined. destruct (Hopen q Hq) as (p & -> & _). by eexists. }
  unfold ensureOpen. destruct (ancestorPointers_total q (length q) W) as [ps Eps].
  rewrite Eps. f_equal. apply fold_add_absorbed. intros p Hp.
  destruct (ancestorPointers_elems _ _ _ Eps p Hp) as (i & Hi & Ei).
  destruct (Hopen (firstn i q)) as (p' & Ep' & Hin).
  { etrans; [apply prefix_take|done]. }
  congruence.
Qed.

Lemma elem_of_breadcrumbParts (selected : list Seg) (b : Form.Crumb) :
  b ∈ Form.breadcrumbParts selected ->
  exists i, (i <= length selected)%nat /\ Form.crumbSegs b = firstn i selected.
Proof.
  unfold Form.breadcrumbParts. intros [->|Hb]%elem_of_cons.
  - exists 0%nat. split; [lia|done].
  - apply elem_of_lookup_imap in Hb as (i & seg & -> & Hi). exists (i + 1)%nat.
    apply lookup_lt_Some in Hi. split; [lia|done].
Qed.

(** X15: after a node is selected, the breadcrumb has one part for the root
    and one for each key of the path; the path of every part is a prefix of
    the selected path whose pointer is open, and a click on the part selects
    that prefix and leaves the set of open pointers as it is. *)
Theorem breadcrumb_click (segs : list Seg) (state state' : Form.FormState) :
  Form.onSelect segs state = Some state' ->
  length (Form.breadcrumbParts (Form.selected state')) = S (length segs) /\
  forall b, b ∈ Form.breadcrumbParts (Form.selected state') ->
    Form.crumbSegs b `prefix_of` segs /\
    (exists p, pointerFromSegments (Form.crumbSegs b) = Some p /\ p ∈ Form.expanded state') /\
    Form.onSelect (Form.crumbSegs b) state' =
      Some {| Form.expanded := Form.expanded state'; Form.selected := Form.crumbSegs b |}.
Proof.
  unfold Form.onSelect. destruct (ensureOpen segs (Form.expanded state)) as [next|] eqn:E; [|done].
  intros [= <-]. cbn [Form.selected Form.expanded]. split.
  - unfold Form.breadcrumbParts. simpl. by rewrite length_imap.
  - intros b (i & Hi & ->)%elem_of_breadcrumbParts.
    assert (firstn i segs `prefix_of` segs) as Hq by apply prefix_take.
    split; [done|]. split.
    + by apply (ensureOpen_spec _ _ _ E).
    + by rewrite (ensureOpen_absorb _ _ _ _ E Hq).
Qed.

Lemma breadcrumb_click_witness :
  exists state',
    Form.onSelect [Key (js "user"); Idx 3; Key (js "first name")] Form.initialState = Some state' /\
    length (Form.breadcrumbParts (Form.selected state')) = 4%nat /\
    forall b, b ∈ Form.breadcrumbParts (Form.selected state') ->
      Form.crumbSegs b `prefix_of` [Key (js "user"); Idx 3; Key (js "first name")] /\
      (exists p, pointerFromSegments (Form.crumbSegs b) = Some p /\ p ∈ Form.expanded state') /\
      Form.onSelect (Form.crumbSegs b) state' =
        Some {| Form.expanded := Form.expanded state'; Form.selected := Form.crumbSegs b |}.
Proof.
  eexists. split; [reflexivity|].
  apply (breadcrumb_click [Key (js "user"); Idx 3; Key (js "first name")] Form.initialState).
  reflexivity.
Defined.

(** *** The rows of the form view *)

Section RenderFacts.
Context `{Numbers}.
Variable expanded : gset jsstring.
Variable selectedPointer : jsstring.

Abbreviation renderNode := (Form.renderNode expanded selectedPointer).
Abbreviation renderItems := (Form.renderItems expanded selectedPointer).
Abbreviation renderFields := (Form.renderFields expanded selectedPointer).
Abbreviation inner := (Form.inner expanded selectedPointer).
Abbreviation rowOf := (Form.rowOf expanded selectedPointer).

Lemma renderNode_array items segs depth :
  renderNode (JArray items) segs depth = renderItems segs depth items 0.
Proof. reflexivity. Qed.

Lemma renderNode_object fields segs depth :
  renderNode (JObject fields) segs depth = renderFields segs depth fields.
Proof. reflexivity. Qed.

Lemma renderItems_rows segs depth items : forall i rs,
  renderItems segs depth items i = Some rs ->
  forall r, r ∈ rs <->
    exists j child p,
      items !! j = Some child /\
      pointerFromSegments (segs ++ [Idx (i + N.of_nat j)]) = Some p /\
      (r = rowOf child (segs ++ [Idx (i + N.of_nat j)]) (Idx (i + N.of_nat j)) p depth \/
       exists below, inner child (segs ++ [Idx (i + N.of_nat j)]) p depth = Some below /\
                     r ∈ below).
Proof.
  induction items as [|x rest IH]; intros i rs; cbn [Form.renderItems].
  - intros [= <-] r. rewrite elem_of_nil. split; [done|]. by intros (j & ? & ? & Hj & _).
  - destruct (pointerFromSegments (segs ++ [Idx i])) as [p|] eqn:Ep; [|done].
    destruct (inner x (segs ++ [Idx i]) p depth) as [below|] eqn:Eb; [|done].
    destruct (renderItems segs depth rest (N.succ i)) as [others|] eqn:Eo; [|done].
    intros [= <-] r. rewrite elem_of_cons, elem_of_app, (IH _ _ Eo). split.
    + intros [->|[Hr|(j & child & p' & Hj & Ep' & Hr)]].
      * exists 0%nat, x, p. rewrite N.add_0_r. split; [done|]. split; [done|]. by left.
      * exists 0%nat, x, p. rewrite N.add_0_r. split; [done|]. split; [done|]. right. by exists below.
      * exists (S j), child, p'. replace (i + N.of_nat (S j)) with (N.succ i + N.of_nat j) by lia. done.
    + intros ([|j] & child & p' & Hj & Ep' & Hr).
      * injection Hj as <-. rewrite N.add_0_r in Ep', Hr. rewrite Ep in Ep'. injection Ep' as <-.
        destruct Hr as [->|(below' & Eb' & Hr)]; [by left|]. right. left. congruence.
      * right. right. exists j, child, p'.
        replace (N.succ i + N.of_nat j) with (i + N.of_nat (S j)) by lia. done.
Qed.

Lemma renderFields_rows segs depth fields : forall rs,
  renderFields segs depth fields = Some rs ->
  forall r, r ∈ rs <->
    exists j k child p,
      fields !! j = Some (k, child) /\
      pointerFromSegments (segs ++ [Key k]) = Some p /\
      (r = rowOf child (segs ++ [Key k]) (Key k) p depth \/
       exists below, inner child (segs ++ [Key k]) p depth = Some below /\ r ∈ below).
Proof.
  induction fields as [|[k x] rest IH]; intros rs; cbn [Form.renderFields].
  - intros [= <-] r. rewrite elem_of_nil. split; [done|]. by intros (j & ? & ? & ? & Hj & _).
  - destruct (pointerFromSegments (segs ++ [Key k])) as [p|] eqn:Ep; [|done].
    destruct (inner x (segs ++ [Key k]) p depth) as [below|] eqn:Eb; [|done].
    destruct (renderFields segs depth rest) as [others|] eqn:Eo; [|done].
    intros [= <-] r. rewrite elem_of_cons, elem_of_app, (IH _ eq_refl). split.
    + intros [->|[Hr|(j & k' & child & p' & Hj & Ep' & Hr)]].
      * exists 0%nat, k, x, p. split; [done|]. split; [done|]. by left.
      * exists 0%nat, k, x, p. split; [done|]. split; [done|]. right. by exists below.
      * by exists (S j), k', child, p'.
    + intros ([|j] & k' & child & p' & Hj & Ep' & Hr).
      * injection Hj as <- <-. rewrite Ep in Ep'. injection Ep' as <-.
        destruct Hr as [->|(below' & Eb' & Hr)]; [by left|]. right. left. congruence.
      * right. right. by exists j, k', child, p'.
Qed.

Lemma keysWellFormed_array (items : list JsonValue) :
  Form.keysWellFormed (JArray items) <-> Forall Form.keysWellFormed items.
Proof.
  cbn [Form.keysWellFormed]. induction items as [|x rest IH]; simpl.
  - split; [constructor|done].
  - rewrite IH. split; [intros [? ?]; by constructor|by inversion 1].
Qed.

Lemma keysWellFormed_object (fields : list (jsstring * JsonValue)) :
  Form.keysWellFormed (JObject fields) <->
  Forall (fun kv => isWellFormed (fst kv) = true /\ Form.keysWellFormed (snd kv)) fields.
Proof.
  cbn [Form.keysWellFormed]. induction fields as [|kv rest IH]; simpl.
  - split; [constructor|done].
  - rewrite IH. split; [intros [? ?]; by constructor|by inversion 1].
Qed.

(** With well-formed keys the rendering does not throw. *)
Lemma renderNode_total (node : JsonValue) : forall segs depth,
  Form.keysWellFormed node -> Forall wellFormedSeg segs -> is_Some (renderNode node segs depth).
Proof.
  induction node as [|b|n|s|items IH|fields IH] using JsonValue_nested_ind;
    intros segs depth Hk Hs; try by eexists.
  - rewrite renderNode_array. apply keysWellFormed_array in Hk. generalize 0 as i.
    induction IH as [|x rest Hx _ IHrest]; intros i; [by eexists|].
    inversion Hk as [|? ? Kx Kr]; subst. cbn [Form.renderItems].
    assert (Forall wellFormedSeg (segs ++ [Idx i])) as W by (apply Forall_app; by repeat constructor).
    destruct (pointerFromSegments_total _ W) as [p ->].
    assert (is_Some (inner x (segs ++ [Idx i]) p depth)) as [below ->].
    { unfold Form.inner. destruct (_ && _); [by apply Hx|by eexists]. }
    destruct (IHrest Kr (N.succ i)) as [others ->]. by eexists.
  - rewrite renderNode_object. apply keysWellFormed_object in Hk.
    induction IH as [|[k x] rest Hx _ IHrest]; [by eexists|].
    inversion Hk as [|? ? [Kk Kx] Kr]; subst. cbn [Form.renderFields]. simpl in *.
    assert (Forall wellFormedSeg (segs ++ [Key k])) as W by (apply Forall_app; by repeat constructor).
    destruct (pointerFromSegments_total _ W) as [p ->].
    assert (is_Some (inner x (segs ++ [Key k]) p depth)) as [below ->].
    { unfold Form.inner. destruct (_ && _); [by apply Hx|by eexists]. }
    destruct (IHrest Kr) as [others ->]. by eexists.
Qed.

(** Every row is at a path below the node, and the nodes between are open. *)
Lemma renderNode_under (node : JsonValue) : forall segs depth rs r,
  renderNode node segs depth = Some rs -> r ∈ rs ->
  exists rest, rest <> [] /\ Form.rowSegs r = segs ++ rest /\
    pointerFromSegments (Form.rowSegs r) = Some (Form.rowPointer r) /\
    Form.rowDepth r = (depth + length rest - 1)%nat /\
    forall n, (0 < n < length rest)%nat ->
      exists p, pointerFromSegments (segs ++ firstn n rest) = Some p /\ p ∈ expanded.
Proof.
  induction node as [|b|n|s|items IH|fields IH] using JsonValue_nested_ind;
    intros segs depth rs r E Hr; try (injection E as <-; by apply elem_of_nil in Hr).
  - rewrite renderNode_array in E. apply (renderItems_rows _ _ _ _ _ E) in Hr
      as (j & child & p & Hj & Ep & Hr).
    destruct Hr as [->|(below & Eb & Hr)].
    + exists [Idx (0 + N.of_nat j)]. simpl. repeat split; try done; [lia|]. intros n Hn. lia.
    + unfold Form.inner in Eb. destruct (isExpandable child && bool_decide (p ∈ expanded)) eqn:Eo.
      2:{ injection Eb as <-. by apply elem_of_nil in Hr. }
      apply andb_true_iff in Eo as [_ Ho%bool_decide_eq_true].
      rewrite List.Forall_forall in IH.
      destruct (IH child (proj1 (list_elem_of_In _ _) (list_elem_of_lookup_2 _ _ _ Hj)) _ _ _ _ Eb Hr)
        as (rest & Hne & Es & Ep' & Ed & Hopen).
      exists (Idx (0 + N.of_nat j) :: rest). split; [done|]. split; [by rewrite Es, <- app_assoc|].
      split; [done|]. split; [simpl; destruct rest; [done|simpl in *; lia]|].
      intros [|n] Hn; [lia|]. simpl in Hn. destruct n as [|n].
      * exists p. simpl. by rewrite firstn_0.
      * destruct (Hopen (S n)) as (p' & Ep'' & Hp'); [lia|]. exists p'. split; [|done].
        rewrite <- Ep''. cbn [firstn]. by rewrite <- app_assoc.
  - rewrite renderNode_object in E. apply (renderFields_rows _ _ _ _ E) in Hr
      as (j & k & child & p & Hj & Ep & Hr).
    destruct Hr as [->|(below & Eb & Hr)].
    + exists [Key k]. simpl. repeat split; try done; [lia|]. intros n Hn. lia.
    + unfold Form.inner in Eb. destruct (isExpandable child && bool_decide (p ∈ expanded)) eqn:Eo.
      2:{ injection Eb as <-. by apply elem_of_nil in Hr. }
      apply andb_true_iff in Eo as [_ Ho%bool_decide_eq_true].
      rewrite List.Forall_forall in IH.
      destruct (IH (k, child) (proj1 (list_elem_of_In _ _) (list_elem_of_lookup_2 _ _ _ Hj)) _ _ _ _ Eb Hr)
        as (rest & Hne & Es & Ep' & Ed & Hopen).
      exists (Key k :: rest). split; [done|]. split; [by rewrite Es, <- app_assoc|].
      split; [done|]. split; [simpl; destruct rest; [done|simpl in *; lia]|].
      intros [|n] Hn; [lia|]. simpl in Hn. destruct n as [|n].
      * exists p. simpl. by rewrite firstn_0.
      * destruct (Hopen (S n)) as (p' & Ep'' & Hp'); [lia|]. exists p'. split; [|done].
        rewrite <- Ep''. cbn [firstn]. by rewrite <- app_assoc.
Qed.

End RenderFacts.

Section RenderShows.
Context `{Numbers}.
Variable expanded : gset jsstring.
Variable selectedPointer : jsstring.

Abbreviation renderNode := (Form.renderNode expanded selectedPointer).
Abbreviation renderItems := (Form.renderItems expanded selectedPointer).
Abbreviation renderFields := (Form.renderFields expanded selectedPointer).
Abbreviation inner := (Form.inner expanded selectedPointer).
Abbreviation rowOf := (Form.rowOf expanded selectedPointer).

Lemma renderItems_defined segs depth items : forall i rs j child,
  renderItems segs depth items i = Some rs -> items !! j = Some child ->
  exists p below, pointerFromSegments (segs ++ [Idx (i + N.of_nat j)]) = Some p /\
                  inner child (segs ++ [Idx (i + N.of_nat j)]) p depth = Some below.
Proof.
  induction items as [|x rest IH]; intros i rs j child; cbn [Form.renderItems]; [done|].
  destruct (pointerFromSegments (segs ++ [Idx i])) as [p|] eqn:Ep; [|done].
  destruct (inner x (segs ++ [Idx i]) p depth) as [below|] eqn:Eb; [|done].
  destruct (renderItems segs depth rest (N.succ i)) as [others|] eqn:Eo; [|done].
  intros _. destruct j as [|j]; simpl.
  - intros [= <-]. rewrite N.add_0_r. by exists p, below.
  - intros Hj. replace (i + N.of_nat (S j)) with (N.succ i + N.of_nat j) by lia.
    by eapply IH.
Qed.

Lemma renderFields_defined segs depth fields : forall rs j k child,
  renderFields segs depth fields = Some rs -> fields !! j = Some (k, child) ->
  exists p below, pointerFromSegments (segs ++ [Key k]) = Some p /\
                  inner child (segs ++ [Key k]) p depth = Some below.
Proof.
  induction fields as [|[k' x] rest IH]; intros rs j k child; cbn [Form.renderFields]; [done|].
  destruct (pointerFromSegments (segs ++ [Key k'])) as [p|] eqn:Ep; [|done].
  destruct (inner x (segs ++ [Key k']) p depth) as [below|] eqn:Eb; [|done].
  destruct (renderFields segs depth rest) as [others|] eqn:Eo; [|done].
  intros _. destruct j as [|j]; simpl.
  - intros [= <- <-]. by exists p, below.
  - intros Hj. by eapply IH.
Qed.

Lemma fieldOf_lookup k (fields : list (jsstring * JsonValue)) child :
  Form.fieldOf k fields = Some child -> exists j, fields !! j = Some (k, child).
Proof.
  induction fields as [|[k' x] rest IH]; simpl; [done|]. case_bool_decide as Hk.
  - intros [= <-]. subst. by exists 0%nat.
  - intros (j & Hj)%IH. by exists (S j).
Qed.

Lemma valueAt_container (node v : JsonValue) seg rest :
  Form.valueAt node (seg :: rest) = Some v -> isExpandable node = true.
Proof. simpl. by destruct node, seg. Qed.

(** The row of a path of the document is rendered when the nodes between
    the rendered node and the path are open. *)
Lemma renderNode_shows (rest : list Seg) : forall (node : JsonValue) segs depth rs v,
  rest <> [] -> Form.valueAt node rest = Some v -> renderNode node segs depth = Some rs ->
  (forall n, (0 < n < length rest)%nat ->
     exists p, pointerFromSegments (segs ++ firstn n rest) = Some p /\ p ∈ expanded) ->
  exists r, r ∈ rs /\ Form.rowSegs r = segs ++ rest /\
            pointerFromSegments (segs ++ rest) = Some (Form.rowPointer r) /\
            Form.rowValue r = Form.summarizeValue v /\
            Form.rowExpandable r = isExpandable v /\
            Form.rowSelected r = bool_decide (selectedPointer = Form.rowPointer r) /\
            Form.rowOpen r = bool_decide (Form.rowPointer r ∈ expanded).
Proof.
  induction rest as [|seg rest IH]; intros node segs depth rs v Hne Hv E Hopen; [done|].
  assert (exists child p below,
    Form.childAt node seg = Some child /\
    pointerFromSegments (segs ++ [seg]) = Some p /\
    inner child (segs ++ [seg]) p depth = Some below /\
    (forall r, r = rowOf child (segs ++ [seg]) seg p depth \/ r ∈ below -> r ∈ rs))
    as (child & p & below & Ec & Ep & Eb & Hin).
  { cbn [Form.valueAt] in Hv. destruct (Form.childAt node seg) as [child|] eqn:Ec; [|done].
    exists child. destruct node as [| | | |items|fields], seg as [k|i]; try done; simpl in Ec.
    - rewrite renderNode_array in E.
      destruct (renderItems_defined _ _ _ _ _ _ _ E Ec) as (p & below & Ep & Eb).
      rewrite N.add_0_l, N2Nat.id in Ep, Eb.
      exists p, below. repeat split; try done. intros r Hr.
      apply (renderItems_rows _ _ _ _ _ _ _ E). exists (N.to_nat i), child, p.
      rewrite N.add_0_l, N2Nat.id.
      split; [done|]. split; [done|]. destruct Hr as [->|Hr]; [by left|right; by exists below].
    - apply fieldOf_lookup in Ec as Hj. destruct Hj as (j & Hj).
      rewrite renderNode_object in E.
      destruct (renderFields_defined _ _ _ _ _ _ _ E Hj) as (p & below & Ep & Eb).
      exists p, below. repeat split; try done. intros r Hr.
      apply (renderFields_rows _ _ _ _ _ _ E). exists j, k, child, p.
      split; [done|]. split; [done|]. destruct Hr as [->|Hr]; [by left|right; by exists below]. }
  cbn [Form.valueAt] in Hv. rewrite Ec in Hv. destruct rest as [|seg' rest'].
  - injection Hv as <-. exists (rowOf child (segs ++ [seg]) seg p depth).
    split; [apply Hin; by left|]. by repeat split.
  - assert (p ∈ expanded) as Hp.
    { destruct (Hopen 1%nat) as (p' & Ep' & Hp'); [simpl; lia|]. simpl in Ep'. congruence. }
    unfold Form.inner in Eb. rewrite (valueAt_container _ _ _ _ Hv) in Eb.
    rewrite bool_decide_true in Eb by done. cbn [andb] in Eb.
    destruct (IH child (segs ++ [seg]) (S depth) below v) as (r & Hr & Es & Epr & Hrest);
      [done|done|done| |].
    { intros n Hn. destruct (Hopen (S n)) as (p' & Ep' & Hp'); [simpl in *; lia|].
      exists p'. split; [|done]. rewrite <- Ep'. cbn [firstn]. by rewrite <- app_assoc. }
    exists r. split; [apply Hin; by right|]. rewrite <- !app_assoc in Es, Epr. done.
Qed.

End RenderShows.

(** *** Selecting, expanding and collapsing in the form view *)

Section FormViewer.
Context `{Numbers}.

Lemma fieldOf_elem k (fields : list (jsstring * JsonValue)) child :
  Form.fieldOf k fields = Some child -> (k, child) ∈ fields.
Proof.
  induction fields as [|[k' x] rest IH]; simpl; [done|]. case_bool_decide as Hk.
  - intros [= <-]. subst. by left.
  - intros Hc. right. by apply IH.
Qed.

Lemma childAt_wellFormed (node child : JsonValue) seg :
  Form.keysWellFormed node -> Form.childAt node seg = Some child ->
  wellFormedSeg seg /\ Form.keysWellFormed child.
Proof.
  destruct node as [| | | |items|fields], seg as [k|i]; try done; simpl; intros Hk Hc.
  - apply keysWellFormed_array in Hk. rewrite Forall_forall in Hk. split; [done|].
    by eapply Hk, list_elem_of_lookup_2.
  - apply keysWellFormed_object in Hk. rewrite Forall_forall in Hk.
    by apply (Hk (k, child)), fieldOf_elem.
Qed.

Lemma valueAt_wellFormed segs : forall node v : JsonValue,
  Form.keysWellFormed node -> Form.valueAt node segs = Some v ->
  Forall wellFormedSeg segs /\ Form.keysWellFormed v.
Proof.
  induction segs as [|seg segs IH]; intros node v Hk; simpl.
  - intros [= <-]. by split.
  - destruct (Form.childAt node seg) as [child|] eqn:Ec; [|done]. intros Hv.
    destruct (childAt_wellFormed _ _ _ Hk Ec) as [Hs Hc].
    destruct (IH child v Hc Hv) as [Hr Hv']. split; [by constructor|done].
Qed.

Lemma valueAt_app a : forall (b : list Seg) (node v : JsonValue),
  Form.valueAt node (a ++ b) = Some v ->
  exists c, Form.valueAt node a = Some c /\ Form.valueAt c b = Some v.
Proof.
  induction a as [|seg a IH]; intros b node v; simpl; [by exists node|].
  destruct (Form.childAt node seg) as [child|]; [|done]. apply IH.
Qed.

Lemma proper_prefix (q segs : list Seg) :
  q `prefix_of` segs -> q <> segs -> exists n, (n < length segs)%nat /\ q = firstn n segs.
Proof.
  intros [k ->] Hne. exists (length q). rewrite length_app, firstn_app, firstn_all, Nat.sub_diag.
  simpl. rewrite app_nil_r. split; [|done]. destruct k; [by rewrite app_nil_r in Hne|simpl; lia].
Qed.

(** X16: selecting a node of the document opens what is needed to see it.
    With well-formed keys, [onSelect] of a path of the document returns, and
    the rows rendered after it have the row of that path, highlighted, with
    the summary of the value at the path. *)
Theorem onSelect_shows_row (value v : JsonValue) (segs : list Seg) (state : Form.FormState) :
  Form.keysWellFormed value -> Form.valueAt value segs = Some v -> segs <> [] ->
  exists state' rs r,
    Form.onSelect segs state = Some state' /\
    Form.rows value state' = Some rs /\
    r ∈ rs /\ Form.rowSegs r = segs /\ Form.rowSelected r = true /\
    Form.rowValue r = Form.summarizeValue v.
Proof.
  intros Hk Hv Hne. destruct (valueAt_wellFormed _ _ _ Hk Hv) as [W _].
  destruct (ancestorPointers_total segs (length segs) W) as [ps Eps].
  assert (exists next, ensureOpen segs (Form.expanded state) = Some next) as [next E].
  { unfold ensureOpen. rewrite Eps. by eexists. }
  destruct (ensureOpen_spec _ _ _ E) as [_ Hopen].
  pose proof (ensureOpen_root_in _ _ _ E) as Hroot.
  destruct (pointerFromSegments_total segs W) as [sp Esp].
  destruct (renderNode_total next sp value [] 0 Hk) as [rs Ers]; [constructor|].
  destruct (renderNode_shows next sp segs value [] 0 rs v Hne Hv Ers)
    as (r & Hr & Es & Ep & Hval & _ & Hsel & _).
  { intros n Hn. apply Hopen, prefix_take. }
  simpl in Es, Ep. exists {| Form.expanded := next; Form.selected := segs |}, rs, r.
  unfold Form.onSelect, Form.rows. rewrite E. cbn [Form.selected Form.expanded].
  rewrite Esp, bool_decide_true by done. repeat split; try done.
  rewrite Hsel. apply bool_decide_eq_true. congruence.
Qed.

(** X17: a row is rendered only under open nodes: its path is not the root's,
    its depth is the number of keys above it, and the pointer of every
    proper prefix of its path, the root's among them, is in the set of open
    pointers. *)
Theorem rows_under_open (value : JsonValue) (state : Form.FormState) (rs : list Form.Row) :
  Form.rows value state = Some rs ->
  Forall (fun r =>
            Form.rowSegs r <> [] /\
            S (Form.rowDepth r) = length (Form.rowSegs r) /\
            forall q, q `prefix_of` Form.rowSegs r -> q <> Form.rowSegs r ->
              exists p, pointerFromSegments q = Some p /\ p ∈ Form.expanded state) rs.
Proof.
  unfold Form.rows. destruct (pointerFromSegments (Form.selected state)) as [sp|]; [|done].
  case_bool_decide as Hroot; [|intros [= <-]; constructor].
  intros E. apply Forall_forall. intros r Hr.
  destruct (renderNode_under _ _ _ _ _ _ _ E Hr) as (rest & Hne & Es & _ & Ed & Hopen).
  simpl in Es, Hopen. rewrite Es. split; [done|]. split.
  { rewrite Ed. destruct rest; [done|simpl; lia]. }
  intros q Hq Hneq. destruct (proper_prefix _ _ Hq Hneq) as (n & Hn & ->).
  destruct n as [|n]; [by exists rootPointer|]. apply Hopen. lia.
Qed.

End FormViewer.

Section FormViewerAll.
Context `{Numbers}.

Lemma containerPaths_item (segs q : list Seg) (items : list JsonValue) j x :
  items !! j = Some x -> q ∈ containerPaths x (segs ++ [Idx (N.of_nat j)]) ->
  q ∈ containerPaths (JArray items) segs.
Proof.
  intros Hj Hq. cbn [containerPaths]. right.
  replace (N.of_nat j) with (0 + N.of_nat j) in Hq by lia. revert Hj Hq.
  generalize 0 as i. revert j.
  induction items as [|y rest IH]; intros j i Hj Hq; [done|]. apply elem_of_app.
  destruct j as [|j]; simpl in Hj.
  - injection Hj as ->. left. by rewrite N.add_0_r in Hq.
  - right. apply (IH j); [done|]. by replace (N.succ i + N.of_nat j) with (i + N.of_nat (S j)) by lia.
Qed.

Lemma containerPaths_field (segs q : list Seg) (fields : list (jsstring * JsonValue)) j k x :
  fields !! j = Some (k, x) -> q ∈ containerPaths x (segs ++ [Key k]) ->
  q ∈ containerPaths (JObject fields) segs.
Proof.
  intros Hj Hq. cbn [containerPaths]. right. revert j Hj.
  induction fields as [|[k' y] rest IH]; intros j Hj; [done|]. apply elem_of_app.
  destruct j as [|j]; simpl in Hj.
  - injection Hj as -> ->. by left.
  - right. by apply (IH j).
Qed.

(** The path of every object and array of the document is one of the paths
    [collectExpandablePointers] walks. *)
Lemma containerPaths_valueAt (q : list Seg) : forall (node c : JsonValue) base,
  Form.valueAt node q = Some c -> isExpandable c = true ->
  base ++ q ∈ containerPaths node base.
Proof.
  induction q as [|seg q IH]; intros node c base; simpl.
  - intros [= <-] Hc. rewrite app_nil_r. destruct node; try done; by left.
  - destruct (Form.childAt node seg) as [child|] eqn:Ec; [|done]. intros Hv Hc.
    specialize (IH child c (base ++ [seg]) Hv Hc). rewrite <- app_assoc in IH. simpl in IH.
    destruct node as [| | | |items|fields], seg as [k|i]; try done; simpl in Ec.
    + apply (containerPaths_item _ _ _ (N.to_nat i) child); [done|]. by rewrite N2Nat.id.
    + apply fieldOf_lookup in Ec as (j & Hj). by apply (containerPaths_field _ _ _ j k child).
Qed.

(** X18: after Expand all that did not hit its cap, every path of the
    document has its row rendered, and the rows of objects and arrays are
    open. *)
Theorem expandAll_shows_every_row (value v : JsonValue) (segs : list Seg)
  (state state' : Form.FormState) :
  Form.keysWellFormed value -> Forall wellFormedSeg (Form.selected state) ->
  Form.onExpandAll value state = Some state' ->
  N.of_nat (size (Form.expanded state')) < 6000 ->
  Form.valueAt value segs = Some v -> segs <> [] ->
  exists rs r,
    Form.rows value state' = Some rs /\ r ∈ rs /\ Form.rowSegs r = segs /\
    (isExpandable v = true -> Form.rowOpen r = true).
Proof.
  intros Hk Hsel E Hsize Hv Hne. unfold Form.onExpandAll in E. rewrite expandAll_unfold in E.
  destruct (fill 6000 (containerPaths value []) ∅) as [collected|] eqn:Ef; [|done].
  injection E as <-. cbn [Form.expanded] in Hsize.
  assert (N.of_nat (size collected) < 6000) as Hc.
  { assert (size collected <= size ({[rootPointer]} ∪ collected))%nat
      by (apply subseteq_size; set_solver). lia. }
  assert (forall q c, Form.valueAt value q = Some c -> isExpandable c = true ->
            exists p, pointerFromSegments q = Some p /\
                      p ∈ ({[rootPointer]} ∪ collected : gset jsstring)) as Hopen.
  { intros q c Hq Hexp. destruct (fill_complete _ _ _ _ Ef Hc q) as (p & Ep & Hp).
    - by apply (containerPaths_valueAt q value c []).
    - exists p. split; [done|]. set_solver. }
  destruct (pointerFromSegments_total _ Hsel) as [sp Esp].
  destruct (renderNode_total ({[rootPointer]} ∪ collected) sp value [] 0 Hk) as [rs Ers];
    [constructor|].
  destruct (renderNode_shows _ sp segs value [] 0 rs v Hne Hv Ers)
    as (r & Hr & Es & Ep & _ & _ & _ & Ho).
  { intros n Hn. simpl. rewrite <- (take_drop n segs) in Hv.
    apply valueAt_app in Hv as (c & Hc1 & Hc2). apply (Hopen _ c Hc1).
    destruct (drop n segs) as [|seg rest] eqn:Ed.
    - apply (f_equal length) in Ed. rewrite length_drop in Ed. simpl in Ed. lia.
    - by eapply valueAt_container. }
  exists rs, r. unfold Form.rows. cbn [Form.selected Form.expanded]. rewrite Esp.
  rewrite bool_decide_true by set_solver. repeat split; try done.
  intros Hexp. rewrite Ho. apply bool_decide_eq_true.
  destruct (Hopen segs v Hv Hexp) as (p & Ep' & Hp). simpl in Ep. congruence.
Qed.

Lemma pointer_not_root (seg : Seg) (p : jsstring) :
  seg <> Key [] -> pointerFromSegments [seg] = Some p ->
  bool_decide (p ∈ (collapseAll : gset jsstring)) = false.
Proof.
  intros Hs Ep. apply bool_decide_eq_false. unfold collapseAll. rewrite elem_of_singleton.
  intros ->. apply pointer_root_iff in Ep as [?|[= ->]]; done.
Qed.

Lemma renderItems_collapsed sp (items : list JsonValue) : forall i,
  exists rs,
    Form.renderItems collapseAll sp [] 0 items i = Some rs /\ length rs = length items /\
    Forall (fun r => Form.rowOpen r = false /\ length (Form.rowSegs r) = 1%nat) rs.
Proof.
  induction items as [|x rest IH]; intros i; [by exists []|]. cbn [Form.renderItems].
  destruct (pointerFromSegments_total ([] ++ [Idx i])) as [p Ep]; [by repeat constructor|].
  rewrite Ep. unfold Form.inner. rewrite (pointer_not_root (Idx i) p), andb_false_r by done.
  destruct (IH (N.succ i)) as (rs & -> & Hl & Hf). eexists. split; [done|]. simpl.
  split; [by rewrite Hl|]. constructor; [|done]. simpl. split; [|done].
  by apply (pointer_not_root (Idx i)).
Qed.

Lemma renderFields_collapsed sp (fields : list (jsstring * JsonValue)) :
  Forall (fun kv => isWellFormed (fst kv) = true /\ Form.keysWellFormed (snd kv)) fields ->
  [] ∉ map fst fields ->
  exists rs,
    Form.renderFields collapseAll sp [] 0 fields = Some rs /\ length rs = length fields /\
    Forall (fun r => Form.rowOpen r = false /\ length (Form.rowSegs r) = 1%nat) rs.
Proof.
  induction 1 as [|[k x] rest [Hk _] _ IH]; intros Hne; [by exists []|].
  cbn [Form.renderFields]. simpl in Hk, Hne. apply not_elem_of_cons in Hne as [Hk0 Hne].
  destruct (pointerFromSegments_total ([] ++ [Key k])) as [p Ep]; [by repeat constructor|].
  rewrite Ep. unfold Form.inner.
  assert (Key k <> Key []) as Hkey by congruence.
  rewrite (pointer_not_root (Key k) p), andb_false_r by done.
  destruct (IH Hne) as (rs & -> & Hl & Hf). eexists. split; [done|]. simpl.
  split; [by rewrite Hl|]. constructor; [|done]. simpl. split; [|done].
  by apply (pointer_not_root (Key k)).
Qed.

(** X19: after Collapse all, for a document whose root has no empty text key,
    the rows rendered are the rows of the root's children, one for each, and
    none is open. *)
Theorem collapseAll_top_level (value : JsonValue) (state : Form.FormState) :
  Form.keysWellFormed value -> Forall wellFormedSeg (Form.selected state) ->
  (forall fields, value = JObject fields -> [] ∉ map fst fields) ->
  exists rs,
    Form.rows value (Form.onCollapseAll state) = Some rs /\
    (forall items, value = JArray items -> length rs = length items) /\
    (forall fields, value = JObject fields -> length rs = length fields) /\
    Forall (fun r => Form.rowOpen r = false /\ length (Form.rowSegs r) = 1%nat) rs.
Proof.
  intros Hk Hsel Hne. unfold Form.rows, Form.onCollapseAll. cbn [Form.selected Form.expanded].
  destruct (pointerFromSegments_total _ Hsel) as [sp ->].
  rewrite bool_decide_true by (unfold collapseAll; set_solver).
  destruct value as [|b|n|s|items|fields]; try (exists []; by repeat split).
  - rewrite renderNode_array. destruct (renderItems_collapsed sp items 0) as (rs & E & Hl & Hf).
    exists rs. repeat split; try done. by intros ? [= <-].
  - rewrite renderNode_object. apply keysWellFormed_object in Hk.
    destruct (renderFields_collapsed sp fields Hk (Hne _ eq_refl)) as (rs & E & Hl & Hf).
    exists rs. repeat split; try done. by intros ? [= <-].
Qed.

(** X20: the child at the empty text key of the root has the root's pointer:
    while the root is open, its row is rendered open, and toggling it leaves
    the state as it is. *)
Theorem empty_key_stays_open (value v : JsonValue) (state : Form.FormState) :
  Form.keysWellFormed value -> Forall wellFormedSeg (Form.selected state) ->
  rootPointer ∈ Form.expanded state -> Form.valueAt value [Key []] = Some v ->
  Form.onToggle [Key []] state = Some state /\
  exists rs r,
    Form.rows value state = Some rs /\ r ∈ rs /\ Form.rowSegs r = [Key []] /\
    Form.rowOpen r = true.
Proof.
  intros Hk Hsel Hroot Hv. split.
  - unfold Form.onToggle. destruct (toggle [Key []] (Form.expanded state)) as [next|] eqn:E; [|done].
    rewrite (toggle_at_root [Key []] _ _ Hroot eq_refl E). by destruct state.
  - destruct (pointerFromSegments_total _ Hsel) as [sp Esp].
    destruct (renderNode_total (Form.expanded state) sp value [] 0 Hk) as [rs Ers]; [constructor|].
    destruct (renderNode_shows (Form.expanded state) sp [Key []] value [] 0 rs v)
      as (r & Hr & Es & Ep & _ & _ & _ & Ho);
      try done.
    { intros n Hn. simpl in Hn. lia. }
    exists rs, r. unfold Form.rows. rewrite Esp, bool_decide_true by done.
    repeat split; try done. rewrite Ho. apply bool_decide_eq_true.
    simpl in Ep. injection Ep as <-. done.
Qed.

End FormViewerAll.

Lemma onSelect_shows_row_witness :
  exists state' rs r,
    Form.onSelect [Key (js "a"); Key (js "bob")] Form.initialState = Some state' /\
    Form.rows Examples.bobDocument state' = Some rs /\
    r ∈ rs /\ Form.rowSegs r = [Key (js "a"); Key (js "bob")] /\ Form.rowSelected r = true /\
    Form.rowValue r = Form.summarizeValue (@JNumber integerNumbers 1%Z).
Proof.
  apply (onSelect_shows_row Examples.bobDocument (@JNumber integerNumbers 1%Z)
           [Key (js "a"); Key (js "bob")] Form.initialState).
  - vm_compute. repeat split.
  - reflexivity.
  - discriminate.
Defined.

Lemma rows_under_open_witness :
  let state := {| Form.expanded := {[js "/a"]} ∪ initialExpanded; Form.selected := [] |} in
  exists rs,
    Form.rows Examples.bobDocument state = Some rs /\
    Forall (fun r =>
              Form.rowSegs r <> [] /\
              S (Form.rowDepth r) = length (Form.rowSegs r) /\
              forall q, q `prefix_of` Form.rowSegs r -> q <> Form.rowSegs r ->
                exists p, pointerFromSegments q = Some p /\ p ∈ Form.expanded state) rs.
Proof.
  intros state. eexists. split; [vm_compute; reflexivity|].
  apply (rows_under_open Examples.bobDocument state). vm_compute. reflexivity.
Defined.

Lemma expandAll_shows_every_row_witness :
  exists state' rs r,
    Form.onExpandAll Examples.bobDocument Form.initialState = Some state' /\
    Form.rows Examples.bobDocument state' = Some rs /\ r ∈ rs /\
    Form.rowSegs r = [Key (js "list"); Idx 2] /\
    (isExpandable (@JString integerNumbers (js "bob")) = true -> Form.rowOpen r = true).
Proof.
  eexists. 
  assert (Form.onExpandAll Examples.bobDocument Form.initialState = Some ?[st]) as E
    by (vm_compute; reflexivity).
  destruct (expandAll_shows_every_row Examples.bobDocument (@JString integerNumbers (js "bob"))
              [Key (js "list"); Idx 2] Form.initialState _ ltac:(vm_compute; repeat split)
              ltac:(constructor) E ltac:(vm_compute; reflexivity) eq_refl ltac:(discriminate))
    as (rs & r & Hrs).
  exists rs, r. split; [exact E|exact Hrs].
Defined.

Lemma collapseAll_top_level_witness :
  exists rs,
    Form.rows Examples.bobDocument (Form.onCollapseAll Form.initialState) = Some rs /\
    (forall items, Examples.bobDocument = JArray items -> length rs = length items) /\
    (forall fields, Examples.bobDocument = JObject fields -> length rs = length fields) /\
    Forall (fun r => Form.rowOpen r = false /\ length (Form.rowSegs r) = 1%nat) rs.
Proof.
  apply (collapseAll_top_level Examples.bobDocument Form.initialState).
  - vm_compute. repeat split.
  - constructor.
  - intros fields [= <-]. simpl. rewrite !not_elem_of_cons.
    repeat split; [discriminate..|apply not_elem_of_nil].
Defined.

Lemma empty_key_stays_open_witness :
  Form.onToggle [Key []] Form.initialState = Some Form.initialState /\
  exists rs r,
    Form.rows Form.emptyKeyDocument Form.initialState = Some rs /\ r ∈ rs /\
    Form.rowSegs r = [Key []] /\ Form.rowOpen r = true.
Proof.
  apply (empty_key_stays_open Form.emptyKeyDocument
           (JObject [(js "x", @JNumber integerNumbers 1%Z)]) Form.initialState).
  - vm_compute. repeat split.
  - constructor.
  - unfold Form.initialState, initialExpanded. simpl. set_solver.
  - reflexivity.
Defined.

(** *** From [loadFromUrl] to the route *)

Section TransportFacts.
Import Transport.

Lemma step_scalar s e rest :
  step s e rest -> code_units s ->
  (exists c, uriUnescaped c = true /\ e = [c] /\ s = c :: rest) \/
  (exists cp, cp < 0x110000 /\ (cp < 0xD800 \/ 0xDFFF < cp) /\
              e = percent (utf8 cp) /\ s = unitsOf cp ++ rest).
Proof.
  unfold code_units, code_unit, isLeadingSurrogate, isTrailingSurrogate.
  destruct 1 as [c t U|c d t U L T|c t U L T]; rewrite ?Forall_cons; intros V;
    unfold code_unit, isLeadingSurrogate, isTrailingSurrogate in *;
    rewrite ?andb_true_iff, ?andb_false_iff, ?N.leb_le, ?N.leb_gt in *.
  - left. eauto.
  - right. exists (surrogatePair c d). unfold unitsOf, surrogatePair.
    destruct (N.ltb_spec ((c - 55296) * 1024 + (d - 56320) + 65536) 65536); [lia|].
    split; [lia|]. split; [lia|]. split; [done|]. simpl. f_equal; [nlia|]. f_equal. nlia.
  - right. exists c. unfold unitsOf.
    destruct (N.ltb_spec c 0x10000); [|lia]. split; [lia|]. split; [lia|]. done.
Qed.

(** **** The UTF-8 decoder reads what [utf8] writes *)

Lemma utf8Decode_emit b rest : b <= 0x7F -> utf8Decode (b :: rest) None = b :: utf8Decode rest None.
Proof.
  intros Hb. cbn [utf8Decode]. unfold lead. by destruct (N.leb_spec b 0x7F); [|lia].
Qed.

Lemma utf8Decode_begin b p rest :
  lead b = Begin p -> utf8Decode (b :: rest) None = utf8Decode rest (Some p).
Proof. intros E. cbn [utf8Decode]. by rewrite E. Qed.

Lemma utf8Decode_last b p rest :
  lowerBoundary p <= b -> b <= upperBoundary p -> bytesSeen p + 1 = bytesNeeded p ->
  utf8Decode (b :: rest) (Some p) = (codePoint p * 64 + b mod 64) :: utf8Decode rest None.
Proof.
  intros Hl Hu Hs. cbn [utf8Decode].
  destruct (N.leb_spec (lowerBoundary p) b); [|lia]. destruct (N.leb_spec b (upperBoundary p)); [|lia].
  cbn [andb]. by destruct (N.eqb_spec (bytesSeen p + 1) (bytesNeeded p)).
Qed.

Lemma utf8Decode_more b p rest :
  lowerBoundary p <= b -> b <= upperBoundary p -> bytesSeen p + 1 <> bytesNeeded p ->
  utf8Decode (b :: rest) (Some p) =
  utf8Decode rest (Some {| codePoint := codePoint p * 64 + b mod 64;
                           bytesSeen := bytesSeen p + 1; bytesNeeded := bytesNeeded p;
                           lowerBoundary := 0x80; upperBoundary := 0xBF |}).
Proof.
  intros Hl Hu Hs. cbn [utf8Decode].
  destruct (N.leb_spec (lowerBoundary p) b); [|lia]. destruct (N.leb_spec b (upperBoundary p)); [|lia].
  cbn [andb]. by destruct (N.eqb_spec (bytesSeen p + 1) (bytesNeeded p)).
Qed.

Lemma lead2 b : 0xC2 <= b -> b <= 0xDF ->
  lead b = Begin {| codePoint := b mod 32; bytesSeen := 0; bytesNeeded := 1;
                    lowerBoundary := 0x80; upperBoundary := 0xBF |}.
Proof.
  intros H1 H2. unfold lead. destruct (N.leb_spec b 0x7F); [lia|].
  destruct (N.leb_spec 0xC2 b); [|lia]. by destruct (N.leb_spec b 0xDF); [|lia].
Qed.

Lemma lead3 b : 0xE0 <= b -> b <= 0xEF ->
  lead b = Begin {| codePoint := b mod 16; bytesSeen := 0; bytesNeeded := 2;
                    lowerBoundary := if b =? 0xE0 then 0xA0 else 0x80;
                    upperBoundary := if b =? 0xED then 0x9F else 0xBF |}.
Proof.
  intros H1 H2. unfold lead. destruct (N.leb_spec b 0x7F); [lia|].
  destruct (N.leb_spec 0xC2 b); [|lia]. destruct (N.leb_spec b 0xDF); [lia|]. cbn [andb].
  destruct (N.leb_spec 0xE0 b); [|lia]. by destruct (N.leb_spec b 0xEF); [|lia].
Qed.

Lemma lead4 b : 0xF0 <= b -> b <= 0xF4 ->
  lead b = Begin {| codePoint := b mod 8; bytesSeen := 0; bytesNeeded := 3;
                    lowerBoundary := if b =? 0xF0 then 0x90 else 0x80;
                    upperBoundary := if b =? 0xF4 then 0x8F else 0xBF |}.
Proof.
  intros H1 H2. unfold lead. destruct (N.leb_spec b 0x7F); [lia|].
  destruct (N.leb_spec 0xC2 b); [|lia]. destruct (N.leb_spec b 0xDF); [lia|]. cbn [andb].
  destruct (N.leb_spec 0xE0 b); [|lia]. destruct (N.leb_spec b 0xEF); [lia|]. cbn [andb].
  destruct (N.leb_spec 0xF0 b); [|lia]. by destruct (N.leb_spec b 0xF4); [|lia].
Qed.

Lemma utf8Decode_utf8 cp rest :
  cp < 0x110000 -> cp < 0xD800 \/ 0xDFFF < cp ->
  utf8Decode (utf8 cp ++ rest) None = cp :: utf8Decode rest None.
Proof.
  intros Hcp Hs. unfold utf8.
  destruct (N.ltb_spec cp 0x80) as [H1|H1]; [apply utf8Decode_emit; lia|].
  destruct (N.ltb_spec cp 0x800) as [H2|H2].
  { cbn [app]. rewrite (utf8Decode_begin _ _ _ (lead2 (0xC0 + cp / 64) ltac:(nlia) ltac:(nlia))).
    rewrite utf8Decode_last; cbn [lowerBoundary upperBoundary bytesSeen bytesNeeded codePoint];
      [f_equal; nlia|nlia|nlia|done]. }
  destruct (N.ltb_spec cp 0x10000) as [H3|H3].
  { cbn [app]. rewrite (utf8Decode_begin _ _ _ (lead3 (0xE0 + cp / 4096) ltac:(nlia) ltac:(nlia))).
    rewrite utf8Decode_more; cbn [lowerBoundary upperBoundary bytesSeen bytesNeeded codePoint];
      [|destruct (N.eqb_spec (0xE0 + cp / 4096) 0xE0); nlia
       |destruct (N.eqb_spec (0xE0 + cp / 4096) 0xED); nlia|done].
    rewrite utf8Decode_last; cbn [lowerBoundary upperBoundary bytesSeen bytesNeeded codePoint];
      [f_equal; nlia|nlia|nlia|done]. }
  cbn [app]. rewrite (utf8Decode_begin _ _ _ (lead4 (0xF0 + cp / 262144) ltac:(nlia) ltac:(nlia))).
  rewrite utf8Decode_more; cbn [lowerBoundary upperBoundary bytesSeen bytesNeeded codePoint];
    [|destruct (N.eqb_spec (0xF0 + cp / 262144) 0xF0); nlia
     |destruct (N.eqb_spec (0xF0 + cp / 262144) 0xF4); nlia|done].
  rewrite utf8Decode_more; cbn [lowerBoundary upperBoundary bytesSeen bytesNeeded codePoint];
    [|nlia|nlia|done].
  rewrite utf8Decode_last; cbn [lowerBoundary upperBoundary bytesSeen bytesNeeded codePoint];
    [f_equal; nlia|nlia|nlia|done].
Qed.


(** **** Percent-decoding reads what percent-encoding writes *)

Lemma hexValue_hexDigit d : d < 16 -> hexValue (hexDigit d) = Some d.
Proof.
  intros Hd. unfold hexValue, hexDigit, isDigit. destruct (N.ltb_spec d 10).
  - destruct (N.leb_spec 48 (48 + d)); [|lia]. destruct (N.leb_spec (48 + d) 57); [|lia].
    cbn [andb]. f_equal. lia.
  - destruct (N.leb_spec (55 + d) 57); [lia|]. rewrite andb_false_r.
    destruct (N.leb_spec (55 + d) 102); [|lia]. destruct (N.leb_spec 97 (55 + d)); [lia|].
    cbn [andb]. destruct (N.leb_spec 65 (55 + d)); [|lia]. destruct (N.leb_spec (55 + d) 70); [|lia].
    cbn [andb]. f_equal. lia.
Qed.

Lemma percentDecode_octet b rest :
  b < 256 -> percentDecode (percentOctet b ++ rest) = b :: percentDecode rest.
Proof.
  intros Hb. unfold percentOctet. cbn [app percentDecode]. change (37 =? 37) with true. cbv iota.
  rewrite !hexValue_hexDigit by nlia. f_equal. nlia.
Qed.

Lemma percentDecode_percent bs rest :
  Forall (fun b => b < 256) bs -> percentDecode (percent bs ++ rest) = bs ++ percentDecode rest.
Proof.
  induction 1 as [|b bs Hb _ IH]; [done|].
  change (percent (b :: bs)) with (percentOctet b ++ percent bs).
  rewrite <- app_assoc, percentDecode_octet by done. simpl. by rewrite IH.
Qed.

Lemma percentDecode_plain c rest : c <> 37 -> percentDecode (c :: rest) = c :: percentDecode rest.
Proof. intros Hc. cbn [percentDecode]. by destruct (N.eqb_spec c 37). Qed.

(** **** The characters [encodeURIComponent] writes *)

Lemma hexDigit_range d : d < 16 ->
  (48 <= hexDigit d /\ hexDigit d <= 57) \/ (65 <= hexDigit d /\ hexDigit d <= 70).
Proof. intros Hd. unfold hexDigit. destruct (N.ltb_spec d 10); lia. Qed.

Lemma uriUnescaped_range c : uriUnescaped c = true ->
  (65 <= c /\ c <= 90) \/ (97 <= c /\ c <= 122) \/ (48 <= c /\ c <= 57) \/
  c = 45 \/ c = 95 \/ c = 46 \/ c = 33 \/ c = 126 \/ c = 42 \/ c = 39 \/ c = 40 \/ c = 41.
Proof.
  unfold uriUnescaped. rewrite !orb_true_iff, !andb_true_iff, !N.leb_le, !N.eqb_eq. tauto.
Qed.

Lemma encodedChar_range c : encodedChar c ->
  0x21 <= c /\ c <= 0x7E /\ c <> 0x22 /\ c <> 0x23 /\ c <> 0x26 /\ c <> 0x2B /\
  c <> 0x3C /\ c <> 0x3D /\ c <> 0x3E.
Proof.
  intros [Hu%uriUnescaped_range|[->|(d & Hd%hexDigit_range & ->)]]; lia.
Qed.

Lemma percent_encodedChar bs : Forall (fun b => b < 256) bs -> Forall encodedChar (percent bs).
Proof.
  induction 1 as [|b bs Hb _ IH]; [constructor|].
  change (percent (b :: bs)) with (percentOctet b ++ percent bs). apply Forall_app. split; [|done].
  unfold percentOctet.
  apply List.Forall_cons; [right; by left|].
  apply List.Forall_cons; [right; right; exists (b / 16); split; [nlia|done]|].
  apply List.Forall_cons; [right; right; exists (b mod 16); split; [nlia|done]|constructor].
Qed.

Lemma encodeURIComponent_chars s : forall o,
  code_units s -> encodeURIComponent s = Some o -> Forall encodedChar o.
Proof.
  remember (length s) as n eqn:Hn. revert s Hn.
  induction (lt_wf n) as [n _ IH]. intros s -> o V E.
  destruct (decide (s = [])) as [->|Hne]; [injection E as <-; constructor|].
  destruct (encode_step _ _ E Hne) as (e & rest & r & St & Er & ->).
  apply Forall_app. split.
  - destruct (step_scalar _ _ _ St V) as [(c & U & -> & _)|(cp & Hcp & _ & -> & _)].
    + apply List.Forall_cons; [by left|constructor].
    + by apply percent_encodedChar, utf8_octets.
  - eapply (IH (length rest)); eauto using step_shorter, step_code_units.
Qed.

(** **** What the route decodes *)

Lemma inSpecialQuerySet_encodedChar c :
  encodedChar c -> inSpecialQuerySet c = (c =? 0x27).
Proof.
  intros (H1 & H2 & H3 & H4 & H5 & H6 & H7 & H8 & H9)%encodedChar_range.
  unfold inSpecialQuerySet.
  destruct (N.leb_spec c 0x20); [lia|]. destruct (N.ltb_spec 0x7E c); [lia|].
  destruct (N.eqb_spec c 0x22); [lia|]. destruct (N.eqb_spec c 0x23); [lia|].
  destruct (N.eqb_spec c 0x3C); [lia|]. destruct (N.eqb_spec c 0x3E); [lia|].
  cbn [orb]. by rewrite !orb_false_r.
Qed.

Lemma unitsOf_unit c : c < 0x10000 -> unitsOf c = [c].
Proof. intros Hc. unfold unitsOf. by destruct (N.ltb_spec c 0x10000); [|lia]. Qed.

Lemma decode_plain c bytes :
  encodedChar c -> c <> 37 -> c <> 0x27 ->
  decodeComponent (encodeByte c ++ bytes) = c :: decodeComponent bytes.
Proof.
  intros Hc H37 H27. pose proof (encodedChar_range c Hc) as (H1 & H2 & H3 & H4 & H5 & H6 & _).
  unfold encodeByte. rewrite (inSpecialQuerySet_encodedChar c Hc).
  destruct (N.eqb_spec c 0x27); [done|]. unfold decodeComponent. cbn [app map].
  unfold plusToSpace at 1. destruct (N.eqb_spec c 0x2B); [done|].
  rewrite percentDecode_plain by done. rewrite utf8Decode_emit by lia.
  cbn [flat_map]. rewrite unitsOf_unit by lia. done.
Qed.

Lemma decode_quote bytes :
  decodeComponent (encodeByte 0x27 ++ bytes) = 0x27 :: decodeComponent bytes.
Proof.
  unfold decodeComponent. change (encodeByte 0x27) with (percentOctet 0x27).
  rewrite map_app. change (map plusToSpace (percentOctet 0x27)) with (percentOctet 0x27).
  rewrite percentDecode_octet by lia. rewrite utf8Decode_emit by lia. done.
Qed.

Lemma plusToSpace_encoded cs : Forall encodedChar cs -> map plusToSpace cs = cs.
Proof.
  induction 1 as [|c cs Hc _ IH]; [done|]. simpl. rewrite IH. f_equal.
  pose proof (encodedChar_range c Hc). unfold plusToSpace. destruct (N.eqb_spec c 0x2B); [lia|done].
Qed.

Lemma encodeByte_percent bs :
  Forall (fun b => b < 256) bs -> flat_map encodeByte (percent bs) = percent bs.
Proof.
  intros Hb. pose proof (percent_encodedChar bs Hb) as He.
  assert (37 <> 0x27 /\ forall d, d < 16 -> hexDigit d <> 0x27) as [_ Hh].
  { split; [done|]. intros d Hd%hexDigit_range. lia. }
  induction Hb as [|b bs Hb _ IH]; [done|].
  change (percent (b :: bs)) with (percentOctet b ++ percent bs) in *.
  apply Forall_app in He as [He1 He2]. rewrite flat_map_app, IH by done. f_equal.
  unfold percentOctet in *. inversion He1 as [|? ? E1 He1']; subst.
  inversion He1' as [|? ? E2 He1'']; subst. inversion He1'' as [|? ? E3 _]; subst.
  cbn [flat_map app]. unfold encodeByte.
  rewrite !inSpecialQuerySet_encodedChar by done.
  destruct (N.eqb_spec (hexDigit (b / 16)) 0x27) as [Hx|_]; [by apply Hh in Hx; [|nlia]|].
  destruct (N.eqb_spec (hexDigit (b mod 16)) 0x27) as [Hx|_]; [by apply Hh in Hx; [|nlia]|].
  done.
Qed.

Lemma decode_octets cp bytes :
  cp < 0x110000 -> cp < 0xD800 \/ 0xDFFF < cp ->
  decodeComponent (flat_map encodeByte (percent (utf8 cp)) ++ bytes) =
  unitsOf cp ++ decodeComponent bytes.
Proof.
  intros Hcp Hs. pose proof (utf8_octets cp Hcp) as Ho.
  rewrite encodeByte_percent by done. unfold decodeComponent.
  rewrite map_app, (plusToSpace_encoded _ (percent_encodedChar _ Ho)).
  rewrite percentDecode_percent by done. rewrite utf8Decode_utf8 by done. done.
Qed.

(** The route's decoding of the text [encodeURIComponent] wrote, as it is in
    the query, is the text encoded. *)
Lemma decode_encoded s : forall o,
  code_units s -> encodeURIComponent s = Some o ->
  decodeComponent (flat_map encodeByte o) = s.
Proof.
  remember (length s) as n eqn:Hn. revert s Hn.
  induction (lt_wf n) as [n _ IH]. intros s -> o V E.
  destruct (decide (s = [])) as [->|Hne]; [by injection E as <-|].
  destruct (encode_step _ _ E Hne) as (e & rest & r & St & Er & ->).
  assert (decodeComponent (flat_map encodeByte r) = rest) as Hrest.
  { eapply (IH (length rest)); eauto using step_shorter, step_code_units. }
  rewrite flat_map_app.
  destruct (step_scalar _ _ _ St V) as [(c & U & -> & ->)|(cp & Hcp & Hs & -> & ->)].
  - cbn [flat_map]. rewrite app_nil_r. destruct (decide (c = 0x27)) as [->|H27].
    + by rewrite decode_quote, Hrest.
    + rewrite decode_plain, Hrest; [done|by left| |done].
      intros ->. by rewrite uriUnescaped_percent in U.
  - by rewrite decode_octets, Hrest.
Qed.

(** **** The query, as sent and as parsed again *)

Lemma scalarValues_ascii l : Forall (fun c => c < 0x80) l -> scalarValues l = l.
Proof.
  induction 1 as [|c l Hc _ IH]; [done|]. cbn [scalarValues].
  unfold isLeadingSurrogate, isTrailingSurrogate.
  destruct (N.leb_spec 0xD800 c); [lia|]. destruct (N.leb_spec 0xDC00 c); [lia|].
  cbn [andb]. by rewrite IH.
Qed.

Lemma utf8_ascii l : Forall (fun c => c < 0x80) l -> flat_map utf8 l = l.
Proof.
  induction 1 as [|c l Hc _ IH]; [done|]. cbn [flat_map]. rewrite IH. unfold utf8.
  by destruct (N.ltb_spec c 0x80); [|lia].
Qed.

Lemma dropLeading_keep l : Forall (fun c => 0x20 < c) l -> dropLeading l = l.
Proof.
  destruct 1 as [|c l Hc _]; [done|]. cbn [dropLeading]. unfold isC0ControlOrSpace.
  by destruct (N.leb_spec c 0x20); [lia|].
Qed.

Lemma filter_keep l :
  Forall (fun c => 0x20 < c) l -> List.filter (fun c => negb (isTabOrNewline c)) l = l.
Proof.
  induction 1 as [|c l Hc _ IH]; [done|]. simpl. rewrite IH. unfold isTabOrNewline.
  destruct (N.eqb_spec c 9); [lia|]. destruct (N.eqb_spec c 10); [lia|].
  by destruct (N.eqb_spec c 13); [lia|].
Qed.

Lemma upTo_keep mark l : mark ∉ l -> upTo mark l = l.
Proof.
  induction l as [|c l IH]; [done|]. intros [Hc Hl]%not_elem_of_cons. cbn [upTo].
  destruct (N.eqb_spec c mark); [done|]. by rewrite IH.
Qed.

Lemma queryEncode_ascii l : Forall (fun c => c < 0x80) l -> queryEncode l = flat_map encodeByte l.
Proof.
  induction 1 as [|c l Hc _ IH]; [done|]. unfold queryEncode in *. cbn [flat_map]. rewrite IH.
  f_equal. unfold utf8. destruct (N.ltb_spec c 0x80); [|lia]. simpl. by rewrite app_nil_r.
Qed.

Lemma requestQuery_plain q :
  Forall (fun c => 0x20 < c /\ c < 0x80 /\ c <> 0x23) q -> requestQuery q = flat_map encodeByte q.
Proof.
  intros Hq. unfold requestQuery.
  assert (Forall (fun c => c < 0x80) q) as H1 by (eapply Forall_impl; [exact Hq|]; naive_solver).
  assert (Forall (fun c => 0x20 < c) q) as H2 by (eapply Forall_impl; [exact Hq|]; naive_solver).
  assert (0x23 ∉ q) as H3.
  { intros Hin. rewrite Forall_forall in Hq. destruct (Hq _ Hin) as (_ & _ & ?). done. }
  rewrite scalarValues_ascii by done. rewrite dropLeading_keep by (by apply Forall_rev).
  rewrite rev_involutive, filter_keep, upTo_keep by done. by apply queryEncode_ascii.
Qed.

(** A character the query keeps as it is, and that does not end a pair. *)
Lemma encodeByte_kept c : encodedChar c ->
  Forall (fun b => inSpecialQuerySet b = false /\ b <> 0x26) (encodeByte c).
Proof.
  intros Hc. unfold encodeByte. rewrite (inSpecialQuerySet_encodedChar c Hc).
  destruct (N.eqb_spec c 0x27) as [->|H27].
  - repeat (apply List.Forall_cons; [by split|]). constructor.
  - apply List.Forall_cons; [|constructor]. split.
    + rewrite (inSpecialQuerySet_encodedChar c Hc). by apply N.eqb_neq.
    + by apply encodedChar_range in Hc as (_ & _ & _ & _ & ? & _).
Qed.

Lemma kept_range b : inSpecialQuerySet b = false -> 0x20 < b /\ b < 0x80 /\ b <> 0x23.
Proof.
  unfold inSpecialQuerySet. rewrite !orb_false_iff, N.leb_gt, N.ltb_ge, !N.eqb_neq. lia.
Qed.

Lemma flat_map_encodeByte_kept l :
  Forall (fun b => inSpecialQuerySet b = false) l -> flat_map encodeByte l = l.
Proof.
  induction 1 as [|b l Hb _ IH]; [done|]. cbn [flat_map]. rewrite IH. unfold encodeByte.
  by rewrite Hb.
Qed.

Lemma splitOn_none sep l : sep ∉ l -> splitOn sep l = [l].
Proof.
  induction l as [|b l IH]; [done|]. intros [Hb Hl]%not_elem_of_cons. cbn [splitOn].
  rewrite IH by done. by destruct (N.eqb_spec b sep).
Qed.

Lemma received_encoded (s encoded : jsstring) :
  code_units s -> encodeURIComponent s = Some encoded ->
  received (Requested (requestQuery (js "url=" ++ encoded))) = Some s.
Proof.
  intros V E. pose proof (encodeURIComponent_chars s encoded V E) as Hc.
  set (value := flat_map encodeByte encoded).
  assert (Forall (fun b => inSpecialQuerySet b = false /\ b <> 0x26) value) as Hv.
  { unfold value. clear E. induction Hc as [|c cs Hc _ IH]; [constructor|].
    cbn [flat_map]. apply Forall_app. split; [by apply encodeByte_kept|done]. }
  assert (requestQuery (js "url=" ++ encoded) = js "url=" ++ value) as ->.
  { rewrite requestQuery_plain.
    - by rewrite flat_map_app.
    - apply Forall_app. split; [repeat (apply List.Forall_cons; [by vm_compute|]); constructor|].
      eapply Forall_impl; [exact Hc|]. intros c Hr%encodedChar_range. lia. }
  assert (Forall (fun b => inSpecialQuerySet b = false /\ b <> 0x26) (js "url=" ++ value)) as Hq.
  { apply Forall_app. split; [|done]. repeat (apply List.Forall_cons; [by split|]). constructor. }
  assert (Forall (fun b => inSpecialQuerySet b = false) (js "url=" ++ value)) as Hk.
  { eapply Forall_impl; [exact Hq|]. by intros b [? _]. }
  assert (Forall (fun c => 0x20 < c /\ c < 0x80 /\ c <> 0x23) (js "url=" ++ value)) as Hp.
  { eapply Forall_impl; [exact Hk|]. intros b. apply kept_range. }
  assert (Forall (fun c => c < 0x80) (js "url=" ++ value)) as Ha.
  { eapply Forall_impl; [exact Hp|]. naive_solver. }
  unfold received. rewrite requestQuery_plain, flat_map_encodeByte_kept by done.
  unfold searchParamsGet. rewrite scalarValues_ascii, utf8_ascii by done.
  unfold parseUrlencoded. rewrite splitOn_none.
  2:{ intros Hin. rewrite Forall_forall in Hq. by destruct (Hq _ Hin). }
  cbn [flat_map]. change (js "url=" ++ value) with (117 :: 114 :: 108 :: 61 :: value).
  cbn [nameValue]. change (117 =? 61) with false. change (114 =? 61) with false.
  change (108 =? 61) with false. change (61 =? 61) with true. cbv iota. cbn [app List.find].
  change (decodeComponent [117; 114; 108]) with (js "url").
  rewrite bool_decide_true by done. cbn [fmap option_fmap option_map snd]. f_equal.
  by apply decode_encoded.
Qed.

Lemma trimStart_code_units s : code_units s -> code_units (Str.trimStart s).
Proof.
  unfold code_units. induction 1 as [|c s Hc Hs IH]; [constructor|]. simpl.
  destruct (Str.isWhiteSpace c); [done|by constructor].
Qed.

Lemma trim_code_units s : code_units s -> code_units (Str.trim s).
Proof.
  intros Hs. unfold Str.trim, Str.trimEnd. apply Forall_rev, trimStart_code_units, Forall_rev.
  by apply trimStart_code_units.
Qed.

End TransportFacts.

(** X21: what [loadFromUrl] sends and what the route reads.  For a blank text
    nothing is sent; for a trimmed text with an unpaired surrogate
    [encodeURIComponent] throws before the fetch; for any other text the
    request is sent and [searchParams.get('url')] in the route is the
    trimmed text itself, whatever characters it has. *)
Theorem loadFromUrl_received (urlToLoad : jsstring) :
  code_units urlToLoad ->
  let text := Str.trim urlToLoad in
  match Transport.loadFromUrl urlToLoad with
  | Transport.NotSent => text = []
  | Transport.Thrown => text <> [] /\ isWellFormed text = false
  | Transport.Requested query =>
    text <> [] /\ isWellFormed text = true /\
    Transport.received (Transport.Requested query) = Some text
  end.
Proof.
  intros V%trim_code_units text. fold text in V. unfold Transport.loadFromUrl. fold text.
  destruct text as [|c text'] eqn:Et; [done|]. cbn [Str.truthy negb]. rewrite <- Et in *.
  assert (text <> []) as Hne by (by rewrite Et).
  destruct (encodeURIComponent text) as [encoded|] eqn:E.
  - split; [done|]. split.
    + apply encodeURIComponent_defined. by rewrite E.
    + by apply received_encoded.
  - split; [done|]. destruct (isWellFormed text) eqn:W; [|done].
    destruct (encodeURIComponent_total text W) as [r Hr]. congruence.
Qed.

Lemma loadFromUrl_received_witness :
  let urlToLoad := js "  https://example.com/a b?x=1&y='z'+#" ++ [233; 0xD83D; 0xDE00; 32] in
  match Transport.loadFromUrl urlToLoad with
  | Transport.NotSent => Str.trim urlToLoad = []
  | Transport.Thrown => Str.trim urlToLoad <> [] /\ isWellFormed (Str.trim urlToLoad) = false
  | Transport.Requested query =>
    Str.trim urlToLoad <> [] /\ isWellFormed (Str.trim urlToLoad) = true /\
    Transport.received (Transport.Requested query) = Some (Str.trim urlToLoad)
  end.
Proof.
  apply (loadFromUrl_received
           (js "  https://example.com/a b?x=1&y='z'+#" ++ [233; 0xD83D; 0xDE00; 32])).
  unfold code_units, code_unit. repeat (apply List.Forall_cons; [by vm_compute|]). constructor.
Defined.

(** The request for that text, and the text the route reads. *)
Example loadFromUrl_example :
  let urlToLoad := js "  https://example.com/a b?x=1&y='z'+#" ++ [233; 0xD83D; 0xDE00; 32] in
  Transport.loadFromUrl urlToLoad =
    Transport.Requested
      (js "url=https%3A%2F%2Fexample.com%2Fa%20b%3Fx%3D1%26y%3D%27z%27%2B%23%C3%A9%F0%9F%98%80") /\
  Transport.received (Transport.loadFromUrl urlToLoad) =
    Some (js "https://example.com/a b?x=1&y='z'+#" ++ [233; 0xD83D; 0xDE00]).
Proof. vm_compute. split; reflexivity. Qed.
